(** * BioSim: the island simulation engine, embedded and verified

    A shallow embedding of the simulation core of BioSim
    ([island.py], [landscape/baseland.py], [landscape/water.py],
    [animals/carnivore.py], [animals/herbivore.py]).

    Conventions of the embedding.
    - Python floats are idealised as rationals ([Q]); the exponential of
      the fitness formula is a parameter of the development.
    - Animal objects live in an object store ([gmap nat Animal]); cells hold
      references (store keys), as the Python lists hold object references.
    - A Python [dict] whose iteration order matters is kept together with
      its ordered key list; exceptions are values of [result]. *)

From Stdlib Require Import QArith ZArith String Ascii List Lia Lqa.
From stdpp Require Import gmap strings list fin_maps sorting.

Set Default Proof Using "Type".

(** ** Exceptions *)

(** The texts carried by the [ValueError]s the engine raises. *)
Inductive message :=
  | InvalidCellType (cell_type : ascii)
      (* "Invalid cell type: {cell_type}" *)
  | RowsNotSameSize
      (* "Not all rows of the Island are of the same size." *)
  | TopRowNotWater (row : list ascii)
  | BottomRowNotWater (row : list ascii)
  | LeftColNotWater (col : list ascii)
  | RightColNotWater (col : list ascii)
  | InvalidParameter (key : string)
  | NotFloatOrInt (key : string)
  | InvalidAnimalType (species : string)
  | NegativeAge
  | NegativeWeight
  | NotInList.
      (* list.remove(x): x not in list *)

(** Modelled from the spec: the exception class of custom_exceptions.py
    (the file is not part of the sources).  It is raised for a rejected
    placement and is a class of its own, so that a handler tells it from
    the built-in exceptions. *)
Inductive custom_exception :=
  | IllegalActionError.

(** What the engine raises: three built-in exceptions and the custom one. *)
Inductive exn :=
  | ValueError (m : message)
  | KeyError
  | IndexError
  | Custom (e : custom_exception).

Coercion Custom : custom_exception >-> exn.

Inductive result (A : Type) :=
  | Ok (a : A)
  | Raise (e : exn).
Arguments Ok {A} a.
Arguments Raise {A} e.

Global Instance result_bind : MBind result := fun A B k r =>
  match r with
  | Ok a => k a
  | Raise e => Raise e
  end.

(** ** Landscape *)

Inductive Landtype := Lowland | Water | Desert | Highland.

Global Instance Landtype_eq_dec : EqDecision Landtype.
Proof. solve_decision. Defined.

(** [Island.cell_map]: the text of the geography to the landscape class. *)
Definition cell_map (y : ascii) : option Landtype :=
  if Ascii.eqb y "L" then Some Lowland
  else if Ascii.eqb y "W" then Some Water
  else if Ascii.eqb y "D" then Some Desert
  else if Ascii.eqb y "H" then Some Highland
  else None.

(** A cell object.  [herbivores] and [carnivores] hold references into the
    animal store, in list order. *)
Record Cell := mkCell {
  landtype : Landtype;
  is_habitable : bool;
  fodder : Q;
  herbivores : list nat;
  carnivores : list nat
}.

Definition Coord : Type := Z * Z.

(** The class attribute [f_max] of each landscape class. *)
Definition LandParams : Type := Landtype -> Q.

Definition default_f_max : LandParams := fun lt =>
  match lt with
  | Lowland => 800
  | Highland => 300
  | Desert => 0
  | Water => 0
  end%Q.

(** [cls()] for a landscape class: [Baseland.__init__] and the subclass
    initialisers ([Water] clears [is_habitable]). *)
Definition new_cell (f_max : LandParams) (lt : Landtype) : Cell :=
  {| landtype := lt;
     is_habitable := match lt with Water => false | _ => true end;
     fodder := f_max lt;
     herbivores := [];
     carnivores := [] |}.

(** ** Geography *)

Definition newline : ascii := "010"%char.

(** [str.split("\n")]: one piece more than there are newlines. *)
Fixpoint split_lines (s : list ascii) : list (list ascii) :=
  match s with
  | [] => [[]]
  | c :: s' =>
      if Ascii.eqb c newline then [] :: split_lines s'
      else match split_lines s' with
           | r :: rs => (c :: r) :: rs
           | [] => [[c]]
           end
  end.

(** [list(set(items))]: the distinct items.  Python leaves the order of a
    set unspecified; only the collection of distinct items is used below. *)
Definition get_distinct (items : list ascii) : list ascii := remove_dups items.

Definition W : ascii := "W"%char.

(** [geo_split[0]] and [geo_split[-1]]; [line[0]] and [line[-1]]. *)
Definition first_item {A} (l : list A) : result A :=
  match l with
  | x :: _ => Ok x
  | [] => Raise IndexError
  end.

Definition last_item {A} (l : list A) : result A :=
  match last l with
  | Some x => Ok x
  | None => Raise IndexError
  end.

(** [[f(line) for line in lines]] where [f] may raise. *)
Fixpoint comprehension {A B} (f : A -> result B) (l : list A) : result (list B) :=
  match l with
  | [] => Ok []
  | x :: l' => y ← f x; ys ← comprehension f l'; Ok (y :: ys)
  end.

(** [Island.validate_map]. *)
Definition validate_map (geography : string) : result unit :=
  let g := list_ascii_of_string geography in
  match List.find (fun cell_type => negb (bool_decide (is_Some (cell_map cell_type))))
                  (get_distinct (filter (fun c => c <> newline) g)) with
  | Some cell_type => Raise (ValueError (InvalidCellType cell_type))
  | None =>
      let geo_split := split_lines g in
      if negb (Nat.eqb (length (remove_dups (length <$> geo_split))) 1)
      then Raise (ValueError RowsNotSameSize)
      else
        top_row ← first_item geo_split;
        if negb (bool_decide (get_distinct top_row = [W]))
        then Raise (ValueError (TopRowNotWater top_row))
        else
          bottom_row ← last_item geo_split;
          if negb (bool_decide (get_distinct bottom_row = [W]))
          then Raise (ValueError (BottomRowNotWater bottom_row))
          else
            left_col ← comprehension first_item geo_split;
            if negb (bool_decide (get_distinct left_col = [W]))
            then Raise (ValueError (LeftColNotWater left_col))
            else
              right_col ← comprehension last_item geo_split;
              if negb (bool_decide (get_distinct right_col = [W]))
              then Raise (ValueError (RightColNotWater right_col))
              else Ok tt
  end.

(** [enumerate]. *)
Definition enumerate {A} (l : list A) : list (nat * A) := imap (fun i x => (i, x)) l.

(** The items of the dictionary comprehension of [_build_island], in the
    order the comprehension produces them; [cell_map[y]] raises [KeyError]
    on an unknown character. *)
Definition build_row (f_max : LandParams) (i : nat) (x : list ascii)
  : result (list (Coord * Cell)) :=
  comprehension
    (fun jy : nat * ascii =>
       match cell_map jy.2 with
       | Some lt => Ok ((Z.of_nat i + 1, Z.of_nat jy.1 + 1)%Z, new_cell f_max lt)
       | None => Raise KeyError
       end)
    (enumerate x).

Definition build_items (f_max : LandParams) (geo_split : list (list ascii))
  : result (list (Coord * Cell)) :=
  rows ← comprehension (fun ix : nat * list ascii => build_row f_max ix.1 ix.2)
                       (enumerate geo_split);
  Ok (mjoin (rows : list (list (Coord * Cell)))).

(** The island.  [habitable_map] holds the very cell objects of
    [island_map]; it is kept as its ordered key list and read through
    [island_map]. *)
Record Island := mkIsland {
  geography : string;
  island_map : gmap Coord Cell;
  habitable_map : list Coord
}.

(** [Island._build_island]. *)
Definition _build_island (f_max : LandParams) (geography : string) : result Island :=
  items ← build_items f_max (split_lines (list_ascii_of_string geography));
  Ok {| geography := geography;
        island_map := list_to_map items;
        habitable_map := (filter (fun cc => is_habitable cc.2 = true) items).*1 |}.

(** [Island.__init__]. *)
Definition Island_init (f_max : LandParams) (geography : string) : result Island :=
  _ ← validate_map geography;
  _build_island f_max geography.

(** [Island.move_direction_map]. *)
Definition move_direction_map : list Coord := [(-1, 0); (1, 0); (0, -1); (0, 1)]%Z.

Definition coord_add (c d : Coord) : Coord := (c.1 + d.1, c.2 + d.2)%Z.

(** ** Layout predicates

    What a layout can violate, stated on the rows of the geography, and what
    [validate_map] establishes when it returns. *)

Definition rows_of (geography : string) : list (list ascii) :=
  split_lines (list_ascii_of_string geography).

Definition has_unknown_char (geography : string) : Prop :=
  ∃ c, c ∈ list_ascii_of_string geography ∧ c ≠ newline ∧ cell_map c = None.

Definition unequal_rows (geography : string) : Prop :=
  ∃ r1 r2, r1 ∈ rows_of geography ∧ r2 ∈ rows_of geography ∧ length r1 ≠ length r2.

Definition border_not_water (geography : string) : Prop :=
  ∃ i j r y, rows_of geography !! i = Some r ∧ r !! j = Some y ∧ y ≠ W ∧
             (i = 0 ∨ S i = length (rows_of geography) ∨ j = 0 ∨ S j = length r).

Record valid_rows (rows : list (list ascii)) : Prop := {
  vr_known : ∀ r c, r ∈ rows → c ∈ r → is_Some (cell_map c);
  vr_width : ∃ n, 0 < n ∧ ∀ r, r ∈ rows → length r = n;
  vr_top : ∀ r c, head rows = Some r → c ∈ r → c = W;
  vr_bottom : ∀ r c, last rows = Some r → c ∈ r → c = W;
  vr_left : ∀ r c, r ∈ rows → head r = Some c → c = W;
  vr_right : ∀ r c, r ∈ rows → last r = Some c → c = W
}.

Definition validate_map_post (geography : string) (r : result unit) : Prop :=
  match r with
  | Ok _ => valid_rows (rows_of geography) ∧ ¬ has_unknown_char geography
  | Raise (ValueError (InvalidCellType c)) =>
      c ∈ list_ascii_of_string geography ∧ c ≠ newline ∧ cell_map c = None
  | Raise (ValueError RowsNotSameSize) =>
      ¬ has_unknown_char geography ∧ unequal_rows geography
  | Raise (ValueError (TopRowNotWater _))
  | Raise (ValueError (BottomRowNotWater _))
  | Raise (ValueError (LeftColNotWater _))
  | Raise (ValueError (RightColNotWater _)) =>
      ¬ has_unknown_char geography ∧ ¬ unequal_rows geography
  | Raise _ => False
  end.


(** The cell built for the character [y] at row [i], column [j] (0-based),
    and the items of [_build_island] for a layout of known characters. *)
Definition item_at (f_max : LandParams) (i j : nat) (y : ascii) : Coord * Cell :=
  ((Z.of_nat i + 1, Z.of_nat j + 1)%Z, new_cell f_max (default Water (cell_map y))).

Definition layout_items (f_max : LandParams) (rows : list (list ascii))
  : list (Coord * Cell) :=
  mjoin (imap (fun i r => imap (item_at f_max i) r) rows).

(** ** Class attributes *)

Inductive Species := Herbivore | Carnivore.

Global Instance Species_eq_dec : EqDecision Species.
Proof. solve_decision. Defined.

(** The attributes of an animal class: the parameters ([default_params] of
    [Herbivore] and of [Carnivore], without [DeltaPhiMax], which only
    [Carnivore] has) and [weight_check_prob].  The class body evaluates
    [weight_check_prob = zeta * (w_birth + sigma_birth)] once, when the
    class is created; it is an attribute of its own from then on, and a
    later change of [zeta], [w_birth] or [sigma_birth] does not reach it. *)
Record AnimalParams := mkAnimalParams {
  w_birth : Q;
  sigma_birth : Q;
  beta : Q;
  eta : Q;
  a_half : Q;
  phi_age : Q;
  w_half : Q;
  phi_weight : Q;
  mu : Q;
  gamma : Q;
  zeta : Q;
  xi : Q;
  omega : Q;
  F : Q;
  weight_check_prob : Q
}.

(** The process-wide class attributes: one table per animal class,
    [Carnivore.DeltaPhiMax], and [f_max] of every landscape class. *)
Record Classes := mkClasses {
  animal_params : Species -> AnimalParams;
  DeltaPhiMax : Q;
  f_max : LandParams
}.

Definition herbivore_defaults : AnimalParams :=
  {| w_birth := 8; sigma_birth := 1.5; beta := 0.9; eta := 0.05;
     a_half := 40; phi_age := 0.6; w_half := 10; phi_weight := 0.1;
     mu := 0.25; gamma := 0.2; zeta := 3.5; xi := 1.2; omega := 0.4;
     F := 10;
     weight_check_prob := 3.5 * (8 + 1.5) |}%Q.

Definition carnivore_defaults : AnimalParams :=
  {| w_birth := 6; sigma_birth := 1; beta := 0.75; eta := 0.125;
     a_half := 40; phi_age := 0.3; w_half := 4; phi_weight := 0.4;
     mu := 0.4; gamma := 0.8; zeta := 3.5; xi := 1.1; omega := 0.8;
     F := 50;
     weight_check_prob := 3.5 * (6 + 1) |}%Q.

Definition default_classes : Classes :=
  {| animal_params := fun sp =>
       match sp with
       | Herbivore => herbivore_defaults
       | Carnivore => carnivore_defaults
       end;
     DeltaPhiMax := 10;
     f_max := default_f_max |}.

(** ** Animals and the object store *)

(** An animal object.  The memoised [_fitness] is left out: fitness is
    recomputed from age and weight at every read. *)
Record Animal := mkAnimal {
  species : Species;
  age : Z;
  weight : Q;
  is_dead : bool
}.

Global Instance Animal_inhabited : Inhabited Animal :=
  populate {| species := Herbivore; age := 0; weight := 0; is_dead := false |}.

Global Instance Cell_inhabited : Inhabited Cell :=
  populate (new_cell default_f_max Water).

(** The random source: an arbitrary sequence of generator outputs and a
    cursor.  [bits] feeds [random.random], [random.choice] and
    [random.shuffle]; [normals] holds standard normal samples. *)
Record Random := mkRandom {
  bits : nat -> N;
  normals : nat -> Q;
  cursor : nat
}.

Definition advance (r : Random) : Random :=
  {| bits := bits r; normals := normals r; cursor := S (cursor r) |}.

(** What the run leaves behind for an observer, and nothing reads back:
    each relocation of an animal by [Island.migrate]. *)
Inductive event :=
  | Moved (animal : nat) (from to : Coord).

Record State := mkState {
  objs : gmap nat Animal;
  next_ref : nat;
  rand : Random;
  log : list event
}.

Definition set_objs (s : State) (o : gmap nat Animal) : State :=
  {| objs := o; next_ref := next_ref s; rand := rand s; log := log s |}.

Definition set_rand (s : State) (r : Random) : State :=
  {| objs := objs s; next_ref := next_ref s; rand := r; log := log s |}.

Definition record (e : event) (s : State) : State :=
  {| objs := objs s; next_ref := next_ref s; rand := rand s; log := log s ++ [e] |}.

(** Object creation: the new object gets a reference never used before. *)
Definition alloc (a : Animal) (s : State) : nat * State :=
  (next_ref s,
   {| objs := <[next_ref s := a]> (objs s); next_ref := S (next_ref s);
      rand := rand s; log := log s |}).

Definition update (r : nat) (f : Animal -> Animal) (s : State) : State :=
  set_objs s (<[r := f (objs s !!! r)]> (objs s)).

(** [random.random()]: a 53-bit integer scaled into [0, 1). *)
Definition random (s : State) : Q * State :=
  (Qmake (Z.of_N (bits (rand s) (cursor (rand s)) mod 2 ^ 53)) (2 ^ 53),
   set_rand s (advance (rand s))).

(** An index below [n], as [random.choice] and [random.shuffle] draw it. *)
Definition randbelow (n : nat) (s : State) : nat * State :=
  (N.to_nat (bits (rand s) (cursor (rand s)) mod N.of_nat n),
   set_rand s (advance (rand s))).

(** A normal sample with mean [m] and standard deviation [sd]. *)
Definition gauss (m sd : Q) (s : State) : Q * State :=
  ((m + sd * normals (rand s) (cursor (rand s)))%Q, set_rand s (advance (rand s))).

Definition Qlt_bool (a b : Q) : bool := negb (Qle_bool b a).

(** Python's [min(a, b)]: [b] if [b < a], else [a]. *)
Definition py_min (a b : Q) : Q := if Qlt_bool b a then b else a.

Section Engine.

(** [math.exp], and the class attributes in force. *)
Context (exp : Q -> Q) (P : Classes).

Definition params_of (a : Animal) : AnimalParams := animal_params P (species a).

(** Modelled from the spec: [Animal.fitness] (animals/animal.py is not part
    of the sources).  Zero for a weight of at most zero, else the product of
    the two sigmoids of age and weight. *)
Definition fitness (a : Animal) : Q :=
  let p := params_of a in
  if Qle_bool (weight a) 0 then 0
  else ((1 / (1 + exp (phi_age p * (inject_Z (age a) - a_half p))))
        * (1 / (1 + exp (- phi_weight p * (weight a - w_half p)))))%Q.

(** Modelled from the spec: [Animal.feeding].  The animal consumes the
    smaller of what is available and its appetite [F], gains [beta] times
    that, and the amount consumed is returned. *)
Definition feeding (r : nat) (available : Q) (s : State) : Q * State :=
  let a := objs s !!! r in
  let eaten := py_min available (F (params_of a)) in
  (eaten,
   update r (fun a => {| species := species a; age := age a;
                         weight := (weight a + beta (params_of a) * eaten)%Q;
                         is_dead := is_dead a |}) s).

(** Modelled from the spec: [Animal.aging]. *)
Definition Animal_aging (r : nat) (s : State) : State :=
  update r (fun a => {| species := species a; age := (age a + 1)%Z;
                        weight := weight a; is_dead := is_dead a |}) s.

(** Modelled from the spec: [Animal.lose_weight]. *)
Definition Animal_lose_weight (r : nat) (s : State) : State :=
  update r (fun a => {| species := species a; age := age a;
                        weight := (weight a - eta (params_of a) * weight a)%Q;
                        is_dead := is_dead a |}) s.

(** Modelled from the spec: [Animal.death].  Certain at weight zero or
    below; otherwise one uniform draw against [omega * (1 - fitness)]. *)
Definition Animal_death (r : nat) (s : State) : bool * State :=
  let a := objs s !!! r in
  if Qle_bool (weight a) 0 then (true, s)
  else
    let prob := (omega (params_of a) * (1 - fitness a))%Q in
    let '(u, s') := random s in
    (Qlt_bool u prob, s').

(** Modelled from the spec: [Animal.migrate].  One uniform draw against
    [mu * fitness]. *)
Definition Animal_migrate (r : nat) (s : State) : bool * State :=
  let a := objs s !!! r in
  let prob := (mu (params_of a) * fitness a)%Q in
  let '(u, s') := random s in
  (Qlt_bool u prob, s').

(** Modelled from the spec: the weight of an animal constructed without
    one, a normal sample around [w_birth], raised to zero when negative. *)
Definition draw_weight (p : AnimalParams) (s : State) : Q * State :=
  let '(w, s') := gauss (w_birth p) (sigma_birth p) s in
  (if Qlt_bool w 0 then 0%Q else w, s').

(** Modelled from the spec: [Animal.give_birth].  Nothing for a population
    of at most one; the probability [min(1, gamma * fitness * (n - 1))] is
    forced to zero below the weight threshold, for which the classes keep
    the attribute [weight_check_prob]; after a successful draw the
    newborn's weight is drawn, and the birth is dropped, the mother keeping
    her weight, if [xi] times that weight would leave her weight negative. *)
Definition Animal_give_birth (r : nat) (population_size : nat) (s : State)
  : option nat * State :=
  if (population_size <=? 1)%nat then (None, s)
  else
    let a := objs s !!! r in
    let p := params_of a in
    let prob :=
      if Qlt_bool (weight a) (weight_check_prob p) then 0%Q
      else py_min 1 (gamma p * fitness a * (inject_Z (Z.of_nat population_size) - 1))%Q in
    let '(u, s1) := random s in
    if Qlt_bool u prob then
      let '(w, s2) := draw_weight p s1 in
      let cost := (xi p * w)%Q in
      if Qlt_bool (weight a - cost) 0 then (None, s2)
      else
        let '(child, s3) :=
          alloc {| species := species a; age := 0; weight := w; is_dead := false |} s2 in
        (Some child,
         update r (fun a => {| species := species a; age := age a;
                               weight := (weight a - cost)%Q;
                               is_dead := is_dead a |}) s3)
    else (None, s1).

(** ** Cells: [Baseland] and its subclasses *)

Definition set_fodder (c : Cell) (f : Q) : Cell :=
  {| landtype := landtype c; is_habitable := is_habitable c; fodder := f;
     herbivores := herbivores c; carnivores := carnivores c |}.

Definition set_herbivores (c : Cell) (l : list nat) : Cell :=
  {| landtype := landtype c; is_habitable := is_habitable c; fodder := fodder c;
     herbivores := l; carnivores := carnivores c |}.

Definition set_carnivores (c : Cell) (l : list nat) : Cell :=
  {| landtype := landtype c; is_habitable := is_habitable c; fodder := fodder c;
     herbivores := herbivores c; carnivores := l |}.

(** [Baseland.num_animals]. *)
Definition Cell_num_animals (c : Cell) : nat :=
  length (herbivores c) + length (carnivores c).

(** [chain(self.herbivores, self.carnivores)]. *)
Definition chain (c : Cell) : list nat := herbivores c ++ carnivores c.

(** [sorted(l, key=..., reverse=...)]: a stable sort on keys computed once
    up front.  Each item is inserted behind the items that do not come
    strictly after it, so items with equal keys keep their order. *)
Fixpoint insert_by (before : Q -> Q -> bool) (x : Q * nat) (l : list (Q * nat))
  : list (Q * nat) :=
  match l with
  | [] => [x]
  | y :: l' => if before x.1 y.1 then x :: y :: l' else y :: insert_by before x l'
  end.

Definition sorted (key : nat -> Q) (reverse : bool) (l : list nat) : list nat :=
  let before := if reverse then (fun a b => Qlt_bool b a) else Qlt_bool in
  (foldl (fun acc r => insert_by before (key r, r) acc) [] l).*2.

(** The loop of [Baseland.feed_herbivores]. *)
Fixpoint feed_loop (animals : list nat) (fodder : Q) (s : State) : Q * State :=
  match animals with
  | [] => (fodder, s)
  | animal :: rest =>
      if Qlt_bool 0 fodder then
        let '(eaten, s') := feeding animal fodder s in
        feed_loop rest (fodder - eaten)%Q s'
      else (fodder, s)
  end.

(** [Baseland.feed_herbivores]. *)
Definition Baseland_feed_herbivores (c : Cell) (s : State) : Cell * State :=
  let order := sorted (fun h => fitness (objs s !!! h)) true (herbivores c) in
  let '(fodder', s') := feed_loop order (fodder c) s in
  (set_fodder c fodder', s').

(** [x[i], x[j] = x[j], x[i]]. *)
Definition swap (i j : nat) (x : list nat) : list nat :=
  <[j := x !!! i]> (<[i := x !!! j]> x).

(** [random.shuffle(x)]: for [i] from [len(x) - 1] down to [1], swap [x[i]]
    with [x[j]] for a random [j <= i]. *)
Fixpoint shuffle_from (i : nat) (x : list nat) (s : State) : list nat * State :=
  match i with
  | O => (x, s)
  | S i' =>
      let '(j, s') := randbelow (S i) s in
      shuffle_from i' (swap i j x) s'
  end.

Definition shuffle (x : list nat) (s : State) : list nat * State :=
  shuffle_from (length x - 1) x s.

Definition set_dead (r : nat) (s : State) : State :=
  update r (fun a => {| species := species a; age := age a; weight := weight a;
                        is_dead := true |}) s.

(** The loop of [Carnivore.eat_herbivores] for the carnivore [self], with
    the appetite [carn_appetite] that remains. *)
Fixpoint hunt (self : nat) (herbivores : list nat) (carn_appetite : Q) (s : State)
  : State :=
  match herbivores with
  | [] => s
  | herb :: rest =>
      if Qle_bool carn_appetite 0 then s
      else
        let phi_carn := fitness (objs s !!! self) in
        let phi_herb := fitness (objs s !!! herb) in
        if Qle_bool phi_carn phi_herb then s
        else
          let prob :=
            if Qlt_bool 0 (phi_carn - phi_herb)
               && Qlt_bool (phi_carn - phi_herb) (DeltaPhiMax P)
            then ((phi_carn - phi_herb) / DeltaPhiMax P)%Q
            else 1%Q in
          let '(kill, s1) :=
            if Qeq_bool prob 1 then (true, s)
            else let '(u, s') := random s in (Qlt_bool u prob, s') in
          if kill then
            let '(eaten, s2) :=
              feeding self (py_min carn_appetite (weight (objs s1 !!! herb))) s1 in
            hunt self rest (carn_appetite - eaten)%Q (set_dead herb s2)
          else hunt self rest carn_appetite s1
  end.

(** [Carnivore.eat_herbivores]. *)
Definition eat_herbivores (self : nat) (herbivores : list nat) (s : State)
  : list nat * State :=
  let carn_appetite := F (params_of (objs s !!! self)) in
  let s' := hunt self herbivores carn_appetite s in
  (filter (fun herb => is_dead (objs s' !!! herb) = false) herbivores, s').

(** [Baseland.feed_carnivores]. *)
Definition Baseland_feed_carnivores (c : Cell) (s : State) : Cell * State :=
  let '(carns, s1) := shuffle (carnivores c) s in
  let herbs := sorted (fun h => fitness (objs s1 !!! h)) false (herbivores c) in
  let '(herbs', s2) :=
    foldl (fun '(hs, st) carn => eat_herbivores carn hs st) (herbs, s1) carns in
  (set_carnivores (set_herbivores c herbs') carns, s2).

(** [Baseland.feed]. *)
Definition Baseland_feed (c : Cell) (s : State) : Cell * State :=
  let '(c1, s1) := Baseland_feed_herbivores c s in
  Baseland_feed_carnivores c1 s1.

(** The helper [give_birth] of [Baseland.birth]: the comprehension runs
    over [animals], the part still to visit being [it]; [len(animals)] is
    read at every call. *)
Fixpoint give_birth (animals it : list nat) (s : State) : list nat * State :=
  match it with
  | [] => ([], s)
  | animal :: it' =>
      let population_size := length animals in
      let '(child, s1) := Animal_give_birth animal population_size s in
      let '(children, s2) := give_birth animals it' s1 in
      (match child with Some c => c :: children | None => children end, s2)
  end.

(** [Baseland.birth]. *)
Definition Baseland_birth (c : Cell) (s : State) : Cell * State :=
  let '(c1, s1) :=
    if (1 <? length (herbivores c))%nat then
      let '(children, s') := give_birth (herbivores c) (herbivores c) s in
      (set_herbivores c (herbivores c ++ children), s')
    else (c, s) in
  if (1 <? length (carnivores c1))%nat then
    let '(children, s') := give_birth (carnivores c1) (carnivores c1) s1 in
    (set_carnivores c1 (carnivores c1 ++ children), s')
  else (c1, s1).

(** [Baseland.aging] and [Baseland.lose_weight]. *)
Definition Baseland_aging (c : Cell) (s : State) : State :=
  foldl (fun st animal => Animal_aging animal st) s (chain c).

Definition Baseland_lose_weight (c : Cell) (s : State) : State :=
  foldl (fun st animal => Animal_lose_weight animal st) s (chain c).

(** [[a for a in l if test(a)]] for a test that draws random numbers. *)
Fixpoint select (test : nat -> State -> bool * State) (l : list nat) (s : State)
  : list nat * State :=
  match l with
  | [] => ([], s)
  | a :: rest =>
      let '(b, s1) := test a s in
      let '(l', s2) := select test rest s1 in
      (if b then a :: l' else l', s2)
  end.

(** [Baseland.die]. *)
Definition Baseland_die (c : Cell) (s : State) : Cell * State :=
  let survives a st := let '(d, st') := Animal_death a st in (negb d, st') in
  let '(herbs, s1) := select survives (herbivores c) s in
  let '(carns, s2) := select survives (carnivores c) s1 in
  (set_carnivores (set_herbivores c herbs) carns, s2).

(** [Baseland.reset_fodder]. *)
Definition Baseland_reset_fodder (c : Cell) : Cell :=
  set_fodder c (f_max P (landtype c)).

(** [Baseland.get_migrations]. *)
Definition Baseland_get_migrations (c : Cell) (s : State) : list nat * State :=
  select Animal_migrate (chain c) s.

(** [Baseland.place_animal]. *)
Definition Baseland_place_animal (c : Cell) (animal_obj : nat) (s : State) : Cell :=
  match species (objs s !!! animal_obj) with
  | Herbivore => set_herbivores c (herbivores c ++ [animal_obj])
  | Carnivore => set_carnivores c (carnivores c ++ [animal_obj])
  end.

(** [list.remove(x)]: drops the first occurrence, [ValueError] without one.
    Animal objects compare by identity. *)
Fixpoint list_remove (x : nat) (l : list nat) : result (list nat) :=
  match l with
  | [] => Raise (ValueError NotInList)
  | y :: l' =>
      if decide (y = x) then Ok l'
      else l'' ← list_remove x l'; Ok (y :: l'')
  end.

(** [Baseland.remove_animal]. *)
Definition Baseland_remove_animal (c : Cell) (animal_obj : nat) (s : State)
  : result Cell :=
  match species (objs s !!! animal_obj) with
  | Herbivore => l ← list_remove animal_obj (herbivores c); Ok (set_herbivores c l)
  | Carnivore => l ← list_remove animal_obj (carnivores c); Ok (set_carnivores c l)
  end.

(** The dictionaries given to [add_animal]: ['species'], and the optional
    ['age'] and ['weight']. *)
Record animal_dict := mkAnimalDict {
  d_species : string;
  d_age : option Z;
  d_weight : option Q
}.

(** Modelled from the spec: [Animal.__init__] (animals/animal.py is not part
    of the sources).  A negative age or weight is a construction error; a
    weight that is not given is drawn. *)
Definition Animal_init (sp : Species) (age : Z) (weight : option Q) (s : State)
  : result (nat * State) :=
  if (age <? 0)%Z then Raise (ValueError NegativeAge)
  else
    match weight with
    | None =>
        let '(w, s1) := draw_weight (animal_params P sp) s in
        Ok (alloc {| species := sp; age := age; weight := w; is_dead := false |} s1)
    | Some w =>
        if Qlt_bool w 0 then Raise (ValueError NegativeWeight)
        else Ok (alloc {| species := sp; age := age; weight := w; is_dead := false |} s)
    end.

(** [animal_map] of baseland.py. *)
Definition animal_map (name : string) : option Species :=
  if String.eqb name "Herbivore" then Some Herbivore
  else if String.eqb name "Carnivore" then Some Carnivore
  else None.

(** [Baseland.add_animal]. *)
Definition Baseland_add_animal (c : Cell) (animal : animal_dict) (s : State)
  : result (Cell * State) :=
  match animal_map (d_species animal) with
  | None => Raise (ValueError (InvalidAnimalType (d_species animal)))
  | Some sp =>
      '(animal_obj, s1) ← Animal_init sp (default 0%Z (d_age animal)) (d_weight animal) s;
      Ok (Baseland_place_animal c animal_obj s1, s1)
  end.

(** [Water.add_animal]. *)
Definition Water_add_animal (c : Cell) (animal : animal_dict) (s : State)
  : result (Cell * State) :=
  Raise IllegalActionError.

(** [cell.add_animal(animal)]: the method of the cell's class. *)
Definition Cell_add_animal (c : Cell) (animal : animal_dict) (s : State)
  : result (Cell * State) :=
  match landtype c with
  | Water => Water_add_animal c animal s
  | _ => Baseland_add_animal c animal s
  end.

(** ** The island *)

Definition set_island_map (isl : Island) (m : gmap Coord Cell) : Island :=
  {| geography := geography isl; island_map := m; habitable_map := habitable_map isl |}.

(** The cell object that [habitable_map] holds under the key [c]. *)
Definition habitable_cell (m : gmap Coord Cell) (c : Coord) : Cell := m !!! c.

(** [Island.num_animals]. *)
Definition Island_num_animals (isl : Island) : nat :=
  foldl (fun pop c => pop + Cell_num_animals (habitable_cell (island_map isl) c))
        0 (habitable_map isl).

(** One entry of the list given to [place_animals]: ['loc'] and ['pop']. *)
Record placement := mkPlacement {
  loc : Coord;
  pop : list animal_dict
}.

(** The inner loop of [Island.place_animals].  An exception leaves the
    island as the calls before it made it. *)
Fixpoint place_at (loc : Coord) (animals : list animal_dict) (isl : Island) (s : State)
  : result unit * (Island * State) :=
  match animals with
  | [] => (Ok tt, (isl, s))
  | animal :: rest =>
      match island_map isl !! loc with
      | None => (Raise KeyError, (isl, s))
      | Some c =>
          match Cell_add_animal c animal s with
          | Raise e => (Raise e, (isl, s))
          | Ok (c', s') =>
              place_at loc rest (set_island_map isl (<[loc := c']> (island_map isl))) s'
          end
      end
  end.

(** [Island.place_animals]. *)
Fixpoint Island_place_animals (population : list placement) (isl : Island) (s : State)
  : result unit * (Island * State) :=
  match population with
  | [] => (Ok tt, (isl, s))
  | p :: rest =>
      match place_at (loc p) (pop p) isl s with
      | (Ok _, (isl', s')) => Island_place_animals rest isl' s'
      | (Raise e, st) => (Raise e, st)
      end
  end.

(** An entry of the holding list of [Island.migrate]. *)
Record pending := mkPending {
  p_from : Coord;
  p_to : Coord;
  p_animal : nat
}.

(** [island_map[to].place_animal(animal)] followed by
    [island_map[from].remove_animal(animal)]. *)
Definition relocate (animal : nat) (from to : Coord) (m : gmap Coord Cell) (s : State)
  : result (gmap Coord Cell * State) :=
  match m !! to with
  | None => Raise KeyError
  | Some dest =>
      let m1 := <[to := Baseland_place_animal dest animal s]> m in
      match m1 !! from with
      | None => Raise KeyError
      | Some origin =>
          origin' ← Baseland_remove_animal origin animal s;
          Ok (<[from := origin']> m1, record (Moved animal from to) s)
      end
  end.

(** The inner loop of [Island.migrate], for the animals that leave the cell
    at [coord]. *)
Fixpoint migrate_from (coord : Coord) (animals : list nat)
    (m : gmap Coord Cell) (migration : list pending) (s : State)
  : result (gmap Coord Cell * list pending * State) :=
  match animals with
  | [] => Ok (m, migration, s)
  | animal :: rest =>
      let '(k, s1) := randbelow (length move_direction_map) s in
      let direction := move_direction_map !!! k in
      let new_coord := coord_add coord direction in
      match m !! new_coord with
      | None => Raise KeyError
      | Some dest =>
          if is_habitable dest then
            if bool_decide (direction = (-1, 0)%Z ∨ direction = (0, -1)%Z) then
              '(m', s2) ← relocate animal coord new_coord m s1;
              migrate_from coord rest m' migration s2
            else
              migrate_from coord rest m
                (migration ++ [{| p_from := coord; p_to := new_coord; p_animal := animal |}])
                s1
          else migrate_from coord rest m migration s1
      end
  end.

(** The outer loop of [Island.migrate], over the keys of [habitable_map]. *)
Fixpoint migrate_cells (coords : list Coord)
    (m : gmap Coord Cell) (migration : list pending) (s : State)
  : result (gmap Coord Cell * list pending * State) :=
  match coords with
  | [] => Ok (m, migration, s)
  | coord :: rest =>
      let '(animals, s1) := Baseland_get_migrations (habitable_cell m coord) s in
      '(m', migration', s2) ← migrate_from coord animals m migration s1;
      migrate_cells rest m' migration' s2
  end.

(** The last loop of [Island.migrate]: the held moves are carried out. *)
Fixpoint migrate_held (migration : list pending) (m : gmap Coord Cell) (s : State)
  : result (gmap Coord Cell * State) :=
  match migration with
  | [] => Ok (m, s)
  | x :: rest =>
      '(m', s') ← relocate (p_animal x) (p_from x) (p_to x) m s;
      migrate_held rest m' s'
  end.

(** [Island.migrate]. *)
Definition Island_migrate (isl : Island) (s : State) : result (Island * State) :=
  '(m, migration, s1) ← migrate_cells (habitable_map isl) (island_map isl) [] s;
  '(m', s2) ← migrate_held migration m s1;
  Ok (set_island_map isl m', s2).

(** The two loops of [Island.step] over [habitable_map.values()]. *)
Definition grow_cells (coords : list Coord) (m : gmap Coord Cell) (s : State)
  : gmap Coord Cell * State :=
  foldl (fun '(m, s) c =>
           let cell := Baseland_reset_fodder (habitable_cell m c) in
           let '(cell1, s1) := Baseland_feed cell s in
           let '(cell2, s2) := Baseland_birth cell1 s1 in
           (<[c := cell2]> m, s2))
        (m, s) coords.

Definition wither_cells (coords : list Coord) (m : gmap Coord Cell) (s : State)
  : gmap Coord Cell * State :=
  foldl (fun '(m, s) c =>
           let cell := habitable_cell m c in
           let s1 := Baseland_aging cell s in
           let s2 := Baseland_lose_weight cell s1 in
           let '(cell', s3) := Baseland_die cell s2 in
           (<[c := cell']> m, s3))
        (m, s) coords.

(** [Island.step]. *)
Definition Island_step (isl : Island) (s : State) : result (Island * State) :=
  let '(m1, s1) := grow_cells (habitable_map isl) (island_map isl) s in
  '(isl2, s2) ← Island_migrate (set_island_map isl m1) s1;
  let '(m3, s3) := wither_cells (habitable_map isl2) (island_map isl2) s2 in
  Ok (set_island_map isl2 m3, s3).

(** [n] calls of [Island.migrate] in a row. *)
Fixpoint migrate_times (n : nat) (isl : Island) (s : State) : result (Island * State) :=
  match n with
  | O => Ok (isl, s)
  | S n' => '(isl', s') ← Island_migrate isl s; migrate_times n' isl' s'
  end.

End Engine.

(** ** Running the embedding

    A rational stand-in for [math.exp], exact at [0]: the Taylor polynomial
    of degree 12.  It is used to run the embedding on concrete inputs. *)
Fixpoint exp_terms (n : nat) (k : Z) (term x : Q) : Q :=
  match n with
  | O => 0
  | S n' => (term + exp_terms n' (k + 1) (term * x / inject_Z k) x)%Q
  end.

Definition exp_series (x : Q) : Q := Qred (exp_terms 13 1 1 x).

(** A random source that replays [draws] for [bits] and [samples] for
    [normals], and yields zero afterwards. *)
Definition replay (draws : list N) (samples : list Q) : Random :=
  {| bits := fun i => nth i draws 0%N;
     normals := fun i => nth i samples 0%Q;
     cursor := 0 |}.

Definition initial_state (r : Random) : State :=
  {| objs := ∅; next_ref := 0; rand := r; log := [] |}.

(** ** Predation, in the words of the specification *)



(** The herbivores of a list that are not flagged dead. *)
Definition alive (s : State) (herbivores : list nat) : list nat :=
  filter (fun herb => is_dead (objs s !!! herb) = false) herbivores.




(** ** Births, in the words of the specification *)

(** Every agent of [agents], in their order, attempts [give_birth(n)] with
    one and the same population size [n]; the newborns are collected in
    the order of the attempts, and no attempt is made for any of them. *)
Fixpoint attempts (exp : Q -> Q) (P : Classes) (n : nat) (agents : list nat) (s : State)
  : list nat * State :=
  match agents with
  | [] => ([], s)
  | agent :: rest =>
      let '(newborn, s1) := Animal_give_birth exp P agent n s in
      let '(newborns, s2) := attempts exp P n rest s1 in
      (match newborn with Some child => child :: newborns | None => newborns end, s2)
  end.

Arguments random : simpl never.
Arguments randbelow : simpl never.
Arguments gauss : simpl never.
Arguments update : simpl never.
Arguments feeding : simpl never.
Arguments set_dead : simpl never.
Arguments alloc : simpl never.
Arguments record : simpl never.

(** A carnivore (reference 0) facing two herbivores, the first (reference
    1) of weight zero and the second (reference 2) fitter than the
    carnivore; every age is [a_half], so that the exponentials of the age
    sigmoids are taken at 0.  The only random draw yields 0. *)
Definition hunting_ground : State :=
  {| objs := <[0 := {| species := Carnivore; age := 40; weight := 4; is_dead := false |}]>
             (<[1 := {| species := Herbivore; age := 40; weight := 0; is_dead := false |}]>
             (<[2 := {| species := Herbivore; age := 40; weight := 20; is_dead := false |}]> ∅));
     next_ref := 3;
     rand := replay [0%N] [];
     log := [] |}.

(** ** Class parameters as Python sees them

    [set_params] works on the attributes of a class by name.  A class is
    its [default_params] dictionary and its attributes; a dictionary is the
    list of its items in insertion order. *)

Inductive pyval :=
  | PyInt (z : Z)
  | PyFloat (q : Q)
  | PyBool (b : bool)
  | PyStr (s : string)
  | PyNone.

Record pyclass := mkPyClass {
  default_params : list (string * pyval);
  attributes : gmap string pyval
}.

(** [type(value) == float or type(value) == int]. *)
Definition is_float_or_int (value : pyval) : bool :=
  match value with
  | PyFloat _ | PyInt _ => true
  | _ => false
  end.

(** The first loop of [set_params]: the checks. *)
Fixpoint check_params (cls : pyclass) (params : list (string * pyval)) : result unit :=
  match params with
  | [] => Ok tt
  | (key, value) :: rest =>
      if negb (bool_decide (key ∈ (default_params cls).*1))
      then Raise (ValueError (InvalidParameter key))
      else if negb (is_float_or_int value)
           then Raise (ValueError (NotFloatOrInt key))
           else check_params cls rest
  end.

(** [setattr(cls, key, value)]. *)
Definition setattr (cls : pyclass) (key : string) (value : pyval) : pyclass :=
  {| default_params := default_params cls;
     attributes := <[key := value]> (attributes cls) |}.

(** [Baseland.set_params]: the class after the call, and how the call
    ended. *)
Definition set_params (cls : pyclass) (params : list (string * pyval))
  : result unit * pyclass :=
  match check_params cls params with
  | Raise e => (Raise e, cls)
  | Ok _ => (Ok tt, foldl (fun cls kv => setattr cls kv.1 kv.2) cls params)
  end.

(** The class [Lowland] as it is defined. *)
Definition Lowland_class : pyclass :=
  {| default_params := [("f_max"%string, PyInt 800)];
     attributes := {[ "f_max"%string := PyInt 800 ]} |}.

(** An item of a parameter dictionary that [set_params] refuses. *)
Definition refused (cls : pyclass) (kv : string * pyval) : Prop :=
  kv.1 ∉ (default_params cls).*1 ∨ is_float_or_int kv.2 = false.

(** ** Island states and what [migrate] leaves for an observer *)

(** Well-formed cells: [hab], the keys of [habitable_map], are distinct and
    are the coordinates whose cell is habitable; every animal object is held
    once, by one cell, in the list of its species; and the four neighbours
    of a habitable cell are keys of the map. *)
Record cells_wf (hab : list Coord) (m : gmap Coord Cell) (o : gmap nat Animal)
  : Prop := {
  wf_keys : NoDup hab;
  wf_habitable :
    ∀ c, c ∈ hab ↔ ∃ cell, m !! c = Some cell ∧ is_habitable cell = true;
  wf_once : ∀ c, c ∈ hab → NoDup (chain (habitable_cell m c));
  wf_apart :
    ∀ c c' a, c ∈ hab → c' ∈ hab →
              a ∈ chain (habitable_cell m c) → a ∈ chain (habitable_cell m c') → c = c';
  wf_herbivores :
    ∀ c a, c ∈ hab → a ∈ herbivores (habitable_cell m c) → species (o !!! a) = Herbivore;
  wf_carnivores :
    ∀ c a, c ∈ hab → a ∈ carnivores (habitable_cell m c) → species (o !!! a) = Carnivore;
  wf_neighbours :
    ∀ c d, c ∈ hab → d ∈ move_direction_map → is_Some (m !! coord_add c d)
}.

Definition island_wf (isl : Island) (o : gmap nat Animal) : Prop :=
  cells_wf (habitable_map isl) (island_map isl) o.

(** Row-major order of coordinates: rows first, columns within a row. *)
Definition row_major_lt (c c' : Coord) : Prop :=
  (c.1 < c'.1 ∨ (c.1 = c'.1 ∧ c.2 < c'.2))%Z.

Definition row_major (coords : list Coord) : Prop := StronglySorted row_major_lt coords.

(** The animals relocated by a run of events, one entry per relocation. *)
Definition movers (events : list event) : list nat :=
  omap (fun e => match e with Moved a _ _ => Some a end) events.

(** A relocation from a habitable cell into a habitable cell next to it. *)
Definition legal_move (hab : list Coord) (m : gmap Coord Cell) (e : event) : Prop :=
  match e with
  | Moved a from to =>
      from ∈ hab ∧ (∃ cell, m !! to = Some cell ∧ is_habitable cell = true) ∧
      ∃ d, d ∈ move_direction_map ∧ to = coord_add from d
  end.

(** The sum that [Island.num_animals] computes, over the keys [coords]. *)
Definition head_count (m : gmap Coord Cell) (coords : list Coord) : nat :=
  sum_list ((fun c => Cell_num_animals (habitable_cell m c)) <$> coords).

(** The entries of the holding list are moves that can be carried out:
    between two different habitable cells that are neighbours, of an animal
    the origin holds. *)
Definition held_ok (hab : list Coord) (m : gmap Coord Cell) (q : list pending) : Prop :=
  ∀ p, p ∈ q →
       p_from p ∈ hab ∧ p_to p ∈ hab ∧ p_from p ≠ p_to p ∧
       p_animal p ∈ chain (habitable_cell m (p_from p)) ∧
       ∃ d, d ∈ move_direction_map ∧ p_to p = coord_add (p_from p) d.

(** A relocation out of the cell at [c], up or to the left, into a
    habitable cell that holds the animal in [m]. *)
Definition early_move (hab : list Coord) (m : gmap Coord Cell) (c : Coord) (e : event)
  : Prop :=
  ∃ a d, e = Moved a c (coord_add c d) ∧ (d = (-1, 0)%Z ∨ d = (0, -1)%Z) ∧
         coord_add c d ∈ hab ∧ a ∈ chain (habitable_cell m (coord_add c d)).

(** What row-major order gives [migrate]: a habitable cell above or to the
    left of a cell comes earlier in the iteration. *)
Definition up_left_first (hab : list Coord) : Prop :=
  ∀ seen c todo d,
    hab = seen ++ c :: todo → d = (-1, 0)%Z ∨ d = (0, -1)%Z →
    coord_add c d ∈ hab → coord_add c d ∈ seen.

(** A relocation between two habitable cells that are neighbours. *)
Definition hab_move (hab : list Coord) (e : event) : Prop :=
  ∃ a c d, e = Moved a c (coord_add c d) ∧ c ∈ hab ∧ coord_add c d ∈ hab ∧
           d ∈ move_direction_map.

(** A decision procedure for [cells_wf]. *)
Definition cells_wf_check (hab : list Coord) (m : gmap Coord Cell) (o : gmap nat Animal)
  : bool :=
  bool_decide (NoDup hab)
  && forallb (fun c => bool_decide (is_habitable <$> m !! c = Some true)) hab
  && bool_decide (map_Forall (fun c cell => is_habitable cell = true → c ∈ hab) m)
  && bool_decide (NoDup (hab ≫= fun c => chain (habitable_cell m c)))
  && forallb (fun c =>
                forallb (fun a => bool_decide (species (o !!! a) = Herbivore))
                        (herbivores (habitable_cell m c))
                && forallb (fun a => bool_decide (species (o !!! a) = Carnivore))
                           (carnivores (habitable_cell m c))) hab
  && forallb (fun c =>
                forallb (fun d => bool_decide (is_Some (m !! coord_add c d)))
                        move_direction_map) hab.

(** Two Lowland cells side by side, one herbivore (reference 0) in the
    right one, and the random draws that make it migrate whenever it is
    asked, first to the left and then to the right. *)
Definition strait : Island * State :=
  match Island_init default_f_max "WWWW
WLLW
WWWW" with
  | Ok isl =>
      (Island_place_animals default_classes
         [{| loc := (2, 3)%Z;
             pop := [{| d_species := "Herbivore"; d_age := Some 40%Z;
                        d_weight := Some 10%Q |}] |}]
         isl (initial_state (replay [0; 2; 0; 3]%N []))).2
  | Raise _ => (mkIsland "" ∅ [], initial_state (replay [] []))
  end.

(** The island of [strait] with its habitable cells visited from right to
    left: the island that [StateLoader.load_island] rebuilds from a saved
    state in which the entry of the cell [(2, 3)] comes before that of
    [(2, 2)], since [habitable_map] follows the order of the entries. *)
Definition strait_reversed : Island :=
  {| geography := geography strait.1;
     island_map := island_map strait.1;
     habitable_map := reverse (habitable_map strait.1) |}.

(** The log a call leaves when it returns. *)
Definition log_of (r : result (Island * State)) : option (list event) :=
  match r with
  | Ok (_, s') => Some (log s')
  | Raise _ => None
  end.

(** [isl'] is [isl] with other animals: the same habitable keys, the same
    keys of [island_map], the same habitability of every cell. *)
Definition same_grid (isl isl' : Island) : Prop :=
  habitable_map isl' = habitable_map isl ∧
  ∀ c, is_habitable <$> island_map isl' !! c = is_habitable <$> island_map isl !! c.

(** The keys [migrate] looks up are keys of the map. *)
Definition grid_ok (hab : list Coord) (m : gmap Coord Cell) : Prop :=
  (∀ c, c ∈ hab → is_Some (m !! c)) ∧
  (∀ c d, c ∈ hab → d ∈ move_direction_map → is_Some (m !! coord_add c d)).

Definition keeps_keys (m m' : gmap Coord Cell) : Prop :=
  ∀ c, is_Some (m' !! c) ↔ is_Some (m !! c).

(** ** The single-cell scenario *)

(** The animals [l], all different objects, are all in the state [A]. *)
Definition herd (s : State) (l : list nat) (A : Animal) : Prop :=
  NoDup l ∧ ∀ h, h ∈ l → objs s !!! h = A.

(** An animal after it has eaten its full appetite. *)
Definition fed (P : Classes) (A : Animal) : Animal :=
  {| species := species A; age := age A;
     weight := (weight A + beta (params_of P A) * F (params_of P A))%Q;
     is_dead := is_dead A |}.

(** One Lowland cell within a border of Water. *)
Definition single_lowland : Island :=
  match Island_init default_f_max "WWW
WLW
WWW" with
  | Ok isl => isl
  | Raise _ => mkIsland "" ∅ []
  end.

Definition herbivore_5_20 : animal_dict :=
  {| d_species := "Herbivore"; d_age := Some 5%Z; d_weight := Some 20%Q |}.

(** [place_animals] of 50 herbivores of age 5 and weight 20 on the Lowland
    cell of a new [single_lowland] island, with the random source [r]. *)
Definition populated (r : Random) : result unit * (Island * State) :=
  Island_place_animals default_classes
    [{| loc := (2, 2)%Z; pop := replicate 50 herbivore_5_20 |}]
    single_lowland (initial_state r).

Global Instance Q_eq_dec : EqDecision Q.
Proof. solve_decision. Defined.

Global Instance Animal_eq_dec : EqDecision Animal.
Proof. solve_decision. Defined.

(** Two herbivores (references 0 and 1) of age [a_half] and weight 40, heavy
    enough to give birth, and the cell that holds them. *)
Definition maternity : State :=
  {| objs := <[0 := {| species := Herbivore; age := 40; weight := 40; is_dead := false |}]>
             (<[1 := {| species := Herbivore; age := 40; weight := 40; is_dead := false |}]> ∅);
     next_ref := 2;
     rand := replay [] [];
     log := [] |}.

Definition nursery : Cell :=
  {| landtype := Lowland; is_habitable := true; fodder := 800;
     herbivores := [0; 1]; carnivores := [] |}.

(** The cells named by the entries of the holding list are keys of the map. *)
Definition held_on_map (m : gmap Coord Cell) (q : list pending) : Prop :=
  ∀ p, p ∈ q → is_Some (m !! p_from p) ∧ is_Some (m !! p_to p).


(** ** Further operations of the island, its cells and the simulation *)

(** Python's [item > best] on coordinates: tuples compare by their first
    components, and by the second ones when those are equal. *)
Definition tuple_gt (item best : Coord) : bool :=
  (best.1 <? item.1)%Z || ((best.1 =? item.1)%Z && (best.2 <? item.2)%Z).

(** [max(l)]: the scan keeps the first of the largest items.  [None] stands
    for the [ValueError] that [max] raises on an empty list. *)
Fixpoint max_from (best : Coord) (l : list Coord) : Coord :=
  match l with
  | [] => best
  | item :: l' => max_from (if tuple_gt item best then item else best) l'
  end.

Definition py_max (l : list Coord) : option Coord :=
  match l with
  | [] => None
  | item :: l' => Some (max_from item l')
  end.

(** [Island.shape]: [max(list(self.island_map.keys()))].  The keys of a
    dictionary are distinct, so their maximum does not depend on the order
    in which they are listed; here they come in the order of the finite
    map. *)
Definition Island_shape (isl : Island) : option Coord :=
  py_max (map_to_list (island_map isl)).*1.

(** [Baseland.num_herbivores] and [Baseland.num_carnivores]. *)
Definition Cell_num_herbivores (c : Cell) : nat := length (herbivores c).

Definition Cell_num_carnivores (c : Cell) : nat := length (carnivores c).

(** [Island.num_animals_per_species].  The accumulators have the names the
    source gives them: [num_c] adds up the herbivores and is returned under
    ["Herbivore"], [num_h] adds up the carnivores. *)
Definition Island_num_animals_per_species (isl : Island) : gmap string nat :=
  let '(num_c, num_h) :=
    foldl (fun '(num_c, num_h) c =>
             let cell := habitable_cell (island_map isl) c in
             (num_c + Cell_num_herbivores cell, num_h + Cell_num_carnivores cell))
          (0, 0) (habitable_map isl) in
  <["Herbivore"%string := num_c]> {[ "Carnivore"%string := num_h ]}.

(** [d[key]] on a dictionary of counts. *)
Definition getitem (d : gmap string nat) (key : string) : result nat :=
  match d !! key with
  | Some v => Ok v
  | None => Raise KeyError
  end.

(** [Baseland.reset_params]. *)
Definition reset_params (cls : pyclass) : pyclass :=
  foldl (fun cls kv => setattr cls kv.1 kv.2) cls (default_params cls).

(** One entry of [BioSim.history]. *)
Record history_entry := mkHistoryEntry {
  h_year : nat;
  h_population : nat;
  h_herbivores : nat;
  h_carnivores : nat
}.

(** The part of a [BioSim] object that [simulate] reads and writes.
    [vis_years] and [img_years] are [0] where Python has [0] or [None];
    [img_target] says that [img_base], [img_dir] and [img_fmt] are all set;
    [has_plotter] says that [self.plotter] is a [Plotter] and not [None].
    What the plotter draws and what is written to files is outside the
    embedding: a call on an existing plotter changes nothing that is kept
    here. *)
Record BioSim := mkBioSim {
  island : Island;
  num_years_simulated : nat;
  history : list history_entry;
  vis_years : nat;
  img_years : nat;
  img_target : bool;
  has_plotter : bool;
  figure_number : nat
}.

(** What a call of the simulation ends with: the exceptions of the engine,
    or the [AttributeError] of a method call on a plotter that is [None]. *)
Inductive sim_exn :=
  | EngineError (e : exn)
  | AttributeError.

Inductive sim_result (A : Type) :=
  | Returned (a : A)
  | Raised (e : sim_exn).
Arguments Returned {A} a.
Arguments Raised {A} e.

(** [BioSim.update_plot]: the figures are updated in the years that
    [vis_years] divides. *)
Definition update_plot (sim : BioSim) : sim_result BioSim :=
  if negb (vis_years sim =? 0) && (num_years_simulated sim mod vis_years sim =? 0)
  then if has_plotter sim then Returned sim else Raised AttributeError
  else Returned sim.

(** [BioSim.save_plot]: a figure is saved, and the figure number goes up,
    in the years that [img_years] divides. *)
Definition save_plot (sim : BioSim) : sim_result BioSim :=
  if negb (img_years sim =? 0) && img_target sim
     && (num_years_simulated sim mod img_years sim =? 0)
  then
    if has_plotter sim
    then Returned {| island := island sim; num_years_simulated := num_years_simulated sim;
                     history := history sim; vis_years := vis_years sim;
                     img_years := img_years sim; img_target := img_target sim;
                     has_plotter := has_plotter sim;
                     figure_number := figure_number sim + 1 |}
    else Raised AttributeError
  else Returned sim.

Section Simulation.

Context (exp : Q -> Q) (P : Classes).

(** [Baseland.step]: a year of one cell on its own. *)
Definition Baseland_step (c : Cell) (s : State) : Cell * State :=
  let c0 := Baseland_reset_fodder P c in
  let '(c1, s1) := Baseland_feed exp P c0 s in
  let '(c2, s2) := Baseland_birth exp P c1 s1 in
  let s3 := Baseland_aging c2 s2 in
  let s4 := Baseland_lose_weight P c2 s3 in
  Baseland_die exp P c2 s4.

(** The body of the first loop of [Island.step], and of the second. *)
Definition grow_cell (c : Cell) (s : State) : Cell * State :=
  let '(c1, s1) := Baseland_feed exp P (Baseland_reset_fodder P c) s in
  Baseland_birth exp P c1 s1.

Definition wither_cell (c : Cell) (s : State) : Cell * State :=
  let s1 := Baseland_aging c s in
  let s2 := Baseland_lose_weight P c s1 in
  Baseland_die exp P c s2.

(** [BioSim.simulate]: every year the counts are appended to the history,
    the figures are updated and saved if they are due, and the island
    steps. *)
Fixpoint simulate (num_years : nat) (sim : BioSim) (s : State)
  : sim_result (BioSim * State) :=
  match num_years with
  | O => Returned (sim, s)
  | S num_years' =>
      let animal_population := Island_num_animals_per_species (island sim) in
      match getitem animal_population "Herbivore",
            getitem animal_population "Carnivore" with
      | Raise e, _ | _, Raise e => Raised (EngineError e)
      | Ok herbivores, Ok carnivores =>
          let sim1 :=
            {| island := island sim; num_years_simulated := num_years_simulated sim;
               history := history sim ++
                          [{| h_year := num_years_simulated sim;
                              h_population := Island_num_animals (island sim);
                              h_herbivores := herbivores;
                              h_carnivores := carnivores |}];
               vis_years := vis_years sim; img_years := img_years sim;
               img_target := img_target sim; has_plotter := has_plotter sim;
               figure_number := figure_number sim |} in
          match update_plot sim1 with
          | Raised e => Raised e
          | Returned sim1' =>
              match save_plot sim1' with
              | Raised e => Raised e
              | Returned sim2 =>
                  match Island_step exp P (island sim2) s with
                  | Raise e => Raised (EngineError e)
                  | Ok (isl', s') =>
                      simulate num_years'
                        {| island := isl';
                           num_years_simulated := num_years_simulated sim2 + 1;
                           history := history sim2; vis_years := vis_years sim2;
                           img_years := img_years sim2; img_target := img_target sim2;
                           has_plotter := has_plotter sim2;
                           figure_number := figure_number sim2 |} s'
                  end
              end
          end
      end
  end.

(** [BioSim.__init__], for the random source [r] that [random.seed(seed)]
    leaves: the island is built and populated, [img_years] falls back on
    [vis_years], and the plotter is created only if [vis_years] is set. *)
Definition BioSim_init (geography : string) (ini_pop : list placement) (r : Random)
    (vis_years img_years : nat) (img_target : bool) : result (BioSim * State) :=
  isl ← Island_init (f_max P) geography;
  match Island_place_animals P ini_pop isl (initial_state r) with
  | (Raise e, _) => Raise e
  | (Ok _, (isl', s)) =>
      Ok ({| island := isl'; num_years_simulated := 0; history := [];
             vis_years := vis_years;
             img_years := if img_years =? 0 then vis_years else img_years;
             img_target := img_target;
             has_plotter := negb (vis_years =? 0);
             figure_number := 0 |}, s)
  end.

End Simulation.

(** ** The state the engine keeps between its operations *)

(** A consistent island: its cells are well formed for the objects of the
    store, every animal a cell holds has been created (its reference is
    below [next_ref]), a cell that is not habitable holds no animal, and the
    cells that are not habitable are the Water cells. *)
Record island_inv (isl : Island) (s : State) : Prop := {
  inv_wf : island_wf isl (objs s);
  inv_alloc :
    ∀ c cell a, island_map isl !! c = Some cell → a ∈ chain cell → a < next_ref s;
  inv_water :
    ∀ c cell, island_map isl !! c = Some cell → is_habitable cell = false →
              chain cell = [];
  inv_class :
    ∀ c cell, island_map isl !! c = Some cell →
              (landtype cell = Water ↔ is_habitable cell = false)
}.

(** What one cell's part of a year may do to the cell at hand: the class
    stays, nothing already created changes species, and the animals of the
    cell afterwards are animals it had or animals created meanwhile, in the
    list of their species, none twice. *)
Record cell_step_ok (s : State) (c : Cell) (s' : State) (c' : Cell) : Prop := {
  cs_landtype : landtype c' = landtype c;
  cs_habitable : is_habitable c' = is_habitable c;
  cs_next_ref : next_ref s ≤ next_ref s';
  cs_species : ∀ r, r < next_ref s → species (objs s' !!! r) = species (objs s !!! r);
  cs_herbivores :
    ∀ a, a ∈ herbivores c' →
         a ∈ herbivores c ∨
         (next_ref s ≤ a < next_ref s' ∧ species (objs s' !!! a) = Herbivore);
  cs_carnivores :
    ∀ a, a ∈ carnivores c' →
         a ∈ carnivores c ∨
         (next_ref s ≤ a < next_ref s' ∧ species (objs s' !!! a) = Carnivore);
  cs_once : NoDup (chain c')
}.

(** A cell ready for its part of a year: no animal twice, every animal
    created and in the list of its species. *)
Record cell_ready (s : State) (c : Cell) : Prop := {
  cr_once : NoDup (chain c);
  cr_alloc : ∀ a, a ∈ chain c → a < next_ref s;
  cr_herbivores : ∀ a, a ∈ herbivores c → species (objs s !!! a) = Herbivore;
  cr_carnivores : ∀ a, a ∈ carnivores c → species (objs s !!! a) = Carnivore
}.

(** What a relocation of animals keeps of a map of cells: every cell its
    class, its habitability and its fodder, and no animal that was not in
    some cell before. *)
Definition cells_kept (m m' : gmap Coord Cell) : Prop :=
  (∀ c cell', m' !! c = Some cell' →
     ∃ cell, m !! c = Some cell ∧ landtype cell' = landtype cell ∧
             is_habitable cell' = is_habitable cell ∧ fodder cell' = fodder cell) ∧
  (∀ c cell' a, m' !! c = Some cell' → a ∈ chain cell' →
     ∃ c0 cell0, m !! c0 = Some cell0 ∧ a ∈ chain cell0).

(** A simulation whose calls on the plotter cannot fail: the plotter exists,
    or no figure is ever due. *)
Definition plot_ready (sim : BioSim) : Prop :=
  has_plotter sim = true ∨
  (vis_years sim = 0 ∧ (img_years sim = 0 ∨ img_target sim = false)).

(** The cell of [hunting_ground]: the two herbivores and the carnivore. *)
Definition savanna : Cell :=
  {| landtype := Lowland; is_habitable := true; fodder := 800;
     herbivores := [1; 2]; carnivores := [0] |}.

(** A dictionary for an animal of a species that does not exist. *)
Definition sheep : animal_dict :=
  {| d_species := "Sheep"; d_age := Some 1%Z; d_weight := Some 10%Q |}.

(** A [BioSim] made for the island [single_lowland] with 50 herbivores, the
    random source [r], no graphics ([vis_years = 0]) and figures to be
    saved every year. *)
Definition blind_sim (r : Random) : result (BioSim * State) :=
  BioSim_init default_classes "WWW
WLW
WWW" [{| loc := (2, 2)%Z; pop := replicate 50 herbivore_5_20 |}] r 0 1 true.

(** The same with graphics every year. *)
Definition sighted_sim (r : Random) : result (BioSim * State) :=
  BioSim_init default_classes "WWW
WLW
WWW" [{| loc := (2, 2)%Z; pop := replicate 50 herbivore_5_20 |}] r 1 0 true.


Lemma remove_dups_singleton {A} `{EqDecision A} (l : list A) (x : A) :
  remove_dups l = [x] ↔ l ≠ [] ∧ ∀ y, y ∈ l → y = x.
Proof.
  split.
  - intros H. split.
    + intros ->. discriminate.
    + intros y Hy. apply elem_of_remove_dups in Hy. rewrite H in Hy.
      by apply list_elem_of_singleton in Hy.
  - intros [Hne Hall]. induction l as [|a l IH]; [done|].
    assert (a = x) as -> by (apply Hall; left).
    simpl. destruct l as [|b l].
    + done.
    + destruct (decide_rel elem_of x (b :: l)) as [Hin|Hnin].
      * apply IH; [done|]. intros y Hy. apply Hall. by right.
      * exfalso. apply Hnin. assert (b = x) as -> by (apply Hall; right; left). left.
Qed.

Lemma comprehension_Ok {A B} (f : A → result B) l ys :
  comprehension f l = Ok ys → Forall2 (λ x y, f x = Ok y) l ys.
Proof.
  revert ys. induction l as [|x l IH]; intros ys; simpl.
  - intros [= <-]. constructor.
  - destruct (f x) as [y|] eqn:Hx; simpl; [|done].
    destruct (comprehension f l) as [ys'|] eqn:Hl; simpl; [|done].
    intros [= <-]. constructor; auto.
Qed.

Lemma comprehension_total {A B} (f : A → result B) l :
  (∀ x, x ∈ l → ∃ y, f x = Ok y) → ∃ ys, comprehension f l = Ok ys.
Proof.
  induction l as [|x l IH]; intros H; simpl; [eauto|].
  destruct (H x) as [y ->]; [left|]. simpl.
  destruct IH as [ys ->]; [intros; apply H; by right|]. simpl. eauto.
Qed.

Lemma comprehension_Raise {A B} (f : A → result B) l e :
  comprehension f l = Raise e → ∃ x, x ∈ l ∧ f x = Raise e.
Proof.
  induction l as [|x l IH]; simpl; [done|].
  destruct (f x) as [y|e'] eqn:Hx; simpl.
  - destruct (comprehension f l) as [ys'|e'] eqn:Hl; simpl; [done|].
    intros [= <-]. destruct IH as (x' & ? & ?); [done|]. exists x'. split; [by right|done].
  - intros [= <-]. exists x. split; [left|done].
Qed.

Lemma split_lines_nonempty s : split_lines s ≠ [].
Proof.
  destruct s as [|c s]; simpl; [done|].
  destruct (Ascii.eqb c newline); [done|]. by destruct (split_lines s).
Qed.

Lemma split_lines_elem s r c :
  r ∈ split_lines s → c ∈ r → c ∈ s ∧ c ≠ newline.
Proof.
  revert r. induction s as [|a s IH]; intros r; simpl.
  - intros ->%list_elem_of_singleton Hc. by apply not_elem_of_nil in Hc.
  - destruct (Ascii.eqb a newline) eqn:Ha.
    + intros [->|Hr]%elem_of_cons Hc.
      * by apply not_elem_of_nil in Hc.
      * destruct (IH r Hr Hc). split; [by right|done].
    + apply Ascii.eqb_neq in Ha.
      destruct (split_lines s) as [|r0 rs] eqn:Hs.
      { by destruct (split_lines_nonempty s). }
      intros [->|Hr]%elem_of_cons Hc.
      * apply elem_of_cons in Hc as [->|Hc]; [split; [left|done]|].
        destruct (IH r0) as [? ?]; [left|done|]. split; [by right|done].
      * destruct (IH r) as [? ?]; [by right|done|]. split; [by right|done].
Qed.

Lemma known_chars_find g :
  List.find (fun cell_type => negb (bool_decide (is_Some (cell_map cell_type))))
            (get_distinct (filter (fun c => c <> newline) g)) = None →
  ∀ c, c ∈ g → c ≠ newline → is_Some (cell_map c).
Proof.
  intros Hf c Hc Hnl.
  pose proof (find_none _ _ Hf c) as H.
  destruct (cell_map c) eqn:E; [eauto|]. exfalso.
  cut (negb (bool_decide (is_Some (cell_map c))) = false).
  { rewrite E. done. }
  apply H.
  apply list_elem_of_In, elem_of_remove_dups, list_elem_of_filter. done.
Qed.

Lemma unknown_char_find g c :
  List.find (fun cell_type => negb (bool_decide (is_Some (cell_map cell_type))))
            (get_distinct (filter (fun c => c <> newline) g)) = Some c →
  c ∈ g ∧ c ≠ newline ∧ cell_map c = None.
Proof.
  intros Hf. apply find_some in Hf as [Hin Hp].
  apply list_elem_of_In, elem_of_remove_dups, list_elem_of_filter in Hin as [Hnl Hin].
  apply negb_true_iff, bool_decide_eq_false in Hp.
  split; [done|]. split; [done|].
  destruct (cell_map c); [|done]. destruct Hp; eauto.
Qed.

Lemma same_length_rows (rows : list (list ascii)) :
  length (remove_dups (length <$> rows)) = 1 →
  ∃ n, ∀ r, r ∈ rows → length r = n.
Proof.
  intros H. destruct (remove_dups (length <$> rows)) as [|n [|? ?]] eqn:Hd; try done.
  exists n. intros r Hr. apply remove_dups_singleton in Hd as [_ Hd]. apply Hd.
  by apply list_elem_of_fmap_2.
Qed.

Lemma not_same_length_rows (rows : list (list ascii)) :
  rows ≠ [] →
  length (remove_dups (length <$> rows)) ≠ 1 →
  ∃ r1 r2, r1 ∈ rows ∧ r2 ∈ rows ∧ length r1 ≠ length r2.
Proof.
  intros Hne H. destruct rows as [|r0 rows]; [done|].
  destruct (decide (Forall (λ r, length r = length r0) (r0 :: rows))) as [Hall|Hn].
  - destruct H. rewrite Forall_forall in Hall.
    assert (remove_dups (length <$> (r0 :: rows)) = [length r0]) as ->; [|done].
    apply remove_dups_singleton. split; [done|].
    intros y (r & -> & Hr)%list_elem_of_fmap. by apply Hall.
  - apply not_Forall_Exists in Hn; [|apply _].
    apply Exists_exists in Hn as (r & Hr & Hd).
    exists r0, r. split; [left|]. split; [done|]. congruence.
Qed.

Lemma first_item_Ok {A} (l : list A) x : first_item l = Ok x ↔ head l = Some x.
Proof. destruct l; simpl; split; congruence. Qed.

Lemma last_item_Ok {A} (l : list A) x : last_item l = Ok x ↔ last l = Some x.
Proof. unfold last_item. destruct (last l); split; congruence. Qed.

Lemma all_water_column {A} (f : list A → result ascii) (rows : list (list A)) col :
  comprehension f rows = Ok col →
  get_distinct col = [W] →
  ∀ r c, r ∈ rows → f r = Ok c → c = W.
Proof.
  intros Hc Hd r c Hr Hf. apply comprehension_Ok in Hc.
  apply remove_dups_singleton in Hd as [_ Hd].
  apply list_elem_of_lookup in Hr as [i Hi].
  destruct (Forall2_lookup_l _ _ _ _ _ Hc Hi) as (c' & Hc' & Hfc).
  rewrite Hf in Hfc. injection Hfc as ->. apply Hd. by eapply list_elem_of_lookup_2.
Qed.

Lemma validate_map_cases geography :
  validate_map_post geography (validate_map geography).
Proof.
  unfold validate_map.
  destruct (List.find _ _) as [c|] eqn:Hfind.
  { by apply unknown_char_find. }
  pose proof (known_chars_find _ Hfind) as Hknown.
  assert (¬ has_unknown_char geography) as Hnu.
  { intros (c & Hc & Hnl & Hm). destruct (Hknown c Hc Hnl) as [? ?]. congruence. }
  fold (rows_of geography).
  pose proof (split_lines_nonempty (list_ascii_of_string geography)) as Hne.
  fold (rows_of geography) in Hne.
  destruct (Nat.eqb _ 1) eqn:Hlen; simpl.
  2:{ apply Nat.eqb_neq in Hlen. split; [done|]. by apply not_same_length_rows. }
  apply Nat.eqb_eq, same_length_rows in Hlen as [n Hn].
  assert (¬ unequal_rows geography) as Hne'.
  { intros (r1 & r2 & H1 & H2 & Hd). apply Hd. by rewrite (Hn r1), (Hn r2). }
  destruct (first_item (rows_of geography)) as [top|e] eqn:Htopr; simpl.
  2:{ by destruct (rows_of geography). }
  apply first_item_Ok in Htopr.
  destruct (bool_decide (get_distinct top = [W])) eqn:Htop; simpl; [|done].
  apply bool_decide_eq_true, remove_dups_singleton in Htop as [Htopne Htop].
  assert (0 < n) as Hpos.
  { rewrite <- (Hn top) by (by apply head_Some_elem_of). destruct top; [done|simpl; lia]. }
  destruct (last_item (rows_of geography)) as [bottom|e] eqn:Hlast; simpl.
  2:{ unfold last_item in Hlast. destruct (last (rows_of geography)) eqn:Hl; [done|].
      by apply last_None in Hl. }
  apply last_item_Ok in Hlast.
  destruct (bool_decide (get_distinct bottom = [W])) eqn:Hbot; simpl; [|done].
  apply bool_decide_eq_true, remove_dups_singleton in Hbot as [_ Hbot].
  destruct (comprehension first_item (rows_of geography)) as [left_col|e] eqn:Hleft; simpl.
  2:{ apply comprehension_Raise in Hleft as (r & Hr & Hraise).
      specialize (Hn r Hr). destruct r; [simpl in Hn; lia|done]. }
  destruct (bool_decide (get_distinct left_col = [W])) eqn:Hl; simpl; [|done].
  apply bool_decide_eq_true in Hl.
  destruct (comprehension last_item (rows_of geography)) as [right_col|e] eqn:Hright; simpl.
  2:{ apply comprehension_Raise in Hright as (r & Hr & Hraise).
      specialize (Hn r Hr). unfold last_item in Hraise.
      destruct (last r) eqn:Hlr; [done|]. apply last_None in Hlr as ->. simpl in Hn; lia. }
  destruct (bool_decide (get_distinct right_col = [W])) eqn:Hr; simpl; [|done].
  apply bool_decide_eq_true in Hr.
  split; [|done]. split.
  - intros r c Hr' Hc.
    destruct (split_lines_elem _ _ _ Hr' Hc). by apply Hknown.
  - eauto.
  - intros r c. rewrite Htopr. intros [= <-]. apply Htop.
  - intros r c. rewrite Hlast. intros [= <-]. apply Hbot.
  - intros r c Hr' Hh. eapply (all_water_column first_item); eauto. by apply first_item_Ok.
  - intros r c Hr' Hh. eapply (all_water_column last_item); eauto. by apply last_item_Ok.
Qed.

Lemma valid_rows_border geography :
  valid_rows (rows_of geography) → ¬ unequal_rows geography ∧ ¬ border_not_water geography.
Proof.
  intros [Hk (n & Hpos & Hn) Ht Hb Hl Hr]. split.
  - intros (r1 & r2 & H1 & H2 & Hd). apply Hd. by rewrite (Hn r1), (Hn r2).
  - intros (i & j & r & y & Hi & Hj & Hy & Hcase). apply Hy.
    destruct Hcase as [-> | [Hlast | [-> | Hlast]]].
    + apply (Ht r); [by rewrite head_lookup|]. by eapply list_elem_of_lookup_2.
    + apply (Hb r); [|by eapply list_elem_of_lookup_2].
      rewrite last_lookup, <- Hlast. done.
    + apply (Hl r); [by eapply list_elem_of_lookup_2|]. by rewrite head_lookup.
    + apply (Hr r); [by eapply list_elem_of_lookup_2|].
      rewrite last_lookup, <- Hlast. done.
Qed.

(** C8.  Constructing an island from a layout that holds a character other
    than W, L, H and D, or whose rows differ in length, or that has a cell
    other than Water on its first or last row or column, raises a
    [ValueError]; the message names a violation that the layout does have. *)
Theorem Island_init_rejects_invalid_layout f_max geography :
  has_unknown_char geography ∨ unequal_rows geography ∨ border_not_water geography →
  ∃ m, Island_init f_max geography = Raise (ValueError m) ∧
       match m with
       | InvalidCellType c =>
           c ∈ list_ascii_of_string geography ∧ c ≠ newline ∧ cell_map c = None
       | RowsNotSameSize => unequal_rows geography
       | TopRowNotWater _ | BottomRowNotWater _
       | LeftColNotWater _ | RightColNotWater _ => border_not_water geography
       | _ => False
       end.
Proof.
  intros Hviol. unfold Island_init.
  pose proof (validate_map_cases geography) as Hpost.
  destruct (validate_map geography) as [[]|e]; simpl in *.
  - destruct Hpost as [Hv Hnu]. apply valid_rows_border in Hv as [Hne Hnb]. tauto.
  - destruct e as [m| | |]; try done. exists m. split; [done|].
    destruct m; try done; try tauto.
Qed.

(** ** The map built from a validated layout *)

Lemma comprehension_Ok_map {A B} (f : A → result B) (g : A → B) l ys :
  (∀ x y, f x = Ok y → y = g x) →
  comprehension f l = Ok ys → ys = g <$> l.
Proof.
  intros Hfg Hc. apply comprehension_Ok in Hc.
  induction Hc as [|x y l ys Hxy _ IH]; simpl; [done|].
  by rewrite (Hfg _ _ Hxy), IH.
Qed.

Lemma build_row_Ok f_max i x row :
  build_row f_max i x = Ok row → row = imap (item_at f_max i) x.
Proof.
  intros H. unfold build_row in H.
  apply (comprehension_Ok_map _ (λ jy, item_at f_max i jy.1 jy.2)) in H.
  - rewrite H. unfold enumerate. by rewrite fmap_imap.
  - intros [j y] it; simpl. unfold item_at. destruct (cell_map y); [|done]. by intros [= <-].
Qed.

Lemma build_items_Ok f_max rows items :
  build_items f_max rows = Ok items → items = layout_items f_max rows.
Proof.
  unfold build_items, layout_items.
  destruct (comprehension _ _) as [rs|] eqn:Hc; simpl; [|done].
  intros [= <-]. f_equal.
  apply (comprehension_Ok_map _ (λ ix, imap (item_at f_max ix.1) ix.2)) in Hc.
  - rewrite Hc. unfold enumerate. by rewrite fmap_imap.
  - intros [i x] row. apply build_row_Ok.
Qed.

Lemma build_items_total f_max rows :
  (∀ r c, r ∈ rows → c ∈ r → is_Some (cell_map c)) →
  ∃ items, build_items f_max rows = Ok items.
Proof.
  intros Hk. unfold build_items.
  destruct (comprehension_total
              (λ ix : nat * list ascii, build_row f_max ix.1 ix.2) (enumerate rows))
    as [rs ->]; [|simpl; eauto].
  intros [i r] Hir. apply elem_of_lookup_imap_1 in Hir as (i' & r' & [= -> ->] & Hr).
  simpl. apply comprehension_total.
  intros [j y] Hjy. apply elem_of_lookup_imap_1 in Hjy as (j' & y' & [= -> ->] & Hy).
  simpl. destruct (Hk r' y') as [lt ->]; eauto using list_elem_of_lookup_2.
Qed.

Lemma elem_of_layout_items f_max rows it :
  it ∈ layout_items f_max rows ↔
  ∃ i j r y, rows !! i = Some r ∧ r !! j = Some y ∧ it = item_at f_max i j y.
Proof.
  unfold layout_items. rewrite list_elem_of_join. split.
  - intros (l & Hit & Hl). apply elem_of_lookup_imap_1 in Hl as (i & r & -> & Hr).
    apply elem_of_lookup_imap_1 in Hit as (j & y & -> & Hy). eauto 10.
  - intros (i & j & r & y & Hr & Hy & ->).
    exists (imap (item_at f_max i) r). split.
    + by apply elem_of_lookup_imap_2.
    + by apply (elem_of_lookup_imap_2 (λ i r, imap (item_at f_max i) r)).
Qed.

Lemma cell_map_W : cell_map W = Some Water.
Proof. reflexivity. Qed.

Lemma cell_map_Water y : cell_map y = Some Water → y = W.
Proof.
  unfold cell_map.
  destruct (Ascii.eqb y "L") eqn:HL; [done|].
  destruct (Ascii.eqb y "W") eqn:HW; [by apply Ascii.eqb_eq in HW|].
  destruct (Ascii.eqb y "D"); [done|]. by destruct (Ascii.eqb y "H").
Qed.

Lemma habitable_item_not_W f_max i j y :
  is_habitable (item_at f_max i j y).2 = true → y ≠ W.
Proof.
  intros Hh ->. unfold item_at in Hh. by rewrite cell_map_W in Hh.
Qed.

Lemma island_map_lookup_inv f_max geography isl c cell :
  Island_init f_max geography = Ok isl →
  island_map isl !! c = Some cell →
  valid_rows (rows_of geography) ∧
  ∃ i j r y, rows_of geography !! i = Some r ∧ r !! j = Some y ∧
             (c, cell) = item_at f_max i j y.
Proof.
  unfold Island_init. pose proof (validate_map_cases geography) as Hpost.
  destruct (validate_map geography) as [[]|]; simpl in *; [|done].
  destruct Hpost as [Hv _]. unfold _build_island. fold (rows_of geography).
  destruct (build_items f_max (rows_of geography)) as [items|] eqn:Hb; simpl; [|done].
  intros [= <-]; simpl. intros Hl%elem_of_list_to_map_2.
  apply build_items_Ok in Hb as ->. by apply elem_of_layout_items in Hl.
Qed.

Lemma island_map_lookup_Some f_max geography isl i j r y :
  Island_init f_max geography = Ok isl →
  rows_of geography !! i = Some r → r !! j = Some y →
  is_Some (island_map isl !! (Z.of_nat i + 1, Z.of_nat j + 1)%Z).
Proof.
  unfold Island_init.
  destruct (validate_map geography) as [[]|]; simpl in *; [|done].
  unfold _build_island. fold (rows_of geography).
  destruct (build_items f_max (rows_of geography)) as [items|] eqn:Hb; simpl; [|done].
  intros [= <-] Hr Hy; simpl.
  apply build_items_Ok in Hb as ->.
  destruct (list_to_map (layout_items f_max (rows_of geography))
              !! (Z.of_nat i + 1, Z.of_nat j + 1)%Z) eqn:Hl; [eauto|].
  apply not_elem_of_list_to_map_2 in Hl. destruct Hl.
  apply list_elem_of_fmap. exists (item_at f_max i j y). split; [done|].
  apply elem_of_layout_items. eauto 10.
Qed.

(** A habitable cell of a validated layout lies strictly inside the grid. *)
Lemma habitable_interior (rows : list (list ascii)) i j r y :
  valid_rows rows → rows !! i = Some r → r !! j = Some y → y ≠ W →
  0 < i ∧ S i < length rows ∧ 0 < j ∧ S j < length r.
Proof.
  intros [Hk (n & Hpos & Hn) Ht Hb Hl Hr] Hi Hj Hy.
  pose proof (lookup_lt_Some _ _ _ Hi). pose proof (lookup_lt_Some _ _ _ Hj).
  assert (y ∈ r) as Hyr by by eapply list_elem_of_lookup_2.
  assert (r ∈ rows) as Hrr by by eapply list_elem_of_lookup_2.
  repeat split.
  - destruct i; [|lia]. destruct Hy. apply (Ht r); [by rewrite head_lookup|done].
  - destruct (decide (S i = length rows)) as [He|]; [|lia].
    destruct Hy. apply (Hb r); [|done]. by rewrite last_lookup, <- He.
  - destruct j; [|lia]. destruct Hy. apply (Hl r); [done|by rewrite head_lookup].
  - destruct (decide (S j = length r)) as [He|]; [|lia].
    destruct Hy. apply (Hr r); [done|]. by rewrite last_lookup, <- He.
Qed.

Lemma habitable_neighbours_on_map f_max geography isl c cell d :
  Island_init f_max geography = Ok isl →
  island_map isl !! c = Some cell →
  is_habitable cell = true →
  d ∈ move_direction_map →
  is_Some (island_map isl !! coord_add c d).
Proof.
  intros Hinit Hc Hhab Hd.
  destruct (island_map_lookup_inv _ _ _ _ _ Hinit Hc)
    as (Hv & i & j & r & y & Hi & Hj & Heq).
  assert (y ≠ W) as Hy.
  { eapply (habitable_item_not_W f_max i j). by rewrite <- Heq. }
  destruct (habitable_interior _ _ _ _ _ Hv Hi Hj Hy) as (Hi0 & Hi1 & Hj0 & Hj1).
  destruct Hv as [_ (n & _ & Hn) _ _ _ _].
  assert (length r = n) as Hlr by (apply Hn; by eapply list_elem_of_lookup_2).
  assert (∀ i' j', i' < length (rows_of geography) → j' < n →
            is_Some (island_map isl !! (Z.of_nat i' + 1, Z.of_nat j' + 1)%Z)) as Hin.
  { intros i' j' Hi' Hj'.
    destruct (lookup_lt_is_Some_2 _ _ Hi') as [r' Hr'].
    assert (length r' = n) as Hl' by (apply Hn; by eapply list_elem_of_lookup_2).
    destruct (lookup_lt_is_Some_2 r' j') as [y' Hy']; [lia|].
    by eapply island_map_lookup_Some. }
  injection Heq as -> _. unfold coord_add; simpl.
  unfold move_direction_map in Hd.
  repeat (apply elem_of_cons in Hd as [->|Hd]); [| | | |by apply not_elem_of_nil in Hd]; simpl.
  - replace (Z.of_nat i + 1 + -1, Z.of_nat j + 1 + 0)%Z
      with (Z.of_nat (i - 1) + 1, Z.of_nat j + 1)%Z by (f_equal; lia).
    apply Hin; lia.
  - replace (Z.of_nat i + 1 + 1, Z.of_nat j + 1 + 0)%Z
      with (Z.of_nat (S i) + 1, Z.of_nat j + 1)%Z by (f_equal; lia).
    apply Hin; lia.
  - replace (Z.of_nat i + 1 + 0, Z.of_nat j + 1 + -1)%Z
      with (Z.of_nat i + 1, Z.of_nat (j - 1) + 1)%Z by (f_equal; lia).
    apply Hin; lia.
  - replace (Z.of_nat i + 1 + 0, Z.of_nat j + 1 + 1)%Z
      with (Z.of_nat i + 1, Z.of_nat (S j) + 1)%Z by (f_equal; lia).
    apply Hin; lia.
Qed.

(** ** The islands [Island.__init__] builds are well formed *)

Lemma StronglySorted_sublist {A} (R : relation A) (l1 l2 : list A) :
  l1 `sublist_of` l2 → StronglySorted R l2 → StronglySorted R l1.
Proof.
  induction 1 as [|x l1 l2 Hsub IH|x l1 l2 Hsub IH]; intros Hs; [done|..].
  - apply StronglySorted_cons in Hs as [Hall Hs]. apply StronglySorted_cons.
    split; [|by apply IH]. apply Forall_forall. intros y Hy.
    apply (proj1 (Forall_forall _ _) Hall). by eapply elem_of_sublist.
  - apply StronglySorted_cons in Hs as [_ Hs]. by apply IH.
Qed.

Lemma row_major_lt_irrefl c : ¬ row_major_lt c c.
Proof. unfold row_major_lt. lia. Qed.

Lemma row_major_NoDup coords : row_major coords → NoDup coords.
Proof.
  induction coords as [|c coords IH]; intros Hs; [constructor|].
  apply StronglySorted_cons in Hs as [Hall Hs]. apply NoDup_cons. split; [|by apply IH].
  intros Hin. apply (proj1 (Forall_forall _ _) Hall) in Hin.
  by apply row_major_lt_irrefl in Hin.
Qed.

(** The keys of one row, from column [j0] on, and of the rows from [i0] on. *)
Lemma row_keys_sorted (i : Z) (r : list ascii) (j0 : nat) :
  StronglySorted row_major_lt (imap (λ j _, (i, Z.of_nat (j0 + j) + 1)%Z) r) ∧
  Forall (λ c, c.1 = i ∧ (Z.of_nat j0 + 1 ≤ c.2)%Z)
         (imap (λ j _, (i, Z.of_nat (j0 + j) + 1)%Z) r).
Proof.
  revert j0. induction r as [|y r IH]; intros j0; [split; constructor|].
  rewrite imap_cons.
  rewrite (imap_ext _ (λ j _, (i, Z.of_nat (S j0 + j) + 1)%Z)).
  2:{ intros j x _. simpl. do 2 f_equal. lia. }
  destruct (IH (S j0)) as [Hs Hall]. split.
  - apply StronglySorted_cons. split; [|done].
    eapply Forall_impl; [exact Hall|]. intros [ci cj] [Hi Hj]; simpl in *.
    unfold row_major_lt; simpl. lia.
  - constructor; [simpl; lia|].
    eapply Forall_impl; [exact Hall|]. intros [ci cj] [Hi Hj]; simpl in *. lia.
Qed.

Lemma layout_keys_sorted (f : nat → nat → ascii → Coord * Cell) (rows : list (list ascii)) i0 :
  (∀ i j y, (f i j y).1 = (Z.of_nat (i0 + i) + 1, Z.of_nat j + 1)%Z) →
  StronglySorted row_major_lt (mjoin (imap (λ i r, imap (f i) r) rows)).*1 ∧
  Forall (λ c, (Z.of_nat i0 + 1 ≤ c.1)%Z) (mjoin (imap (λ i r, imap (f i) r) rows)).*1.
Proof.
  revert f i0. induction rows as [|r rows IH]; intros f i0 Hf; [split; constructor|].
  rewrite imap_cons. simpl. rewrite !fmap_app.
  destruct (IH (f ∘ S) (S i0)) as [Hs Hall].
  { intros i j y. simpl. rewrite Hf. do 2 f_equal. lia. }
  assert ((imap (f 0) r).*1 = imap (λ j _, (Z.of_nat i0 + 1, Z.of_nat (0 + j) + 1)%Z) r) as Hrow.
  { rewrite fmap_imap. apply imap_ext. intros j y _. simpl. rewrite Hf.
    do 2 f_equal. lia. }
  destruct (row_keys_sorted (Z.of_nat i0 + 1) r 0) as [Hrs Hrall].
  rewrite <- Hrow in Hrs, Hrall. split.
  - apply StronglySorted_app_2; [|done|exact Hs].
    intros [i1 j1] [i2 j2] H1 H2.
    apply (proj1 (Forall_forall _ _) Hrall) in H1 as [H1 _].
    apply (proj1 (Forall_forall _ _) Hall) in H2.
    unfold row_major_lt; simpl in *. lia.
  - apply Forall_app. split.
    + eapply Forall_impl; [exact Hrall|]. intros c [-> _]. lia.
    + eapply Forall_impl; [exact Hall|]. intros c Hc. simpl in Hc. lia.
Qed.

Lemma layout_items_sorted f_max rows : row_major (layout_items f_max rows).*1.
Proof.
  unfold layout_items, row_major.
  apply (layout_keys_sorted (item_at f_max) rows 0). done.
Qed.

Lemma Island_init_items f_max geography isl :
  Island_init f_max geography = Ok isl →
  island_map isl = list_to_map (layout_items f_max (rows_of geography)) ∧
  habitable_map isl =
    (filter (λ cc, is_habitable cc.2 = true) (layout_items f_max (rows_of geography))).*1.
Proof.
  unfold Island_init.
  destruct (validate_map geography) as [[]|]; simpl; [|done].
  unfold _build_island. fold (rows_of geography).
  destruct (build_items f_max (rows_of geography)) as [items|] eqn:Hb; simpl; [|done].
  apply build_items_Ok in Hb as ->. by intros [= <-].
Qed.

(** An island as [Island.__init__] returns it: well formed, its habitable
    cells in row-major order, and no animal in any cell. *)
Lemma Island_init_wf f_max geography isl o :
  Island_init f_max geography = Ok isl →
  island_wf isl o ∧ row_major (habitable_map isl) ∧
  ∀ c cell, island_map isl !! c = Some cell → chain cell = [].
Proof.
  intros Hinit. destruct (Island_init_items _ _ _ Hinit) as [Hm Hh].
  set (items := layout_items f_max (rows_of geography)) in *.
  pose proof (layout_items_sorted f_max (rows_of geography)) as Hsorted. fold items in Hsorted.
  assert (NoDup items.*1) as Hnd by by apply row_major_NoDup.
  assert (row_major (habitable_map isl)) as Hrm.
  { rewrite Hh. eapply StronglySorted_sublist; [|exact Hsorted].
    apply fmap_sublist, sublist_filter. }
  assert (∀ c cell, island_map isl !! c = Some cell → chain cell = []) as Hempty.
  { intros c cell Hc. rewrite Hm in Hc. apply elem_of_list_to_map_2 in Hc.
    apply elem_of_layout_items in Hc as (i & j & r & y & _ & _ & [= _ ->]). done. }
  assert (∀ c, chain (habitable_cell (island_map isl) c) = []) as Hempty'.
  { intros c. unfold habitable_cell. rewrite lookup_total_alt.
    destruct (island_map isl !! c) as [cell|] eqn:Hc; [by apply (Hempty c)|done]. }
  split; [|done]. split.
  - by apply row_major_NoDup.
  - intros c. rewrite Hh, Hm. rewrite list_elem_of_fmap. split.
    + intros ([c' cell] & -> & [Hhab Hin]%list_elem_of_filter). simpl in *.
      exists cell. split; [|done]. by apply elem_of_list_to_map_1.
    + intros (cell & Hc%elem_of_list_to_map_2 & Hhab). exists (c, cell).
      split; [done|]. by apply list_elem_of_filter.
  - intros c _. rewrite Hempty'. constructor.
  - intros c c' a _ _ Ha. rewrite Hempty' in Ha. by apply not_elem_of_nil in Ha.
  - intros c a _ Ha.
    assert (a ∈ chain (habitable_cell (island_map isl) c)) as Hin
      by (apply elem_of_app; by left).
    rewrite Hempty' in Hin. by apply not_elem_of_nil in Hin.
  - intros c a _ Ha.
    assert (a ∈ chain (habitable_cell (island_map isl) c)) as Hin
      by (apply elem_of_app; by right).
    rewrite Hempty' in Hin. by apply not_elem_of_nil in Hin.
  - intros c d Hc Hd. rewrite Hh in Hc.
    apply list_elem_of_fmap in Hc as ([c' cell] & -> & [Hhab Hin]%list_elem_of_filter).
    simpl in *. apply (habitable_neighbours_on_map f_max geography isl c' cell d); try done.
    rewrite Hm. by apply elem_of_list_to_map_1.
Qed.

Lemma Island_init_rejects_invalid_layout_witness :
  (has_unknown_char "WWW
WXW
WWW" ∨ unequal_rows "WWW
WXW
WWW" ∨ border_not_water "WWW
WXW
WWW") ∧
  ∃ m, Island_init default_f_max "WWW
WXW
WWW" = Raise (ValueError m).
Proof.
  assert (has_unknown_char "WWW
WXW
WWW") as Hx.
  { exists "X"%char. split; [|split; [discriminate|reflexivity]].
    simpl. do 5 right. left. }
  split; [by left|].
  destruct (Island_init_rejects_invalid_layout default_f_max _ (or_introl Hx))
    as (m & Hraise & _).
  by exists m.
Defined.


(** ** Rational comparisons *)

Lemma Qlt_bool_true a b : Qlt_bool a b = true ↔ (a < b)%Q.
Proof.
  unfold Qlt_bool. rewrite negb_true_iff. split.
  - intros H. apply Qnot_le_lt. intros Hle. apply Qle_bool_iff in Hle. congruence.
  - intros H. destruct (Qle_bool b a) eqn:E; [|done].
    apply Qle_bool_iff in E. exfalso. by apply (Qlt_not_le a b).
Qed.

Lemma Qlt_bool_false a b : Qlt_bool a b = false ↔ (b <= a)%Q.
Proof.
  unfold Qlt_bool. rewrite negb_false_iff. apply Qle_bool_iff.
Qed.

Lemma Qle_bool_false a b : Qle_bool a b = false ↔ (b < a)%Q.
Proof.
  rewrite <- Qlt_bool_true. unfold Qlt_bool. by rewrite negb_true_iff.
Qed.


Lemma py_min_r a b : (b < a)%Q → py_min a b = b.
Proof. intros H. unfold py_min. by apply Qlt_bool_true in H as ->. Qed.

Lemma py_min_le_l a b : (py_min a b <= a)%Q.
Proof.
  unfold py_min. destruct (Qlt_bool b a) eqn:E.
  - apply Qlt_bool_true in E. lra.
  - lra.
Qed.

Lemma py_min_le_r a b : (py_min a b <= b)%Q.
Proof.
  unfold py_min. destruct (Qlt_bool b a) eqn:E.
  - lra.
  - by apply Qlt_bool_false in E.
Qed.

Lemma py_min_nonneg a b : (0 <= a)%Q → (0 <= b)%Q → (0 <= py_min a b)%Q.
Proof. intros. unfold py_min. by destruct (Qlt_bool b a). Qed.

(** [random.random()] lies in [0, 1). *)
Lemma random_range s : (0 <= (random s).1 < 1)%Q.
Proof.
  unfold random; simpl.
  set (k := (bits (rand s) (cursor (rand s)) mod 2 ^ 53)%N).
  assert (k < 2 ^ 53)%N as Hk by (apply N.mod_lt; done).
  split.
  - unfold Qle; simpl. lia.
  - unfold Qlt; simpl. lia.
Qed.

(** ** Updates of the object store *)

Lemma update_lookup r f s r' :
  objs (update r f s) !!! r' = if decide (r' = r) then f (objs s !!! r) else objs s !!! r'.
Proof.
  unfold update. simpl. destruct (decide (r' = r)) as [->|Hne].
  - by rewrite lookup_total_insert_eq.
  - by rewrite lookup_total_insert_ne.
Qed.

Lemma update_state r f s :
  next_ref (update r f s) = next_ref s ∧ log (update r f s) = log s ∧
  rand (update r f s) = rand s.
Proof. done. Qed.

Lemma random_frame s :
  objs (random s).2 = objs s ∧ next_ref (random s).2 = next_ref s ∧
  log (random s).2 = log s.
Proof. done. Qed.


(** ** The hunt *)

Section Predation.
Context (exp : Q → Q) (P : Classes).


Lemma hunt_cons self herb rest carn_appetite s :
  hunt exp P self (herb :: rest) carn_appetite s =
    if Qle_bool carn_appetite 0 then s
    else
      let phi_carn := fitness exp P (objs s !!! self) in
      let phi_herb := fitness exp P (objs s !!! herb) in
      if Qle_bool phi_carn phi_herb then s
      else
        let prob :=
          if Qlt_bool 0 (phi_carn - phi_herb)
             && Qlt_bool (phi_carn - phi_herb) (DeltaPhiMax P)
          then ((phi_carn - phi_herb) / DeltaPhiMax P)%Q
          else 1%Q in
        let '(kill, s1) :=
          if Qeq_bool prob 1 then (true, s)
          else let '(u, s') := random s in (Qlt_bool u prob, s') in
        if kill then
          let '(eaten, s2) :=
            feeding P self (py_min carn_appetite (weight (objs s1 !!! herb))) s1 in
          hunt exp P self rest (carn_appetite - eaten)%Q (set_dead herb s2)
        else hunt exp P self rest carn_appetite s1.
Proof. reflexivity. Qed.



Lemma hunt_outmatched self herb rest appetite s :
  (fitness exp P (objs s !!! self) <= fitness exp P (objs s !!! herb))%Q →
  hunt exp P self (herb :: rest) appetite s = s.
Proof.
  intros H. rewrite hunt_cons. cbv zeta. destruct (Qle_bool appetite 0); [done|].
  by apply Qle_bool_iff in H as ->.
Qed.






Lemma eat_herbivores_unchanged self herbivores s :
  hunt exp P self herbivores (F (params_of P (objs s !!! self))) s = s →
  eat_herbivores exp P self herbivores s = (alive s herbivores, s).
Proof. intros H. unfold eat_herbivores. by rewrite H. Qed.

(** C2 (as amended).  A carnivore whose fitness is at most that of every
    herbivore of the list (so at most that of the least fit one, which the
    ascending list puts first) kills nothing: the list it returns is the
    list it was given without the herbivores already flagged dead, and no
    object, the carnivore included, and no random number is touched. *)
Theorem outmatched_carnivore_kills_nothing self herbivores s :
  (∀ herb, herb ∈ herbivores →
     (fitness exp P (objs s !!! self) <= fitness exp P (objs s !!! herb))%Q) →
  eat_herbivores exp P self herbivores s = (alive s herbivores, s).
Proof.
  intros H. apply eat_herbivores_unchanged.
  destruct herbivores as [|herb rest]; [done|].
  apply hunt_outmatched, H. left.
Qed.





End Predation.

(** C2, as stated, fails: the carnivore of [hunting_ground] is less fit
    than the fittest herbivore available to it (reference 2, the last of the
    ascending list), and still kills the least fit one (reference 1). *)
Lemma carnivore_below_fittest_kills :
  let fit (r : nat) := fitness exp_series default_classes (objs hunting_ground !!! r) in
  let result := eat_herbivores exp_series default_classes 0 [1; 2] hunting_ground in
  (fit 1%nat <= fit 2%nat)%Q ∧ (fit 0%nat <= fit 2%nat)%Q ∧
  result.1 = [2] ∧ is_dead (objs result.2 !!! 1) = true.
Proof. vm_compute. repeat split; discriminate. Qed.

Lemma outmatched_carnivore_kills_nothing_witness :
  eat_herbivores exp_series default_classes 0 [2] hunting_ground
  = (alive hunting_ground [2], hunting_ground).
Proof.
  apply outmatched_carnivore_kills_nothing.
  intros herb ->%list_elem_of_singleton. vm_compute. discriminate.
Defined.



(** ** Births *)

Section Births.
Context (exp : Q → Q) (P : Classes).

Lemma draw_weight_nonneg p s : (0 <= (draw_weight p s).1)%Q.
Proof.
  unfold draw_weight. destruct (gauss _ _ s) as [w s'] eqn:Hg. simpl.
  destruct (Qlt_bool w 0) eqn:Hw; [lra|]. by apply Qlt_bool_false in Hw.
Qed.

Lemma draw_weight_state p s :
  objs (draw_weight p s).2 = objs s ∧ next_ref (draw_weight p s).2 = next_ref s
  ∧ log (draw_weight p s).2 = log s.
Proof. unfold draw_weight, gauss. done. Qed.



Lemma Animal_give_birth_effects r n s :
  log (Animal_give_birth exp P r n s).2 = log s ∧
  next_ref s ≤ next_ref (Animal_give_birth exp P r n s).2 ∧
  (∀ child, (Animal_give_birth exp P r n s).1 = Some child →
            next_ref s ≤ child < next_ref (Animal_give_birth exp P r n s).2).
Proof.
  unfold Animal_give_birth.
  destruct (n <=? 1)%nat; [done|]. cbv zeta.
  destruct (random s) as [u s1] eqn:Hrand.
  assert (log s1 = log s ∧ next_ref s1 = next_ref s) as [Hl1 Hn1].
  { unfold random in Hrand. by simplify_eq. }
  cbv beta iota.
  destruct (Qlt_bool u _); [|simpl; repeat split; try done; lia].
  destruct (draw_weight_state (params_of P (objs s !!! r)) s1) as (_ & Hn2 & Hl2).
  destruct (draw_weight _ s1) as [w s2]. cbv beta iota.
  change ((w, s2).2) with s2 in *.
  destruct (Qlt_bool _ 0).
  - simpl. repeat split; try done; [congruence|lia].
  - unfold alloc, update. simpl. split; [congruence|]. split; [lia|].
    intros ? [= <-]. lia.
Qed.

Lemma give_birth_nil animals s : give_birth exp P animals [] s = ([], s).
Proof. done. Qed.

Lemma give_birth_cons animals animal it s :
  give_birth exp P animals (animal :: it) s =
    let population_size := length animals in
    let '(child, s1) := Animal_give_birth exp P animal population_size s in
    let '(children, s2) := give_birth exp P animals it s1 in
    (match child with Some c => c :: children | None => children end, s2).
Proof. done. Qed.

(** The comprehension of [give_birth] makes the attempts of the
    specification: one per animal of the part it iterates, each with the
    length of the list it was given. *)
Lemma give_birth_attempts animals it s :
  give_birth exp P animals it s = attempts exp P (length animals) it s.
Proof.
  revert s. induction it as [|animal it IH]; intros s; [done|].
  rewrite give_birth_cons. cbv zeta. simpl attempts.
  destruct (Animal_give_birth exp P animal (length animals) s) as [child s1].
  by rewrite IH.
Qed.

(** The newborns of a run of attempts are new objects, each created after
    the ones before it. *)
Lemma attempts_newborns n agents :
  ∀ s,
  next_ref s ≤ next_ref (attempts exp P n agents s).2 ∧
  Forall (λ child, next_ref s ≤ child < next_ref (attempts exp P n agents s).2)
         (attempts exp P n agents s).1 ∧
  NoDup (attempts exp P n agents s).1 ∧
  length (attempts exp P n agents s).1 ≤ length agents.
Proof.
  induction agents as [|agent rest IH]; intros s.
  - simpl. repeat split; [lia|constructor|constructor|lia].
  - simpl attempts.
    pose proof (Animal_give_birth_effects agent n s) as (_ & Hn & Hc).
    destruct (Animal_give_birth exp P agent n s) as [child s1]. simpl in Hn, Hc.
    specialize (IH s1) as (IHn & IHc & IHd & IHl).
    destruct (attempts exp P n rest s1) as [children s2]. simpl in *.
    split; [lia|].
    assert (Forall (λ child, next_ref s ≤ child < next_ref s2) children) as Hch.
    { eapply Forall_impl; [exact IHc|]. simpl. lia. }
    destruct child as [c|]; [|by repeat split; [..|lia]].
    specialize (Hc c eq_refl). split; [|split].
    + constructor; [lia|done].
    + apply NoDup_cons. split; [|done].
      intros Hin. apply (proj1 (Forall_forall _ _) IHc) in Hin. lia.
    + simpl. lia.
Qed.

(** [Baseland.birth] as two phases, one per species. *)
Lemma Baseland_birth_phases c s :
  Baseland_birth exp P c s =
    let phase l s0 := if (1 <? length l)%nat then give_birth exp P l l s0 else ([], s0) in
    let '(born_h, s1) := phase (herbivores c) s in
    let '(born_c, s2) := phase (carnivores c) s1 in
    (set_carnivores (set_herbivores c (herbivores c ++ born_h)) (carnivores c ++ born_c), s2).
Proof.
  unfold Baseland_birth. cbv zeta. destruct c as [lt hab fod hs cs]. simpl.
  destruct (1 <? length hs)%nat.
  - destruct (give_birth exp P hs hs s) as [born_h s1]. simpl.
    destruct (1 <? length cs)%nat.
    + by destruct (give_birth exp P cs cs s1).
    + unfold set_carnivores, set_herbivores. simpl. by rewrite app_nil_r.
  - simpl. destruct (1 <? length cs)%nat.
    + destruct (give_birth exp P cs cs s) as [born_c s2].
      unfold set_carnivores, set_herbivores. simpl. by rewrite app_nil_r.
    + unfold set_carnivores, set_herbivores. simpl. by rewrite !app_nil_r.
Qed.

(** C5.  [Baseland.birth] on a cell whose animals are objects of the store.
    For each species on its own, if its count [n] before the phase exceeds
    one, every animal that was in the cell before the phase attempts
    [give_birth(n)], in list order and with that one count, herbivores
    first; a species of at most one animal makes no attempt.  The newborns
    of these attempts, and nothing else, are appended behind the animals
    that were there, once the attempts of the species are over.  Every
    newborn is a new object: it is not among the animals that made an
    attempt, and no two newborns are the same. *)
Theorem birth_counts_before_births c s :
  Forall (λ r, r < next_ref s) (chain c) →
  let phase (before : list nat) (s0 : State) :=
    if (1 <? length before)%nat then attempts exp P (length before) before s0
    else ([], s0) in
  let herbivore_births := phase (herbivores c) s in
  let carnivore_births := phase (carnivores c) herbivore_births.2 in
  let out := Baseland_birth exp P c s in
  herbivores out.1 = herbivores c ++ herbivore_births.1 ∧
  carnivores out.1 = carnivores c ++ carnivore_births.1 ∧
  out.2 = carnivore_births.2 ∧
  landtype out.1 = landtype c ∧ fodder out.1 = fodder c ∧
  NoDup (herbivore_births.1 ++ carnivore_births.1) ∧
  (∀ child, child ∈ herbivore_births.1 ++ carnivore_births.1 →
     (child ∉ chain c) ∧ next_ref s ≤ child < next_ref out.2).
Proof.
  intros Hwf. cbv zeta. rewrite Baseland_birth_phases. cbv zeta beta.
  assert (∀ l s0,
            (if (1 <? length l)%nat then give_birth exp P l l s0 else ([], s0))
            = (if (1 <? length l)%nat then attempts exp P (length l) l s0 else ([], s0)))
    as Hphase.
  { intros l s0. destruct (1 <? length l)%nat; [apply give_birth_attempts|done]. }
  assert (∀ l s0,
            let run := if (1 <? length l)%nat then attempts exp P (length l) l s0
                       else ([], s0) in
            next_ref s0 ≤ next_ref run.2 ∧
            Forall (λ child, next_ref s0 ≤ child < next_ref run.2) run.1 ∧ NoDup run.1)
    as Hnew.
  { intros l s0. cbv zeta. destruct (1 <? length l)%nat.
    - by destruct (attempts_newborns (length l) l s0) as (? & ? & ? & _).
    - simpl. repeat split; [lia|constructor|constructor]. }
  pose proof (Hnew (herbivores c) s) as (Hn1 & Hf1 & Hd1). cbv zeta in Hn1, Hf1, Hd1.
  rewrite (Hphase (herbivores c) s).
  destruct (if (1 <? length (herbivores c))%nat
            then attempts exp P (length (herbivores c)) (herbivores c) s
            else ([], s)) as [born_h s1].
  pose proof (Hnew (carnivores c) s1) as (Hn2 & Hf2 & Hd2). cbv zeta in Hn2, Hf2, Hd2.
  cbn [fst snd]. rewrite (Hphase (carnivores c) s1).
  destruct (if (1 <? length (carnivores c))%nat
            then attempts exp P (length (carnivores c)) (carnivores c) s1
            else ([], s1)) as [born_c s2].
  cbn [fst snd] in *. simpl.
  repeat (split; [done|]). split.
  - apply NoDup_app. split; [done|]. split; [|done].
    intros child Hh Hc.
    apply (proj1 (Forall_forall _ _) Hf1) in Hh.
    apply (proj1 (Forall_forall _ _) Hf2) in Hc. lia.
  - intros child Hin.
    assert (next_ref s ≤ child < next_ref s2) as Hrange.
    { apply elem_of_app in Hin as [Hin|Hin].
      - apply (proj1 (Forall_forall _ _) Hf1) in Hin. lia.
      - apply (proj1 (Forall_forall _ _) Hf2) in Hin. lia. }
    split; [|done]. intros Hold.
    apply (proj1 (Forall_forall _ _) Hwf) in Hold. lia.
Qed.

End Births.


Lemma birth_counts_before_births_witness :
  Forall (λ r, r < next_ref maternity) (chain nursery) ∧
  herbivores (Baseland_birth exp_series default_classes nursery maternity).1
    = [0; 1] ++ (attempts exp_series default_classes 2 [0; 1] maternity).1 ∧
  (Baseland_birth exp_series default_classes nursery maternity).2
    = (attempts exp_series default_classes 2 [0; 1] maternity).2.
Proof.
  assert (Forall (λ r, r < next_ref maternity) (chain nursery)) as Hold.
  { repeat constructor. }
  split; [exact Hold|].
  pose proof (birth_counts_before_births exp_series default_classes nursery maternity Hold)
    as Hbirth.
  cbv zeta in Hbirth. destruct Hbirth as (Hh & _ & Hs & _).
  split; [exact Hh|exact Hs].
Defined.


(** ** Parameter updates *)

Lemma check_params_Ok cls params :
  check_params cls params = Ok tt ↔ Forall (λ kv, ¬ refused cls kv) params.
Proof.
  induction params as [|[key value] rest IH]; simpl.
  - split; [constructor|done].
  - rewrite Forall_cons. unfold refused at 1. simpl.
    case_bool_decide as Hk; simpl.
    + destruct (is_float_or_int value); simpl.
      * rewrite IH. split; [|tauto]. intros ?. split; [|done]. intros [?|?]; done.
      * split; [done|]. intros [Hn _]. destruct Hn. by right.
    + split; [done|]. intros [Hn _]. destruct Hn. by left.
Qed.

Lemma check_params_Raise cls params e :
  check_params cls params = Raise e →
  ∃ key, key ∈ params.*1 ∧ (e = ValueError (InvalidParameter key)
                            ∨ e = ValueError (NotFloatOrInt key)).
Proof.
  induction params as [|[key value] rest IH]; simpl; [done|].
  destruct (negb (bool_decide _)).
  { intros [= <-]. exists key. split; [left|by left]. }
  destruct (negb (is_float_or_int value)).
  { intros [= <-]. exists key. split; [left|by right]. }
  intros (k & Hk & He)%IH. exists k. split; [by right|done].
Qed.

Lemma setattr_all_lookup cls params key :
  attributes (foldl (fun cls kv => setattr cls kv.1 kv.2) cls params) !! key =
    match list_find (λ kv, kv.1 = key) (reverse params) with
    | Some (_, kv) => Some kv.2
    | None => attributes cls !! key
    end.
Proof.
  revert cls. induction params as [|[k v] rest IH] using rev_ind; intros cls; [done|].
  rewrite foldl_app, reverse_snoc. cbn.
  destruct (decide (k = key)) as [->|Hne].
  - apply lookup_insert_eq.
  - rewrite lookup_insert_ne by done. rewrite IH.
    destruct (list_find _ (reverse rest)) as [[i kv]|]; done.
Qed.

Lemma setattr_all_defaults cls params :
  default_params (foldl (fun cls kv => setattr cls kv.1 kv.2) cls params)
  = default_params cls.
Proof. revert cls. induction params as [|kv rest IH]; intros cls; [done|]. simpl. by rewrite IH. Qed.

(** C7.  A bulk parameter update on a class, for a dictionary [params]
    (no key twice).  If an item has a key outside [default_params] or a value
    that is neither a float nor an int, the call raises a [ValueError] and
    the class is as it was; if no item is refused, every listed parameter
    has its new value afterwards, and every other attribute the value it
    had. *)
Theorem set_params_all_or_nothing cls params :
  NoDup params.*1 →
  (Exists (refused cls) params →
     ∃ m, set_params cls params = (Raise (ValueError m), cls)) ∧
  (Forall (λ kv, ¬ refused cls kv) params →
     ∃ cls', set_params cls params = (Ok tt, cls') ∧
             default_params cls' = default_params cls ∧
             (∀ key value, (key, value) ∈ params → attributes cls' !! key = Some value) ∧
             (∀ key, key ∉ params.*1 → attributes cls' !! key = attributes cls !! key)).
Proof.
  intros Hnd. unfold set_params. split.
  - intros Hex. destruct (check_params cls params) as [[]|e] eqn:Hc.
    + apply check_params_Ok in Hc. apply Exists_exists in Hex as (kv & Hin & Hr).
      destruct (proj1 (Forall_forall _ _) Hc kv Hin Hr).
    + apply check_params_Raise in Hc as (key & _ & [-> | ->]); eauto.
  - intros Hall. apply check_params_Ok in Hall as ->.
    eexists. split; [done|]. split; [apply setattr_all_defaults|]. split.
    + intros key value Hin. rewrite setattr_all_lookup.
      destruct (list_find _ (reverse params)) as [[i [k v]]|] eqn:Hf.
      * apply list_find_Some in Hf as (Hi & Hk & _). simpl in *. subst k.
        f_equal. apply list_elem_of_lookup_2 in Hi. rewrite elem_of_reverse in Hi.
        clear -Hnd Hin Hi. induction params as [|[k' v'] rest IH]; [by apply not_elem_of_nil in Hin|].
        simpl in Hnd. apply NoDup_cons in Hnd as [Hnot Hnd].
        apply elem_of_cons in Hin as [Hin|Hin]; apply elem_of_cons in Hi as [Hi|Hi].
        -- congruence.
        -- injection Hin as -> ->. destruct Hnot.
           by apply (list_elem_of_fmap_2 fst _ (k', v)).
        -- injection Hi as -> ->. destruct Hnot.
           by apply (list_elem_of_fmap_2 fst _ (k', value)).
        -- by apply IH.
      * apply list_find_None in Hf. rewrite <- elem_of_reverse in Hin.
        by destruct (proj1 (Forall_forall _ _) Hf _ Hin).
    + intros key Hnot. rewrite setattr_all_lookup.
      destruct (list_find _ (reverse params)) as [[i [k v]]|] eqn:Hf; [|done].
      apply list_find_Some in Hf as (Hi & Hk & _). simpl in *. subst k.
      destruct Hnot. apply list_elem_of_lookup_2 in Hi. rewrite elem_of_reverse in Hi.
      by apply (list_elem_of_fmap_2 fst _ (key, v)).
Qed.

Lemma set_params_all_or_nothing_witness :
  NoDup [("f_max"%string, PyFloat 10)].*1 ∧
  ∃ cls', set_params Lowland_class [("f_max"%string, PyFloat 10)] = (Ok tt, cls') ∧
          attributes cls' !! "f_max"%string = Some (PyFloat 10).
Proof.
  assert (NoDup [("f_max"%string, PyFloat 10)].*1) as Hnd.
  { simpl. apply NoDup_singleton. }
  split; [exact Hnd|].
  destruct (set_params_all_or_nothing Lowland_class [("f_max"%string, PyFloat 10)] Hnd)
    as [_ Hvalid].
  destruct Hvalid as (cls' & Hrun & _ & Hnew & _).
  { repeat constructor. unfold refused. simpl. intros [Hk|Hv]; [|done].
    apply Hk. left. }
  exists cls'. split; [exact Hrun|]. apply Hnew. left.
Defined.


(** ** Placing animals *)

Section Placement.
Context (P : Classes).

Lemma Cell_add_animal_Water w animal s :
  landtype w = Water → Cell_add_animal P w animal s = Raise IllegalActionError.
Proof. intros Hw. unfold Cell_add_animal. by rewrite Hw. Qed.

Lemma place_at_cons loc animal rest isl s :
  place_at P loc (animal :: rest) isl s =
    match island_map isl !! loc with
    | None => (Raise KeyError, (isl, s))
    | Some c =>
        match Cell_add_animal P c animal s with
        | Raise e => (Raise e, (isl, s))
        | Ok (c', s') =>
            place_at P loc rest (set_island_map isl (<[loc := c']> (island_map isl))) s'
        end
    end.
Proof. done. Qed.

(** Placing animals leaves every Water cell as it is. *)
Lemma place_at_keeps_water loc animals isl s at_w w :
  landtype w = Water →
  island_map isl !! at_w = Some w →
  island_map (place_at P loc animals isl s).2.1 !! at_w = Some w.
Proof.
  intros Hw. revert isl s. induction animals as [|animal rest IH]; intros isl s Hat; [done|].
  rewrite place_at_cons.
  destruct (island_map isl !! loc) as [c|] eqn:Hc; [|done].
  destruct (Cell_add_animal P c animal s) as [[c' s']|e] eqn:Hadd; [|done].
  apply IH. simpl. rewrite lookup_insert_ne; [done|].
  intros ->. rewrite Hat in Hc. injection Hc as <-.
  by rewrite Cell_add_animal_Water in Hadd.
Qed.

Lemma place_animals_keeps_water population isl s at_w w :
  landtype w = Water →
  island_map isl !! at_w = Some w →
  island_map (Island_place_animals P population isl s).2.1 !! at_w = Some w.
Proof.
  intros Hw. revert isl s.
  induction population as [|p rest IH]; intros isl s Hat; [done|]. simpl.
  pose proof (place_at_keeps_water (loc p) (pop p) isl s at_w w Hw Hat) as Hp.
  destruct (place_at P (loc p) (pop p) isl s) as [[[]|e] [isl' s']]; simpl in *; [|done].
  by apply IH.
Qed.

Lemma place_animals_app before after isl s isl1 s1 :
  Island_place_animals P before isl s = (Ok tt, (isl1, s1)) →
  Island_place_animals P (before ++ after) isl s = Island_place_animals P after isl1 s1.
Proof.
  revert isl s. induction before as [|p rest IH]; intros isl s; simpl.
  - by intros [= -> ->].
  - destruct (place_at P (loc p) (pop p) isl s) as [[[]|e] [isl' s']]; [|done].
    apply IH.
Qed.

(** C9.  Adding an animal to a Water cell raises [IllegalActionError],
    whatever the animal.  So does [place_animals] when, the entries before
    having been placed, it comes to an entry with an animal for a Water
    location: the call ends with [IllegalActionError], the island is as the
    entries before left it, and the Water cell is as it was before the
    call, its populations included. *)
Theorem water_placement_is_rejected before at_w animal rest after isl s isl1 s1 w :
  landtype w = Water →
  island_map isl !! at_w = Some w →
  Island_place_animals P before isl s = (Ok tt, (isl1, s1)) →
  (∀ s', Cell_add_animal P w animal s' = Raise IllegalActionError) ∧
  Island_place_animals P (before ++ {| loc := at_w; pop := animal :: rest |} :: after) isl s
    = (Raise IllegalActionError, (isl1, s1)) ∧
  island_map isl1 !! at_w = Some w.
Proof.
  intros Hw Hat Hbefore.
  pose proof (place_animals_keeps_water before isl s at_w w Hw Hat) as Hkept.
  rewrite Hbefore in Hkept. simpl in Hkept.
  split; [intros s'; by apply Cell_add_animal_Water|]. split; [|done].
  rewrite (place_animals_app _ _ _ _ _ _ Hbefore). simpl.
  by rewrite Hkept, Cell_add_animal_Water.
Qed.

End Placement.

Lemma water_placement_is_rejected_witness :
  landtype (new_cell default_f_max Water) = Water ∧
  island_map single_lowland !! (1, 1)%Z = Some (new_cell default_f_max Water) ∧
  Island_place_animals default_classes
    ([] ++ {| loc := (1, 1)%Z; pop := herbivore_5_20 :: [] |} :: [])
    single_lowland (initial_state (replay [] []))
  = (Raise IllegalActionError, (single_lowland, initial_state (replay [] []))).
Proof.
  assert (island_map single_lowland !! (1, 1)%Z = Some (new_cell default_f_max Water)) as Hat
    by (vm_compute; reflexivity).
  split; [reflexivity|]. split; [exact Hat|].
  destruct (water_placement_is_rejected default_classes [] (1, 1)%Z herbivore_5_20 [] []
              single_lowland (initial_state (replay [] []))
              single_lowland (initial_state (replay [] []))
              (new_cell default_f_max Water) eq_refl Hat eq_refl) as (_ & Hraise & _).
  exact Hraise.
Defined.


(** ** Migration *)

Lemma list_remove_Ok x l :
  x ∈ l → ∃ l1 l2, l = l1 ++ x :: l2 ∧ list_remove x l = Ok (l1 ++ l2).
Proof.
  induction l as [|y l IH]; intros Hin; [by apply not_elem_of_nil in Hin|].
  simpl. destruct (decide (y = x)) as [->|Hne].
  - by exists [], l.
  - apply elem_of_cons in Hin as [->|Hin]; [done|].
    destruct (IH Hin) as (l1 & l2 & -> & ->). by exists (y :: l1), l2.
Qed.

Lemma head_count_cons m c coords :
  head_count m (c :: coords) = Cell_num_animals (habitable_cell m c) + head_count m coords.
Proof. done. Qed.

Lemma head_count_insert_other m coords k cell :
  k ∉ coords → head_count (<[k := cell]> m) coords = head_count m coords.
Proof.
  induction coords as [|c coords IH]; intros Hk; [done|].
  rewrite !head_count_cons, IH by (intros ?; apply Hk; by right).
  unfold habitable_cell. rewrite lookup_total_insert_ne; [done|].
  intros ->. apply Hk. left.
Qed.

Lemma head_count_insert m coords k cell :
  NoDup coords → k ∈ coords →
  head_count (<[k := cell]> m) coords + Cell_num_animals (habitable_cell m k)
  = head_count m coords + Cell_num_animals cell.
Proof.
  induction coords as [|c coords IH]; intros Hnd Hin; [by apply not_elem_of_nil in Hin|].
  apply NoDup_cons in Hnd as [Hc Hnd]. rewrite !head_count_cons.
  destruct (decide (c = k)) as [->|Hne].
  - rewrite head_count_insert_other by done.
    unfold habitable_cell. rewrite lookup_total_insert_eq. lia.
  - apply elem_of_cons in Hin as [->|Hin]; [done|].
    unfold habitable_cell at 1. rewrite lookup_total_insert_ne by done.
    fold (habitable_cell m c). specialize (IH Hnd Hin). lia.
Qed.

Lemma Island_num_animals_head_count isl :
  Island_num_animals isl = head_count (island_map isl) (habitable_map isl).
Proof.
  unfold Island_num_animals.
  generalize (habitable_map isl). intros l.
  assert (∀ n, foldl (λ pop c, pop + Cell_num_animals (habitable_cell (island_map isl) c)) n l
             = n + head_count (island_map isl) l) as H; [|apply H].
  induction l as [|c l IH]; intros n.
  - unfold head_count. simpl. lia.
  - rewrite head_count_cons. simpl. rewrite IH. lia.
Qed.

Lemma Cell_num_animals_chain cell : Cell_num_animals cell = length (chain cell).
Proof. unfold Cell_num_animals, chain. by rewrite length_app. Qed.

Lemma place_animal_chain cell a s :
  chain (Baseland_place_animal cell a s) ≡ₚ a :: chain cell.
Proof.
  unfold Baseland_place_animal, chain.
  destruct (species (objs s !!! a)); simpl.
  - rewrite <- app_assoc. simpl. by rewrite <- Permutation_middle.
  - rewrite app_assoc. by rewrite <- Permutation_cons_append.
Qed.

Lemma place_animal_habitable cell a s :
  is_habitable (Baseland_place_animal cell a s) = is_habitable cell.
Proof. unfold Baseland_place_animal. by destruct (species (objs s !!! a)). Qed.

Lemma place_animal_herbivores cell a s b :
  b ∈ herbivores (Baseland_place_animal cell a s) →
  b ∈ herbivores cell ∨ (b = a ∧ species (objs s !!! a) = Herbivore).
Proof.
  unfold Baseland_place_animal. destruct (species (objs s !!! a)); simpl; [|by left].
  intros [?|Hb]%elem_of_app; [by left|]. apply list_elem_of_singleton in Hb. by right.
Qed.

Lemma place_animal_carnivores cell a s b :
  b ∈ carnivores (Baseland_place_animal cell a s) →
  b ∈ carnivores cell ∨ (b = a ∧ species (objs s !!! a) = Carnivore).
Proof.
  unfold Baseland_place_animal. destruct (species (objs s !!! a)); simpl; [by left|].
  intros [?|Hb]%elem_of_app; [by left|]. apply list_elem_of_singleton in Hb. by right.
Qed.

Lemma remove_animal_Ok cell a s :
  a ∈ chain cell →
  (∀ b, b ∈ herbivores cell → species (objs s !!! b) = Herbivore) →
  (∀ b, b ∈ carnivores cell → species (objs s !!! b) = Carnivore) →
  ∃ cell', Baseland_remove_animal cell a s = Ok cell' ∧
           is_habitable cell' = is_habitable cell ∧
           chain cell ≡ₚ a :: chain cell' ∧
           (∀ b, b ∈ herbivores cell' → b ∈ herbivores cell) ∧
           (∀ b, b ∈ carnivores cell' → b ∈ carnivores cell).
Proof.
  intros Hin Hh Hc. unfold Baseland_remove_animal, chain in *.
  destruct (species (objs s !!! a)) eqn:Hsp.
  - assert (a ∈ herbivores cell) as Ha.
    { apply elem_of_app in Hin as [?|Hin]; [done|]. apply Hc in Hin. congruence. }
    destruct (list_remove_Ok a _ Ha) as (l1 & l2 & Hl & ->). simpl.
    eexists. split; [done|]. split; [done|]. simpl. rewrite Hl. split.
    { rewrite <- !app_assoc. simpl. by rewrite <- Permutation_middle. }
    split; [|done]. intros b Hb. apply elem_of_app in Hb as [?|?].
    + apply elem_of_app. by left.
    + apply elem_of_app. right. by right.
  - assert (a ∈ carnivores cell) as Ha.
    { apply elem_of_app in Hin as [Hin|?]; [|done]. apply Hh in Hin. congruence. }
    destruct (list_remove_Ok a _ Ha) as (l1 & l2 & Hl & ->). simpl.
    eexists. split; [done|]. split; [done|]. simpl. rewrite Hl. split.
    { rewrite !app_assoc. by rewrite <- Permutation_middle. }
    split; [done|]. intros b Hb. apply elem_of_app in Hb as [?|?].
    + apply elem_of_app. by left.
    + apply elem_of_app. right. by right.
Qed.

Lemma habitable_cell_lookup m c cell :
  m !! c = Some cell → habitable_cell m c = cell.
Proof. intros H. unfold habitable_cell. by apply lookup_total_correct. Qed.

(** One relocation, from a cell that holds the animal to another habitable
    cell: it succeeds, keeps the cells well formed and the head count, and
    changes the whereabouts of that animal only. *)
Lemma relocate_ok hab m o s a from to :
  cells_wf hab m o → objs s = o → from ∈ hab → to ∈ hab → from ≠ to →
  a ∈ chain (habitable_cell m from) →
  ∃ m', relocate a from to m s = Ok (m', record (Moved a from to) s) ∧
        cells_wf hab m' o ∧
        head_count m' hab = head_count m hab ∧
        (∀ c, c ∉ hab → m' !! c = m !! c) ∧
        a ∈ chain (habitable_cell m' to) ∧
        (∀ c b, b ≠ a →
           (b ∈ chain (habitable_cell m' c) ↔ b ∈ chain (habitable_cell m c))) ∧
        (∀ c, c ∈ hab → a ∈ chain (habitable_cell m' c) → c = to).
Proof.
  intros Hwf Ho Hfrom Hto Hne Ha.
  destruct (proj1 (wf_habitable _ _ _ Hwf to) Hto) as (dest & Hdest & Hdh).
  destruct (proj1 (wf_habitable _ _ _ Hwf from) Hfrom) as (origin & Horigin & Hoh).
  rewrite (habitable_cell_lookup _ _ _ Horigin) in Ha.
  destruct (remove_animal_Ok origin a s Ha) as (origin' & Hrem & Hh' & Hperm & Hsubh & Hsubc).
  { intros b Hb. rewrite Ho. apply (wf_herbivores _ _ _ Hwf from); [done|].
    by rewrite (habitable_cell_lookup _ _ _ Horigin). }
  { intros b Hb. rewrite Ho. apply (wf_carnivores _ _ _ Hwf from); [done|].
    by rewrite (habitable_cell_lookup _ _ _ Horigin). }
  set (dest' := Baseland_place_animal dest a s).
  set (m' := <[from := origin']> (<[to := dest']> m)).
  assert (habitable_cell m' from = origin') as Hcf.
  { apply habitable_cell_lookup. apply lookup_insert_eq. }
  assert (habitable_cell m' to = dest') as Hct.
  { apply habitable_cell_lookup. unfold m'.
    rewrite lookup_insert_ne by done. apply lookup_insert_eq. }
  assert (∀ c, c ≠ from → c ≠ to → habitable_cell m' c = habitable_cell m c) as Hco.
  { intros c H1 H2. unfold habitable_cell, m'.
    by rewrite !lookup_total_insert_ne. }
  assert (a ∉ chain dest) as Hnotin.
  { intros Hin. apply Hne. apply (wf_apart _ _ _ Hwf from to a); try done.
    - by rewrite (habitable_cell_lookup _ _ _ Horigin).
    - by rewrite (habitable_cell_lookup _ _ _ Hdest). }
  assert (NoDup (chain origin)) as Hndo.
  { rewrite <- (habitable_cell_lookup _ _ _ Horigin). by apply (wf_once _ _ _ Hwf). }
  assert (NoDup (chain dest)) as Hndd.
  { rewrite <- (habitable_cell_lookup _ _ _ Hdest). by apply (wf_once _ _ _ Hwf). }
  assert (NoDup (a :: chain origin')) as Hndo' by by rewrite <- Hperm.
  apply NoDup_cons in Hndo' as [Hao' Hndo'].
  assert (∀ c b, b ≠ a →
            (b ∈ chain (habitable_cell m' c) ↔ b ∈ chain (habitable_cell m c))) as Hframe.
  { intros c b Hb. destruct (decide (c = from)) as [->|H1]; [|destruct (decide (c = to)) as [->|H2]].
    - rewrite Hcf, (habitable_cell_lookup _ _ _ Horigin), Hperm, elem_of_cons. tauto.
    - rewrite Hct, (habitable_cell_lookup _ _ _ Hdest). unfold dest'.
      rewrite place_animal_chain, elem_of_cons. tauto.
    - by rewrite Hco. }
  assert (∀ c, c ∈ hab → a ∈ chain (habitable_cell m' c) → c = to) as Honly.
  { intros c Hc Hin. destruct (decide (c = from)) as [->|H1]; [|destruct (decide (c = to)) as [->|H2]];
      [|done|].
    - rewrite Hcf in Hin. done.
    - rewrite Hco in Hin by done.
      destruct H1. apply (wf_apart _ _ _ Hwf c from a); try done.
      by rewrite (habitable_cell_lookup _ _ _ Horigin). }
  exists m'. split; [|split; [|split; [|split; [|split; [|split]]]]]; try done.
  - unfold relocate. rewrite Hdest. fold dest'.
    rewrite lookup_insert_ne by done. rewrite Horigin. by rewrite Hrem.
  - split.
    + apply (wf_keys _ _ _ Hwf).
    + intros c. rewrite (wf_habitable _ _ _ Hwf c). unfold m'.
      destruct (decide (c = from)) as [->|H1]; [|destruct (decide (c = to)) as [->|H2]].
      * rewrite lookup_insert_eq, Horigin.
        split; intros (cell & [= <-] & Hc); eexists; (split; [done|congruence]).
      * rewrite lookup_insert_ne, lookup_insert_eq, Hdest by done.
        pose proof (place_animal_habitable dest a s) as Hp. fold dest' in Hp.
        split; intros (cell & [= <-] & Hc); eexists; (split; [done|congruence]).
      * by rewrite !lookup_insert_ne.
    + intros c Hc. destruct (decide (c = from)) as [->|H1]; [|destruct (decide (c = to)) as [->|H2]].
      * by rewrite Hcf.
      * rewrite Hct. unfold dest'. rewrite place_animal_chain. by apply NoDup_cons.
      * rewrite Hco by done. by apply (wf_once _ _ _ Hwf).
    + intros c c' b Hc Hc' Hb Hb'. destruct (decide (b = a)) as [->|Hba].
      * rewrite (Honly c), (Honly c'); done.
      * apply (wf_apart _ _ _ Hwf c c' b); try done; by apply Hframe.
    + intros c b Hc Hb. destruct (decide (c = from)) as [->|H1]; [|destruct (decide (c = to)) as [->|H2]].
      * rewrite Hcf in Hb. apply (wf_herbivores _ _ _ Hwf from); [done|].
        rewrite (habitable_cell_lookup _ _ _ Horigin). by apply Hsubh.
      * rewrite Hct in Hb. apply place_animal_herbivores in Hb as [Hb|[-> Hb]].
        -- apply (wf_herbivores _ _ _ Hwf to); [done|].
           by rewrite (habitable_cell_lookup _ _ _ Hdest).
        -- by rewrite <- Ho.
      * rewrite Hco in Hb by done. by apply (wf_herbivores _ _ _ Hwf c).
    + intros c b Hc Hb. destruct (decide (c = from)) as [->|H1]; [|destruct (decide (c = to)) as [->|H2]].
      * rewrite Hcf in Hb. apply (wf_carnivores _ _ _ Hwf from); [done|].
        rewrite (habitable_cell_lookup _ _ _ Horigin). by apply Hsubc.
      * rewrite Hct in Hb. apply place_animal_carnivores in Hb as [Hb|[-> Hb]].
        -- apply (wf_carnivores _ _ _ Hwf to); [done|].
           by rewrite (habitable_cell_lookup _ _ _ Hdest).
        -- by rewrite <- Ho.
      * rewrite Hco in Hb by done. by apply (wf_carnivores _ _ _ Hwf c).
    + intros c d Hc Hd. destruct (wf_neighbours _ _ _ Hwf c d Hc Hd) as [cell Hcell].
      unfold m'. rewrite !lookup_insert. repeat case_decide; eauto.
  - pose proof (head_count_insert (<[to := dest']> m) hab from origin'
                  (wf_keys _ _ _ Hwf) Hfrom) as H1.
    pose proof (head_count_insert m hab to dest' (wf_keys _ _ _ Hwf) Hto) as H2.
    fold m' in H1.
    assert (habitable_cell (<[to:=dest']> m) from = origin) as Hf1.
    { apply habitable_cell_lookup. by rewrite lookup_insert_ne. }
    rewrite Hf1 in H1. rewrite (habitable_cell_lookup _ _ _ Hdest) in H2.
    rewrite !Cell_num_animals_chain in H1, H2.
    apply Permutation_length in Hperm.
    pose proof (Permutation_length (place_animal_chain dest a s)) as Hpl.
    fold dest' in Hpl. simpl in Hperm, Hpl. lia.
  - intros c Hc. unfold m'. rewrite !lookup_insert_ne; [done| |]; by intros ->.
  - rewrite Hct. unfold dest'. rewrite place_animal_chain. left.
Qed.

Lemma randbelow_spec n s :
  0 < n →
  (randbelow n s).1 < n ∧ objs (randbelow n s).2 = objs s ∧
  log (randbelow n s).2 = log s ∧ next_ref (randbelow n s).2 = next_ref s.
Proof.
  intros Hn. unfold randbelow. simpl. split; [|done].
  assert (bits (rand s) (cursor (rand s)) mod N.of_nat n < N.of_nat n)%N
    by (apply N.mod_lt; lia).
  lia.
Qed.

Lemma coord_add_direction c d : d ∈ move_direction_map → coord_add c d ≠ c.
Proof.
  unfold move_direction_map, coord_add. destruct c as [i j].
  intros Hd. repeat (apply elem_of_cons in Hd as [->|Hd]); simpl;
    [..|by apply not_elem_of_nil in Hd]; intros [= ? ?]; lia.
Qed.

Lemma migrate_from_cons coord animal rest m migration s :
  migrate_from coord (animal :: rest) m migration s =
    let '(k, s1) := randbelow (length move_direction_map) s in
    let direction := move_direction_map !!! k in
    let new_coord := coord_add coord direction in
    match m !! new_coord with
    | None => Raise KeyError
    | Some dest =>
        if is_habitable dest then
          if bool_decide (direction = (-1, 0)%Z ∨ direction = (0, -1)%Z) then
            '(m', s2) ← relocate animal coord new_coord m s1;
            migrate_from coord rest m' migration s2
          else
            migrate_from coord rest m
              (migration ++ [{| p_from := coord; p_to := new_coord; p_animal := animal |}])
              s1
        else migrate_from coord rest m migration s1
    end.
Proof. done. Qed.

Lemma movers_cons_Moved a from to events :
  movers (Moved a from to :: events) = a :: movers events.
Proof. done. Qed.

Lemma movers_app l1 l2 : movers (l1 ++ l2) = movers l1 ++ movers l2.
Proof. unfold movers. apply omap_app. Qed.

(** The inner loop of [migrate], for animals [animals] that the cell at
    [X] holds and that are not on the holding list. *)
Lemma migrate_from_ok hab o X animals :
  ∀ m q s,
  cells_wf hab m o → objs s = o → X ∈ hab →
  NoDup animals → (∀ a, a ∈ animals → a ∈ chain (habitable_cell m X)) →
  held_ok hab m q → (∀ a, a ∈ animals → a ∉ p_animal <$> q) →
  ∃ m' newq s' moves,
    migrate_from X animals m q s = Ok (m', q ++ newq, s') ∧
    objs s' = o ∧ log s' = log s ++ moves ∧
    cells_wf hab m' o ∧ head_count m' hab = head_count m hab ∧
    (∀ c, c ∉ hab → m' !! c = m !! c) ∧
    held_ok hab m' (q ++ newq) ∧
    (∀ p, p ∈ newq → p_from p = X) ∧
    NoDup (movers moves ++ (p_animal <$> newq)) ∧
    (∀ a, a ∈ movers moves ++ (p_animal <$> newq) → a ∈ animals) ∧
    Forall (early_move hab m' X) moves ∧
    (∀ c b, b ∉ movers moves →
       (b ∈ chain (habitable_cell m' c) ↔ b ∈ chain (habitable_cell m c))).
Proof.
  induction animals as [|a rest IH]; intros m q s Hwf Ho HX Hnd Hin Hq Hnq.
  { exists m, [], s, []. rewrite !app_nil_r.
    split; [done|]. split; [done|]. split; [done|]. split; [done|].
    split; [done|]. split; [done|]. split; [done|].
    split; [intros ? Hp; by apply not_elem_of_nil in Hp|].
    split; [constructor|].
    split; [intros ? Hp; by apply not_elem_of_nil in Hp|].
    split; [constructor|done]. }
  apply NoDup_cons in Hnd as [Har Hnd].
  rewrite migrate_from_cons.
  destruct (randbelow_spec (length move_direction_map) s) as (Hk & Ho1 & Hl1 & _);
    [simpl; lia|].
  destruct (randbelow (length move_direction_map) s) as [k s1]. simpl in Hk, Ho1, Hl1.
  cbv zeta beta iota.
  set (direction := move_direction_map !!! k).
  assert (direction ∈ move_direction_map) as Hd.
  { apply list_elem_of_lookup_total_2. simpl. lia. }
  set (new_coord := coord_add X direction).
  destruct (wf_neighbours _ _ _ Hwf X direction HX Hd) as [dest Hdest].
  fold new_coord in Hdest. rewrite Hdest.
  assert (∀ m1, (∀ c b, b ≠ a → (b ∈ chain (habitable_cell m1 c)
                                   ↔ b ∈ chain (habitable_cell m c))) →
                ∀ b, b ∈ rest → b ∈ chain (habitable_cell m1 X)) as Hrest.
  { intros m1 Hf b Hb. apply Hf; [by intros ->|]. apply Hin. by right. }
  destruct (is_habitable dest) eqn:Hhab.
  2:{ (* Water: the animal stays *)
    assert (objs s1 = o) as Hor by congruence.
    destruct (IH m q s1 Hwf Hor HX Hnd) as (m' & newq & s' & moves & Hrun & Hres);
      [| done |..].
    - intros b Hb. apply Hin. by right.
    - intros b Hb. apply Hnq. by right.
    - exists m', newq, s', moves. rewrite Hrun.
      destruct Hres as (? & Hlog & ? & ? & ? & ? & ? & ? & Hsub & ? & ?).
      split; [done|]. split; [done|]. split; [congruence|].
      split; [done|]. split; [done|]. split; [done|]. split; [done|].
      split; [done|]. split; [done|].
      split; [|done]. intros b Hb. right. by apply Hsub. }
  assert (new_coord ∈ hab) as Hnew by (apply (wf_habitable _ _ _ Hwf); eauto).
  assert (X ≠ new_coord) as Hne.
  { intros Heq. symmetry in Heq. by apply coord_add_direction in Heq. }
  case_bool_decide as Hdir.
  - (* up or left: relocated at once *)
    destruct (relocate_ok hab m o s1 a X new_coord Hwf) as
      (m1 & Hrel & Hwf1 & Hcount1 & Hout1 & Hat1 & Hframe1 & Honly1); try done.
    { congruence. } { apply Hin. left. }
    rewrite Hrel. simpl.
    assert (objs (record (Moved a X new_coord) s1) = o) as Hor.
    { unfold record. simpl. congruence. }
    destruct (IH m1 q (record (Moved a X new_coord) s1) Hwf1 Hor HX Hnd) as
      (m' & newq & s' & moves & Hrun & Ho' & Hlog & Hwf' & Hcount' & Hout' & Hq' & Hfrom'
       & Hnd' & Hsub' & Hearly' & Hframe').
    + by apply Hrest.
    + intros p Hp. destruct (Hq p Hp) as (? & ? & ? & Hpa & ?).
      repeat split; try done. apply Hframe1; [|done].
      intros Heq. apply (Hnq a); [left|]. rewrite <- Heq. by apply list_elem_of_fmap_2.
    + intros b Hb. apply Hnq. by right.
    + exists m', newq, s', (Moved a X new_coord :: moves). rewrite Hrun.
      assert (a ∉ movers moves ++ (p_animal <$> newq)) as Hfresh.
      { intros Hin'. by apply Hsub' in Hin'. }
      split; [done|]. split; [done|]. split.
      { rewrite Hlog. unfold record. simpl. rewrite Hl1. by rewrite <- app_assoc. }
      split; [done|]. split; [congruence|]. split.
      { intros c Hc. rewrite Hout', Hout1; done. }
      split; [done|]. split; [done|]. split.
      { rewrite movers_cons_Moved. simpl. by apply NoDup_cons. }
      split.
      { rewrite movers_cons_Moved. simpl. intros b [->|Hb]%elem_of_cons; [left|].
        right. by apply Hsub'. }
      split.
      { constructor; [|done]. exists a, direction. fold new_coord.
        repeat split; try done. apply Hframe'; [|done].
        intros Hm. apply Hfresh. apply elem_of_app. by left. }
      intros c b Hb. rewrite movers_cons_Moved in Hb.
      rewrite Hframe', Hframe1; [done| |].
      * intros ->. apply Hb. left.
      * intros Hm. apply Hb. by right.
  - (* down or right: held back *)
    set (p := {| p_from := X; p_to := new_coord; p_animal := a |}).
    assert (objs s1 = o) as Hor by congruence.
    destruct (IH m (q ++ [p]) s1 Hwf Hor HX Hnd) as
      (m' & newq & s' & moves & Hrun & Ho' & Hlog & Hwf' & Hcount' & Hout' & Hq' & Hfrom'
       & Hnd' & Hsub' & Hearly' & Hframe').
    + intros b Hb. apply Hin. by right.
    + intros p' [Hp'|Hp']%elem_of_app; [by apply Hq|].
      apply list_elem_of_singleton in Hp' as ->. simpl.
      repeat split; try done; [apply Hin; left|]. by exists direction.
    + intros b Hb. rewrite fmap_app. simpl. intros [Hb'|Hb']%elem_of_app.
      * apply (Hnq b); [by right|done].
      * apply list_elem_of_singleton in Hb' as ->. done.
    + exists m', (p :: newq), s', moves.
      replace (q ++ p :: newq) with ((q ++ [p]) ++ newq) by (by rewrite <- app_assoc).
      rewrite Hrun.
      split; [done|]. split; [done|]. split; [congruence|].
      split; [done|]. split; [done|]. split; [done|]. split; [done|]. split.
      { intros p' [->|Hp']%elem_of_cons; [done|]. by apply Hfrom'. }
      split.
      { simpl. rewrite <- Permutation_middle. apply NoDup_cons. split; [|done].
        intros Hin'. by apply Hsub' in Hin'. }
      split.
      { simpl. intros b Hb. rewrite <- Permutation_middle in Hb.
        apply elem_of_cons in Hb as [->|Hb]; [left|]. right. by apply Hsub'. }
      split; done.
Qed.

Lemma row_major_up_left_first hab : row_major hab → up_left_first hab.
Proof.
  intros Hs seen c todo d -> Hd Hin.
  assert (row_major_lt (coord_add c d) c) as Hlt.
  { unfold row_major_lt, coord_add. destruct c as [i j].
    destruct Hd as [-> | ->]; simpl; lia. }
  assert (∀ x y, row_major_lt x y → row_major_lt y x → False) as Hasym.
  { unfold row_major_lt. intros [] []; simpl. lia. }
  apply elem_of_app in Hin as [?|Hin]; [done|exfalso].
  apply StronglySorted_app_1_r in Hs.
  apply elem_of_cons in Hin as [Heq|Hin].
  - rewrite Heq in Hlt. by eapply Hasym.
  - apply StronglySorted_cons in Hs as [Hall _].
    apply (proj1 (Forall_forall _ _) Hall) in Hin. by eapply Hasym.
Qed.

Lemma select_spec (test : nat → State → bool * State) l :
  (∀ a s, objs (test a s).2 = objs s ∧ log (test a s).2 = log s) →
  ∀ s, (select test l s).1 `sublist_of` l ∧
       objs (select test l s).2 = objs s ∧ log (select test l s).2 = log s.
Proof.
  intros Htest. induction l as [|a l IH]; intros s; simpl; [done|].
  destruct (Htest a s) as [Ho Hl]. destruct (test a s) as [b s1]. simpl in *.
  destruct (IH s1) as (Hsub & Ho' & Hl'). destruct (select test l s1) as [l' s2].
  simpl in *. split; [|split; congruence].
  destruct b; [by apply sublist_skip|by apply sublist_cons].
Qed.

Section Migration.
Context (exp : Q → Q) (P : Classes).

Lemma Animal_migrate_state a s :
  objs (Animal_migrate exp P a s).2 = objs s ∧ log (Animal_migrate exp P a s).2 = log s.
Proof. unfold Animal_migrate, random. done. Qed.

Lemma get_migrations_spec cell s :
  (Baseland_get_migrations exp P cell s).1 `sublist_of` chain cell ∧
  objs (Baseland_get_migrations exp P cell s).2 = objs s ∧
  log (Baseland_get_migrations exp P cell s).2 = log s.
Proof. apply select_spec. apply Animal_migrate_state. Qed.

(** The last loop of [migrate]: every held move is carried out. *)
Lemma migrate_held_ok hab o q :
  ∀ m s,
  cells_wf hab m o → objs s = o → held_ok hab m q → NoDup (p_animal <$> q) →
  ∃ m' s' moves,
    migrate_held q m s = Ok (m', s') ∧ objs s' = o ∧ log s' = log s ++ moves ∧
    cells_wf hab m' o ∧ head_count m' hab = head_count m hab ∧
    (∀ c, c ∉ hab → m' !! c = m !! c) ∧
    movers moves = p_animal <$> q ∧ Forall (hab_move hab) moves.
Proof.
  induction q as [|p q IH]; intros m s Hwf Ho Hq Hnd.
  { exists m, s, []. rewrite app_nil_r. repeat (split; [done|]). constructor. }
  rewrite fmap_cons in Hnd. apply NoDup_cons in Hnd as [Hp Hnd].
  destruct (Hq p) as (Hfrom & Hto & Hne & Hat & d & Hd & Hpd); [left|].
  destruct (relocate_ok hab m o s (p_animal p) (p_from p) (p_to p) Hwf Ho Hfrom Hto Hne Hat)
    as (m1 & Hrel & Hwf1 & Hcount1 & Hout1 & Hat1 & Hframe1 & Honly1).
  assert (objs (record (Moved (p_animal p) (p_from p) (p_to p)) s) = o) as Hor.
  { unfold record. simpl. congruence. }
  destruct (IH m1 _ Hwf1 Hor) as
    (m' & s' & moves & Hrun & Ho' & Hlog & Hwf' & Hcount' & Hout' & Hmv & Hall); [|done|].
  { intros p' Hp'. destruct (Hq p') as (? & ? & ? & Hat' & ?); [by right|].
    repeat split; try done. apply Hframe1; [|done].
    intros Heq. apply Hp. rewrite <- Heq. by apply list_elem_of_fmap_2. }
  exists m', s', (Moved (p_animal p) (p_from p) (p_to p) :: moves).
  split.
  { simpl. rewrite Hrel. simpl. by rewrite Hrun. }
  split; [done|]. split.
  { rewrite Hlog. unfold record. simpl. by rewrite <- app_assoc. }
  split; [done|]. split; [congruence|]. split.
  { intros c Hc. rewrite Hout', Hout1; done. }
  split; [by rewrite movers_cons_Moved, Hmv|].
  constructor; [|done]. exists (p_animal p), (p_from p), d. rewrite <- Hpd. done.
Qed.

Lemma migrate_cells_cons coord rest m migration s :
  migrate_cells exp P (coord :: rest) m migration s =
    let '(animals, s1) := Baseland_get_migrations exp P (habitable_cell m coord) s in
    migrate_from coord animals m migration s1
      ≫= λ '(m', migration', s2), migrate_cells exp P rest m' migration' s2.
Proof. done. Qed.

Lemma early_move_hab_move hab m c e : c ∈ hab → early_move hab m c e → hab_move hab e.
Proof.
  intros Hc (a & d & -> & Hd & Hin & _). exists a, c, d. repeat split; try done.
  unfold move_direction_map. destruct Hd as [-> | ->]; [left|right; right; left].
Qed.

(** The outer loop of [migrate].  [seen] are the cells visited so far and
    [moved] the animals relocated so far; when cells above and to the left
    come first, no animal is relocated twice, none of the relocated animals
    is on the holding list, and all of them are in cells visited before. *)
Lemma migrate_cells_ok hab o todo :
  ∀ seen m q s moved,
  hab = seen ++ todo → cells_wf hab m o → objs s = o →
  held_ok hab m q → NoDup (p_animal <$> q) → (∀ p, p ∈ q → p_from p ∈ seen) →
  (up_left_first hab →
     NoDup moved ∧
     ∀ a, a ∈ moved → (a ∉ p_animal <$> q) ∧
                      ∃ c, c ∈ seen ∧ a ∈ chain (habitable_cell m c)) →
  ∃ m' q' s' moves,
    migrate_cells exp P todo m q s = Ok (m', q', s') ∧
    objs s' = o ∧ log s' = log s ++ moves ∧
    cells_wf hab m' o ∧ head_count m' hab = head_count m hab ∧
    (∀ c, c ∉ hab → m' !! c = m !! c) ∧
    held_ok hab m' q' ∧ NoDup (p_animal <$> q') ∧ Forall (hab_move hab) moves ∧
    (up_left_first hab →
       NoDup (moved ++ movers moves) ∧
       ∀ a, a ∈ moved ++ movers moves → a ∉ p_animal <$> q').
Proof.
  induction todo as [|X todo IH]; intros seen m q s moved Hhab Hwf Ho Hq Hndq Hseen HK.
  { exists m, q, s, []. rewrite !app_nil_r.
    split; [done|]. split; [done|]. split; [done|]. split; [done|].
    split; [done|]. split; [done|]. split; [done|]. split; [done|].
    split; [constructor|].
    intros Hulf. destruct (HK Hulf) as [Hnd Hm]. split; [done|].
    intros a Ha. by apply Hm. }
  assert (X ∈ hab) as HX by (rewrite Hhab; apply elem_of_app; right; left).
  assert (X ∉ seen) as HXs.
  { pose proof (wf_keys _ _ _ Hwf) as Hnd. rewrite Hhab in Hnd.
    apply NoDup_app in Hnd as (_ & Hd & _). intros Hin. apply (Hd X Hin). left. }
  assert (∀ c, c ∈ seen → c ∈ hab) as Hsh
    by (intros c Hc; rewrite Hhab; apply elem_of_app; by left).
  rewrite migrate_cells_cons.
  destruct (get_migrations_spec (habitable_cell m X) s) as (Hsub & Ho1 & Hl1).
  destruct (Baseland_get_migrations exp P (habitable_cell m X) s) as [animals s1].
  simpl in Hsub, Ho1, Hl1.
  assert (NoDup animals) as Hnda.
  { eapply sublist_NoDup; [|exact Hsub]. by apply (wf_once _ _ _ Hwf). }
  assert (∀ a, a ∈ animals → a ∈ chain (habitable_cell m X)) as Hin.
  { intros a Ha. by eapply elem_of_sublist. }
  assert (∀ a c, a ∈ animals → c ∈ seen → a ∉ chain (habitable_cell m c)) as Hfar.
  { intros a c Ha Hc Hac. apply HXs.
    rewrite (wf_apart _ _ _ Hwf X c a); auto. }
  assert (∀ a, a ∈ animals → a ∉ p_animal <$> q) as Hnq.
  { intros a Ha (p & -> & Hp)%list_elem_of_fmap.
    destruct (Hq p Hp) as (_ & _ & _ & Hat & _).
    apply (Hfar (p_animal p) (p_from p)); auto. }
  assert (objs s1 = o) as Hor by congruence.
  destruct (migrate_from_ok hab o X animals m q s1 Hwf Hor HX Hnda Hin Hq Hnq) as
    (m1 & newq & s2 & moves1 & Hrun1 & Ho2 & Hlog2 & Hwf1 & Hcount1 & Hout1 & Hq1 & Hfrom1
     & Hnd1 & Hsub1 & Hearly1 & Hframe1).
  rewrite Hrun1. simpl.
  apply NoDup_app in Hnd1 as (Hndm1 & Hdisj1 & Hndn1).
  assert (∀ a, a ∈ movers moves1 → a ∈ animals) as Hm1a.
  { intros a Ha. apply Hsub1, elem_of_app. by left. }
  assert (∀ a, a ∈ p_animal <$> newq → a ∈ animals) as Hn1a.
  { intros a Ha. apply Hsub1, elem_of_app. by right. }
  destruct (IH (seen ++ [X]) m1 (q ++ newq) s2 (moved ++ movers moves1)) as
    (m' & q' & s' & moves2 & Hrun2 & Ho' & Hlog' & Hwf' & Hcount' & Hout' & Hq' & Hndq'
     & Hall' & HK'); try done.
  - by rewrite <- app_assoc.
  - rewrite fmap_app. apply NoDup_app. split; [done|]. split; [|done].
    intros a Ha Ha'. by apply (Hnq a); [apply Hn1a|].
  - intros p [Hp|Hp]%elem_of_app.
    + apply elem_of_app. left. by apply Hseen.
    + apply elem_of_app. right. rewrite (Hfrom1 p Hp). left.
  - intros Hulf. destruct (HK Hulf) as [Hndm Hm].
    assert (∀ a, a ∈ moved → a ∉ animals) as Hold.
    { intros a Ha Ha'. destruct (Hm a Ha) as (_ & c & Hc & Hac).
      by apply (Hfar a c). }
    split.
    + apply NoDup_app. split; [done|]. split; [|done].
      intros a Ha Ha'. by apply (Hold a); [|apply Hm1a].
    + intros a [Ha|Ha]%elem_of_app.
      * destruct (Hm a Ha) as (Hnq' & c & Hc & Hac). split.
        -- rewrite fmap_app. intros [?|Hn]%elem_of_app; [done|].
           by apply (Hold a); [|apply Hn1a].
        -- exists c. split; [apply elem_of_app; by left|].
           apply Hframe1; [|done]. intros Hm1. by apply (Hold a); [|apply Hm1a].
      * split.
        -- rewrite fmap_app. intros [Hn|Hn]%elem_of_app.
           ++ by apply (Hnq a); [apply Hm1a|].
           ++ by apply (Hdisj1 a).
        -- apply list_elem_of_omap in Ha as (e & He & Hea).
           apply (proj1 (Forall_forall _ _) Hearly1) in He as (a' & d & -> & Hd & Hdh & Hat).
           injection Hea as ->.
           exists (coord_add X d). split; [|done].
           apply elem_of_app. left. by apply (Hulf seen X todo d).
  - exists m', q', s', (moves1 ++ moves2). rewrite Hrun2.
    split; [done|]. split; [done|]. split.
    { rewrite Hlog', Hlog2, Hl1. by rewrite <- app_assoc. }
    split; [done|]. split; [congruence|]. split.
    { intros c Hc. rewrite Hout', Hout1; done. }
    split; [done|]. split; [done|]. split.
    { apply Forall_app. split; [|done].
      eapply Forall_impl; [exact Hearly1|]. intros e. by apply early_move_hab_move. }
    intros Hulf. rewrite movers_app, app_assoc. by apply HK'.
Qed.

Lemma hab_move_legal hab m o e : cells_wf hab m o → hab_move hab e → legal_move hab m e.
Proof.
  intros Hwf (a & c & d & -> & Hc & Hto & Hd). simpl.
  split; [done|]. split; [by apply (wf_habitable _ _ _ Hwf)|]. by exists d.
Qed.

(** One call of [migrate] on a well-formed island. *)
Lemma Island_migrate_ok isl s :
  island_wf isl (objs s) →
  ∃ isl' s' moves,
    Island_migrate exp P isl s = Ok (isl', s') ∧
    island_wf isl' (objs s') ∧
    habitable_map isl' = habitable_map isl ∧
    Island_num_animals isl' = Island_num_animals isl ∧
    (∀ c, c ∉ habitable_map isl → island_map isl' !! c = island_map isl !! c) ∧
    log s' = log s ++ moves ∧
    Forall (legal_move (habitable_map isl) (island_map isl)) moves ∧
    (row_major (habitable_map isl) → NoDup (movers moves)).
Proof.
  intros Hwf. unfold island_wf in Hwf. unfold Island_migrate.
  destruct (migrate_cells_ok (habitable_map isl) (objs s) (habitable_map isl)
              [] (island_map isl) [] s []) as
    (m1 & q & s1 & moves1 & Hrun1 & Ho1 & Hlog1 & Hwf1 & Hcount1 & Hout1 & Hq1 & Hndq1
     & Hall1 & HK1); try done.
  { intros p Hp. by apply not_elem_of_nil in Hp. }
  { constructor. }
  { intros p Hp. by apply not_elem_of_nil in Hp. }
  { intros _. split; [constructor|]. intros a Ha. by apply not_elem_of_nil in Ha. }
  rewrite Hrun1. simpl.
  destruct (migrate_held_ok (habitable_map isl) (objs s) q m1 s1 Hwf1 Ho1 Hq1 Hndq1) as
    (m2 & s2 & moves2 & Hrun2 & Ho2 & Hlog2 & Hwf2 & Hcount2 & Hout2 & Hmv2 & Hall2).
  rewrite Hrun2. simpl.
  exists (set_island_map isl m2), s2, (moves1 ++ moves2).
  split; [done|]. split; [unfold island_wf; simpl; by rewrite Ho2|].
  split; [done|]. split.
  { rewrite !Island_num_animals_head_count. simpl. congruence. }
  split. { simpl. intros c Hc. rewrite Hout2, Hout1; done. }
  split. { rewrite Hlog2, Hlog1. by rewrite <- app_assoc. }
  split.
  { apply Forall_app. split; (eapply Forall_impl; [eassumption|]);
      intros e; by apply (hab_move_legal _ _ (objs s)). }
  intros Hrm. apply row_major_up_left_first in Hrm.
  destruct (HK1 Hrm) as [Hnd Hdisj]. simpl in Hnd, Hdisj.
  rewrite movers_app, Hmv2. apply NoDup_app. split; [done|]. split; [done|done].
Qed.

Lemma migrate_times_ok n :
  ∀ isl s, island_wf isl (objs s) →
  ∃ isl' s', migrate_times exp P n isl s = Ok (isl', s') ∧
             island_wf isl' (objs s') ∧
             Island_num_animals isl' = Island_num_animals isl.
Proof.
  induction n as [|n IH]; intros isl s Hwf; simpl.
  - by exists isl, s.
  - destruct (Island_migrate_ok isl s Hwf) as (isl1 & s1 & moves & -> & Hwf1 & _ & Hn1 & _).
    simpl. destruct (IH isl1 s1 Hwf1) as (isl' & s' & -> & Hwf' & Hn').
    exists isl', s'. split; [done|]. split; [done|]. congruence.
Qed.

(** X21.  On a well-formed island, one call of [migrate] raises nothing
    and conserves the number of animals, as does any number of calls in a
    row; every relocation goes from a habitable cell into a habitable
    neighbour, and cells that are not habitable are left as they were; and
    when the habitable cells are visited in row-major order, as
    [_build_island] arranges them, no animal is relocated twice. *)
Theorem migrate_conserves_and_moves_once isl s :
  island_wf isl (objs s) →
  ∃ isl' s' moves,
    Island_migrate exp P isl s = Ok (isl', s') ∧
    Island_num_animals isl' = Island_num_animals isl ∧
    (∀ c, c ∉ habitable_map isl → island_map isl' !! c = island_map isl !! c) ∧
    log s' = log s ++ moves ∧
    Forall (legal_move (habitable_map isl) (island_map isl)) moves ∧
    (row_major (habitable_map isl) → NoDup (movers moves)) ∧
    (∀ n, ∃ isl_n s_n, migrate_times exp P n isl s = Ok (isl_n, s_n) ∧
                       Island_num_animals isl_n = Island_num_animals isl).
Proof.
  intros Hwf.
  destruct (Island_migrate_ok isl s Hwf)
    as (isl' & s' & moves & Hrun & _ & _ & Hcount & Hout & Hlog & Hlegal & Honce).
  exists isl', s', moves. repeat (split; [done|]).
  intros n. destruct (migrate_times_ok n isl s Hwf) as (isl_n & s_n & ? & _ & ?).
  by exists isl_n, s_n.
Qed.

End Migration.

Lemma NoDup_bind_apart {A B} (f : A → list B) (l : list A) x y b :
  NoDup (l ≫= f) → x ∈ l → y ∈ l → b ∈ f x → b ∈ f y → NoDup l → x = y.
Proof.
  induction l as [|z l IH]; intros Hnd Hx Hy Hbx Hby Hl; [by apply not_elem_of_nil in Hx|].
  rewrite bind_cons in Hnd. apply NoDup_app in Hnd as (_ & Hdisj & Hnd).
  apply NoDup_cons in Hl as [_ Hl].
  apply elem_of_cons in Hx as [->|Hx]; apply elem_of_cons in Hy as [->|Hy]; try done.
  - destruct (Hdisj b Hbx). apply list_elem_of_bind. eauto.
  - destruct (Hdisj b Hby). apply list_elem_of_bind. eauto.
  - by apply IH.
Qed.

Lemma NoDup_bind_once {A B} (f : A → list B) (l : list A) x :
  NoDup (l ≫= f) → x ∈ l → NoDup (f x).
Proof.
  induction l as [|z l IH]; intros Hnd Hx; [by apply not_elem_of_nil in Hx|].
  rewrite bind_cons in Hnd. apply NoDup_app in Hnd as (Hz & _ & Hnd).
  apply elem_of_cons in Hx as [->|Hx]; [done|]. by apply IH.
Qed.

Lemma cells_wf_check_sound hab m o : cells_wf_check hab m o = true → cells_wf hab m o.
Proof.
  unfold cells_wf_check. rewrite !andb_true_iff.
  intros [[[[[Hk Hh] Hall] Hnd] Hsp] Hnb].
  apply bool_decide_eq_true in Hk, Hall, Hnd.
  rewrite forallb_forall in Hh, Hsp, Hnb.
  split.
  - done.
  - intros c. split.
    + intros Hc. apply list_elem_of_In, Hh, bool_decide_eq_true in Hc.
      destruct (m !! c) as [cell|]; [|done]. injection Hc as Hc. eauto.
    + intros (cell & Hcell & Hhab). by apply (Hall c cell).
  - intros c Hc. by apply (NoDup_bind_once (λ c, chain (habitable_cell m c)) hab).
  - intros c c' a Hc Hc' Ha Ha'.
    by apply (NoDup_bind_apart (λ c, chain (habitable_cell m c)) hab c c' a).
  - intros c a Hc Ha. apply list_elem_of_In, Hsp, andb_true_iff in Hc as [Hc _].
    rewrite forallb_forall in Hc. by apply list_elem_of_In, Hc, bool_decide_eq_true in Ha.
  - intros c a Hc Ha. apply list_elem_of_In, Hsp, andb_true_iff in Hc as [_ Hc].
    rewrite forallb_forall in Hc. by apply list_elem_of_In, Hc, bool_decide_eq_true in Ha.
  - intros c d Hc Hd. apply list_elem_of_In, Hnb in Hc.
    rewrite forallb_forall in Hc. by apply list_elem_of_In, Hc, bool_decide_eq_true in Hd.
Qed.

(** C1.  [migrate] on the island of [strait_reversed], whose habitable
    cells are visited from right to left: the island is well formed, and
    the one call relocates the herbivore twice.  The move to the left, out
    of the cell visited first, is applied at once; the cell it leads into is
    visited next and finds the herbivore again, and its move to the right
    goes through the holding list.  So the holding list keeps an animal
    from moving twice only when every cell above or to the left of a cell
    is visited before it. *)
Lemma migrate_twice_out_of_order :
  island_wf strait_reversed (objs strait.2) ∧
  log strait.2 = [] ∧
  log_of (Island_migrate exp_series default_classes strait_reversed strait.2)
    = Some [Moved 0 (2, 3)%Z (2, 2)%Z; Moved 0 (2, 2)%Z (2, 3)%Z] ∧
  ¬ NoDup (movers [Moved 0 (2, 3)%Z (2, 2)%Z; Moved 0 (2, 2)%Z (2, 3)%Z]).
Proof.
  split; [apply cells_wf_check_sound; vm_compute; reflexivity|].
  split; [vm_compute; reflexivity|].
  split; [vm_compute; reflexivity|].
  intros Hnd. apply NoDup_cons in Hnd as [Hin _]. apply Hin. left.
Qed.

Lemma migrate_conserves_and_moves_once_witness :
  island_wf strait.1 (objs strait.2) ∧
  ∃ isl' s' moves,
    Island_migrate exp_series default_classes strait.1 strait.2 = Ok (isl', s') ∧
    Island_num_animals isl' = Island_num_animals strait.1 ∧
    log s' = log strait.2 ++ moves ∧
    (row_major (habitable_map strait.1) → NoDup (movers moves)).
Proof.
  assert (island_wf strait.1 (objs strait.2)) as Hwf.
  { apply cells_wf_check_sound. vm_compute. reflexivity. }
  split; [exact Hwf|].
  destruct (migrate_conserves_and_moves_once exp_series default_classes _ _ Hwf)
    as (isl' & s' & moves & Hrun & Hcount & _ & Hlog & _ & Honce & _).
  exists isl', s', moves.
  split; [exact Hrun|]. split; [exact Hcount|]. split; [exact Hlog|exact Honce].
Defined.

(** ** No lookup error during migration *)

Lemma keeps_keys_refl m : keeps_keys m m.
Proof. by intros c. Qed.

Lemma keeps_keys_trans m1 m2 m3 : keeps_keys m1 m2 → keeps_keys m2 m3 → keeps_keys m1 m3.
Proof. intros H1 H2 c. specialize (H1 c). specialize (H2 c). tauto. Qed.

Lemma keeps_keys_insert m c cell : is_Some (m !! c) → keeps_keys m (<[c := cell]> m).
Proof.
  intros Hc c'. rewrite lookup_insert. case_decide as Heq; [|done].
  subst. split; [done|]. intros _. by eexists.
Qed.

Lemma grid_ok_keeps hab m m' : keeps_keys m m' → grid_ok hab m → grid_ok hab m'.
Proof.
  intros Hk [H1 H2]. split.
  - intros c Hc. apply Hk. by apply H1.
  - intros c d Hc Hd. apply Hk. by apply H2.
Qed.

Lemma relocate_keys a from to m s :
  is_Some (m !! to) → is_Some (m !! from) →
  match relocate a from to m s with
  | Ok (m', _) => keeps_keys m m'
  | Raise e => e ≠ KeyError
  end.
Proof.
  intros [dest Hto] Hfrom. unfold relocate. rewrite Hto.
  assert (keeps_keys m (<[to:=Baseland_place_animal dest a s]> m)) as Hk1
    by (apply keeps_keys_insert; eauto).
  apply Hk1 in Hfrom as Hfrom1. destruct Hfrom1 as [origin ->].
  unfold Baseland_remove_animal.
  destruct (species (objs s !!! a)).
  - destruct (list_remove a (herbivores origin)) as [l|e] eqn:Hrem; simpl.
    + eapply keeps_keys_trans; [exact Hk1|]. apply keeps_keys_insert. by apply Hk1.
    + clear -Hrem. revert e Hrem. induction (herbivores origin) as [|y l IH]; simpl.
      * by intros e [= <-].
      * destruct (decide (y = a)); [done|]. intros e.
        destruct (list_remove a l); simpl; [done|]. intros [= <-]. by apply IH.
  - destruct (list_remove a (carnivores origin)) as [l|e] eqn:Hrem; simpl.
    + eapply keeps_keys_trans; [exact Hk1|]. apply keeps_keys_insert. by apply Hk1.
    + clear -Hrem. revert e Hrem. induction (carnivores origin) as [|y l IH]; simpl.
      * by intros e [= <-].
      * destruct (decide (y = a)); [done|]. intros e.
        destruct (list_remove a l); simpl; [done|]. intros [= <-]. by apply IH.
Qed.

Lemma held_on_map_keeps m m' q : keeps_keys m m' → held_on_map m q → held_on_map m' q.
Proof. intros Hk Hq p Hp. destruct (Hq p Hp). split; by apply Hk. Qed.

Lemma migrate_from_keys hab X animals :
  X ∈ hab → ∀ m q s, grid_ok hab m → held_on_map m q →
  match migrate_from X animals m q s with
  | Ok (m', q', _) => keeps_keys m m' ∧ held_on_map m' q'
  | Raise e => e ≠ KeyError
  end.
Proof.
  intros HX. induction animals as [|a rest IH]; intros m q s Hg Hq; [done|].
  rewrite migrate_from_cons.
  destruct (randbelow_spec (length move_direction_map) s) as (Hk & _); [simpl; lia|].
  destruct (randbelow (length move_direction_map) s) as [k s1]. simpl in Hk.
  cbv zeta beta iota.
  set (direction := move_direction_map !!! k).
  assert (direction ∈ move_direction_map) as Hd.
  { apply list_elem_of_lookup_total_2. simpl. lia. }
  destruct (proj2 Hg X direction HX Hd) as [dest Hdest]. rewrite Hdest.
  destruct (is_habitable dest); [|by apply IH].
  case_bool_decide.
  - pose proof (relocate_keys a X (coord_add X direction) m s1) as Hrel.
    destruct (relocate a X (coord_add X direction) m s1) as [[m1 s2]|e]; simpl.
    + assert (keeps_keys m m1) as Hk1 by (apply Hrel; [eauto|by apply (proj1 Hg)]).
      specialize (IH m1 q s2 (grid_ok_keeps _ _ _ Hk1 Hg) (held_on_map_keeps _ _ _ Hk1 Hq)).
      destruct (migrate_from X rest m1 q s2) as [[[m' q'] s']|e]; [|done].
      destruct IH as [Hk' Hq']. split; [|done]. by eapply keeps_keys_trans.
    + apply Hrel; [eauto|by apply (proj1 Hg)].
  - apply IH; [done|]. intros p [Hp|Hp]%elem_of_app; [by apply Hq|].
    apply list_elem_of_singleton in Hp as ->. simpl. split; [by apply (proj1 Hg)|eauto].
Qed.

Section NoLookupError.
Context (exp : Q → Q) (P : Classes).

Lemma migrate_cells_keys hab todo :
  (∀ c, c ∈ todo → c ∈ hab) → ∀ m q s, grid_ok hab m → held_on_map m q →
  match migrate_cells exp P todo m q s with
  | Ok (m', q', _) => keeps_keys m m' ∧ held_on_map m' q'
  | Raise e => e ≠ KeyError
  end.
Proof.
  induction todo as [|X todo IH]; intros Hsub m q s Hg Hq.
  { split; [apply keeps_keys_refl|done]. }
  rewrite migrate_cells_cons.
  destruct (Baseland_get_migrations exp P (habitable_cell m X) s) as [animals s1].
  pose proof (migrate_from_keys hab X animals (Hsub X ltac:(left)) m q s1 Hg Hq) as Hin.
  destruct (migrate_from X animals m q s1) as [[[m1 q1] s2]|e]; simpl; [|done].
  destruct Hin as [Hk1 Hq1].
  specialize (IH (λ c Hc, Hsub c ltac:(by right)) m1 q1 s2 (grid_ok_keeps _ _ _ Hk1 Hg) Hq1).
  destruct (migrate_cells exp P todo m1 q1 s2) as [[[m' q'] s']|e]; [|done].
  destruct IH as [Hk' Hq']. split; [|done]. by eapply keeps_keys_trans.
Qed.

Lemma migrate_held_keys q :
  ∀ m s, held_on_map m q →
  match migrate_held q m s with
  | Ok _ => True
  | Raise e => e ≠ KeyError
  end.
Proof.
  induction q as [|p q IH]; intros m s Hq; [done|]. simpl.
  destruct (Hq p) as [Hfrom Hto]; [left|].
  pose proof (relocate_keys (p_animal p) (p_from p) (p_to p) m s Hto Hfrom) as Hrel.
  destruct (relocate (p_animal p) (p_from p) (p_to p) m s) as [[m1 s1]|e]; simpl; [|done].
  apply IH. apply (held_on_map_keeps m); [done|]. intros p' Hp'. apply Hq. by right.
Qed.

Lemma Island_migrate_no_KeyError isl s :
  grid_ok (habitable_map isl) (island_map isl) →
  Island_migrate exp P isl s ≠ Raise KeyError.
Proof.
  intros Hg. unfold Island_migrate.
  pose proof (migrate_cells_keys (habitable_map isl) (habitable_map isl) (λ c Hc, Hc)
                (island_map isl) [] s Hg) as Hcells.
  destruct (migrate_cells exp P (habitable_map isl) (island_map isl) [] s)
    as [[[m q] s1]|e]; simpl.
  - destruct Hcells as [_ Hq]. { intros p Hp. by apply not_elem_of_nil in Hp. }
    pose proof (migrate_held_keys q m s1 Hq) as Hheld.
    destruct (migrate_held q m s1) as [[m' s2]|e]; simpl; [done|]. congruence.
  - intros [= ->]. apply Hcells; [|done]. intros p Hp. by apply not_elem_of_nil in Hp.
Qed.

(** C10.  On an island that [Island.__init__] has built, every cardinal
    neighbour of a habitable cell is a key of [island_map]; and whatever
    animals its cells have come to hold, [migrate] does not end in a
    lookup error. *)
Theorem habitable_neighbours_are_keys f_max geography isl :
  Island_init f_max geography = Ok isl →
  (∀ c cell d, island_map isl !! c = Some cell → is_habitable cell = true →
               d ∈ move_direction_map → is_Some (island_map isl !! coord_add c d)) ∧
  (∀ isl' s, same_grid isl isl' → Island_migrate exp P isl' s ≠ Raise KeyError).
Proof.
  intros Hinit. split.
  - intros c cell d. by apply (habitable_neighbours_on_map f_max geography).
  - intros isl' s [Hh Hm]. apply Island_migrate_no_KeyError.
    destruct (Island_init_wf f_max geography isl ∅ Hinit) as (Hwf & _ & _).
    assert (∀ c, is_Some (island_map isl' !! c) ↔ is_Some (island_map isl !! c)) as Hk.
    { intros c. rewrite <- !fmap_is_Some with (f := is_habitable). by rewrite Hm. }
    rewrite Hh. split.
    + intros c Hc. apply Hk. apply (wf_habitable _ _ _ Hwf) in Hc as (cell & -> & _). eauto.
    + intros c d Hc Hd. apply Hk. by apply (wf_neighbours _ _ _ Hwf).
Qed.

End NoLookupError.

Lemma habitable_neighbours_are_keys_witness :
  Island_init default_f_max "WWW
WLW
WWW" = Ok single_lowland ∧
  is_Some (island_map single_lowland !! coord_add (2, 2)%Z (-1, 0)%Z).
Proof.
  assert (Island_init default_f_max "WWW
WLW
WWW" = Ok single_lowland) as Hinit by (vm_compute; reflexivity).
  split; [exact Hinit|].
  destruct (habitable_neighbours_are_keys exp_series default_classes _ _ _ Hinit)
    as [Hkeys _].
  apply (Hkeys (2, 2)%Z (new_cell default_f_max Lowland)).
  - vm_compute. reflexivity.
  - reflexivity.
  - left.
Defined.


(** ** The annual cycle *)

Lemma insert_by_Permutation before x l : insert_by before x l ≡ₚ x :: l.
Proof.
  induction l as [|y l IH]; simpl; [done|].
  destruct (before x.1 y.1); [done|]. rewrite IH. apply perm_swap.
Qed.

Lemma sorted_Permutation key reverse l : sorted key reverse l ≡ₚ l.
Proof.
  unfold sorted.
  set (before := if reverse then _ else _).
  assert (∀ acc, foldl (λ acc r, insert_by before (key r, r) acc) acc l
                 ≡ₚ acc ++ ((λ r, (key r, r)) <$> l)) as H.
  { induction l as [|r l IH]; intros acc; simpl; [by rewrite app_nil_r|].
    rewrite IH, insert_by_Permutation. by rewrite <- Permutation_middle. }
  rewrite H. simpl. rewrite <- list_fmap_compose. simpl.
  by rewrite list_fmap_id.
Qed.

(** Updating every object of a list without repetition. *)
Lemma update_all_uniform (f : Animal → Animal) (l : list nat) :
  NoDup l → ∀ s,
  let s' := foldl (λ st r, update r f st) s l in
  (∀ r, r ∈ l → objs s' !!! r = f (objs s !!! r)) ∧
  (∀ r, r ∉ l → objs s' !!! r = objs s !!! r) ∧
  next_ref s' = next_ref s ∧ rand s' = rand s ∧ log s' = log s.
Proof.
  induction 1 as [|a l Ha Hnd IH]; intros s; simpl.
  { split; [|done]. intros r Hr. by apply not_elem_of_nil in Hr. }
  destruct (IH (update a f s)) as (Hin & Hout & Hn & Hr & Hl).
  split; [|split].
  - intros r [->|Hr']%elem_of_cons.
    + rewrite Hout by done. unfold update. simpl. by rewrite lookup_total_insert_eq.
    + rewrite Hin by done. unfold update. simpl. rewrite lookup_total_insert_ne; [done|].
      by intros ->.
  - intros r Hr'. rewrite Hout by (intros ?; apply Hr'; by right).
    unfold update. simpl. rewrite lookup_total_insert_ne; [done|].
    intros ->. apply Hr'. left.
  - done.
Qed.

Lemma herd_Permutation s l l' A : l ≡ₚ l' → herd s l A → herd s l' A.
Proof.
  intros Hp [Hnd Hall]. split; [by rewrite <- Hp|].
  intros h Hh. apply Hall. by rewrite Hp.
Qed.

Section Phases.
Context (exp : Q → Q) (P : Classes).

Lemma feed_loop_cons animal rest fodder s :
  feed_loop P (animal :: rest) fodder s =
    if Qlt_bool 0 fodder then
      let '(eaten, s') := feeding P animal fodder s in
      feed_loop P rest (fodder - eaten)%Q s'
    else (fodder, s).
Proof. done. Qed.

(** Feeding a herd when there is more fodder than the herd can eat: every
    animal eats its full appetite. *)
Lemma feed_loop_plenty A l :
  (0 < F (params_of P A))%Q →
  ∀ fodder s,
  herd s l A →
  (inject_Z (Z.of_nat (length l)) * F (params_of P A) < fodder)%Q →
  (let out := feed_loop P l fodder s in
   (out.1 == fodder - inject_Z (Z.of_nat (length l)) * F (params_of P A))%Q ∧
   herd out.2 l (fed P A) ∧
   (∀ r, r ∉ l → objs out.2 !!! r = objs s !!! r) ∧
   next_ref out.2 = next_ref s ∧ rand out.2 = rand s ∧ log out.2 = log s).
Proof.
  intros HF. induction l as [|h l IH]; intros fodder s [Hnd Hall] Hplenty.
  { cbv zeta. change (feed_loop P [] fodder s) with (fodder, s).
    split; [|split; [split; [constructor|]|done]].
    - change (inject_Z (Z.of_nat (@length nat []))) with 0%Q. simpl fst. ring.
    - intros h Hh. by apply not_elem_of_nil in Hh. }
  apply NoDup_cons in Hnd as [Hh Hnd].
  rewrite feed_loop_cons.
  assert (inject_Z (Z.of_nat (length (h :: l)))
          == 1 + inject_Z (Z.of_nat (length l)))%Q as Hlen.
  { simpl length. rewrite Nat2Z.inj_succ, <- Z.add_1_l, inject_Z_plus. reflexivity. }
  rewrite Hlen in Hplenty.
  assert (0 <= inject_Z (Z.of_nat (length l)))%Q as Hnn.
  { unfold Qle, inject_Z. simpl. lia. }
  assert (0 <= inject_Z (Z.of_nat (length l)) * F (params_of P A))%Q as Hnn'.
  { apply Qmult_le_0_compat; lra. }
  assert (Qlt_bool 0 fodder = true) as -> by (apply Qlt_bool_true; lra).
  unfold feeding. rewrite (Hall h) by left.
  rewrite py_min_r by lra. fold (fed P A).
  set (s1 := update h (λ _, fed P A) s).
  assert (update h (λ a, {| species := species a; age := age a;
                            weight := (weight a + beta (params_of P a) * F (params_of P A))%Q;
                            is_dead := is_dead a |}) s = s1) as ->.
  { unfold s1, update. by rewrite (Hall h) by left. }
  destruct (IH (fodder - F (params_of P A))%Q s1) as (Hfod & [_ Hherd] & Hout & Hn & Hr & Hl).
  { split; [done|]. intros r Hr. unfold s1, update. simpl.
    rewrite lookup_total_insert_ne by (by intros ->). apply Hall. by right. }
  { lra. }
  cbv zeta. split; [|split; [split|split]].
  - rewrite Hfod, Hlen. ring.
  - by apply NoDup_cons.
  - intros r [->|Hr']%elem_of_cons; [|by apply Hherd].
    rewrite Hout by done. unfold s1, update. simpl. by rewrite lookup_total_insert_eq.
  - intros r Hr'. rewrite Hout by (intros ?; apply Hr'; by right).
    unfold s1, update. simpl. rewrite lookup_total_insert_ne; [done|].
    intros ->. apply Hr'. left.
  - done.
Qed.

Lemma Baseland_feed_herbivores_plenty A c s :
  (0 < F (params_of P A))%Q →
  herd s (herbivores c) A →
  (inject_Z (Z.of_nat (length (herbivores c))) * F (params_of P A) < fodder c)%Q →
  (let out := Baseland_feed_herbivores exp P c s in
   herbivores out.1 = herbivores c ∧ carnivores out.1 = carnivores c ∧
   (fodder out.1
    == fodder c - inject_Z (Z.of_nat (length (herbivores c))) * F (params_of P A))%Q ∧
   herd out.2 (herbivores c) (fed P A) ∧
   next_ref out.2 = next_ref s).
Proof.
  intros HF Hherd Hplenty. unfold Baseland_feed_herbivores.
  set (order := sorted _ true (herbivores c)).
  pose proof (sorted_Permutation (λ h, fitness exp P (objs s !!! h)) true (herbivores c))
    as Hperm. fold order in Hperm.
  destruct (feed_loop_plenty A order HF (fodder c) s) as (Hfod & Hh & _ & Hn & _).
  { by apply (herd_Permutation _ (herbivores c)). }
  { by rewrite Hperm. }
  destruct (feed_loop P order (fodder c) s) as [fodder' s']. simpl in *.
  split; [done|]. split; [done|]. split; [by rewrite Hfod, Hperm|].
  split; [by apply (herd_Permutation _ order)|done].
Qed.

(** Without carnivores, the carnivores' feeding only sorts the herbivores. *)
Lemma Baseland_feed_carnivores_none c s :
  carnivores c = [] →
  (let out := Baseland_feed_carnivores exp P c s in
   herbivores out.1 ≡ₚ herbivores c ∧ carnivores out.1 = [] ∧
   fodder out.1 = fodder c ∧ out.2 = s).
Proof.
  intros Hc. unfold Baseland_feed_carnivores. rewrite Hc. simpl.
  split; [apply sorted_Permutation|done].
Qed.

Lemma random_state s :
  objs (random s).2 = objs s ∧ next_ref (random s).2 = next_ref s.
Proof. done. Qed.

(** Below the weight threshold, no animal of the herd gives birth. *)
Lemma give_birth_barren A animals it :
  Qlt_bool (weight A) (weight_check_prob (params_of P A)) = true →
  ∀ s, (∀ h, h ∈ it → objs s !!! h = A) →
  (give_birth exp P animals it s).1 = [] ∧
  objs (give_birth exp P animals it s).2 = objs s ∧
  next_ref (give_birth exp P animals it s).2 = next_ref s.
Proof.
  intros Hgate. induction it as [|h it IH]; intros s Hall; [done|].
  rewrite give_birth_cons. cbv zeta.
  assert (∃ s1, Animal_give_birth exp P h (length animals) s = (None, s1) ∧
                objs s1 = objs s ∧ next_ref s1 = next_ref s) as (s1 & -> & Ho1 & Hn1).
  { unfold Animal_give_birth. destruct (length animals <=? 1)%nat; [by exists s|].
    cbv zeta. rewrite (Hall h) by left. rewrite Hgate.
    pose proof (random_range s) as Hrange.
    destruct (random_state s) as [Ho Hn].
    destruct (random s) as [u s1]. simpl in *.
    assert (Qlt_bool u 0 = false) as -> by (apply Qlt_bool_false; lra).
    exists s1. split; [done|]. split; congruence. }
  destruct (IH s1) as (Hk & Ho & Hn).
  { intros h' Hh'. rewrite Ho1. apply Hall. by right. }
  destruct (give_birth exp P animals it s1) as [children s2]. simpl in *.
  split; [done|]. split; congruence.
Qed.

Lemma Baseland_birth_barren A c s :
  Qlt_bool (weight A) (weight_check_prob (params_of P A)) = true →
  (∀ h, h ∈ herbivores c → objs s !!! h = A) → carnivores c = [] →
  (let out := Baseland_birth exp P c s in
   herbivores out.1 = herbivores c ∧ carnivores out.1 = [] ∧
   fodder out.1 = fodder c ∧
   objs out.2 = objs s ∧ next_ref out.2 = next_ref s).
Proof.
  intros Hgate Hall Hc. rewrite Baseland_birth_phases. cbv zeta. rewrite Hc. simpl.
  destruct (1 <? length (herbivores c))%nat.
  - destruct (give_birth_barren A (herbivores c) (herbivores c) Hgate s Hall) as (Hk & Ho & Hn).
    destruct (give_birth exp P (herbivores c) (herbivores c) s) as [children s1].
    simpl in *. subst children. by rewrite app_nil_r.
  - simpl. by rewrite app_nil_r.
Qed.

(** A cell whose four neighbours are not habitable: nobody leaves. *)
Lemma migrate_from_landlocked X animals :
  ∀ m q s,
  (∀ d, d ∈ move_direction_map →
        ∃ w, m !! coord_add X d = Some w ∧ is_habitable w = false) →
  ∃ s', migrate_from X animals m q s = Ok (m, q, s') ∧
        objs s' = objs s ∧ next_ref s' = next_ref s.
Proof.
  induction animals as [|a rest IH]; intros m q s Hwater; [by exists s|].
  rewrite migrate_from_cons.
  destruct (randbelow_spec (length move_direction_map) s) as (Hk & Ho & _ & Hn);
    [simpl; lia|].
  destruct (randbelow (length move_direction_map) s) as [k s1]. simpl in Hk, Ho, Hn.
  cbv zeta beta iota.
  destruct (Hwater (move_direction_map !!! k)) as (w & -> & ->).
  { apply list_elem_of_lookup_total_2. simpl. lia. }
  destruct (IH m q s1 Hwater) as (s' & -> & Ho' & Hn').
  exists s'. split; [done|]. split; congruence.
Qed.

Lemma survivors_spec l s :
  let survives a st := let '(d, st') := Animal_death exp P a st in (negb d, st') in
  (select survives l s).1 `sublist_of` l ∧ objs (select survives l s).2 = objs s.
Proof.
  intros survives. destruct (select_spec survives l) with (s := s) as (Hsub & Ho & _); [|done].
  intros a st. unfold survives, Animal_death, random.
  by destruct (Qle_bool _ 0).
Qed.

Lemma grow_cells_single c m s :
  grow_cells exp P [c] m s =
    let cell := Baseland_reset_fodder P (habitable_cell m c) in
    let '(cell1, s1) := Baseland_feed exp P cell s in
    let '(cell2, s2) := Baseland_birth exp P cell1 s1 in
    (<[c := cell2]> m, s2).
Proof. done. Qed.

Lemma wither_cells_single c m s :
  wither_cells exp P [c] m s =
    let cell := habitable_cell m c in
    let s1 := Baseland_aging cell s in
    let s2 := Baseland_lose_weight P cell s1 in
    let '(cell', s3) := Baseland_die exp P cell s2 in
    (<[c := cell']> m, s3).
Proof. done. Qed.

(** The first half of the cycle in a cell without carnivores, for a herd
    with more fodder than it can eat and too light to give birth after it
    has eaten. *)
Lemma grow_herd A c s :
  (0 < F (params_of P A))%Q →
  carnivores c = [] → herd s (herbivores c) A →
  (inject_Z (Z.of_nat (length (herbivores c))) * F (params_of P A)
   < f_max P (landtype c))%Q →
  Qlt_bool (weight (fed P A)) (weight_check_prob (params_of P (fed P A))) = true →
  ∃ cell2 s2,
    (let '(cell1, s1) := Baseland_feed exp P (Baseland_reset_fodder P c) s in
     Baseland_birth exp P cell1 s1) = (cell2, s2) ∧
    herbivores cell2 ≡ₚ herbivores c ∧ carnivores cell2 = [] ∧
    (fodder cell2 == f_max P (landtype c)
                     - inject_Z (Z.of_nat (length (herbivores c))) * F (params_of P A))%Q ∧
    herd s2 (herbivores c) (fed P A).
Proof.
  intros HF Hc Hherd Hplenty Hgate. unfold Baseland_feed.
  set (c0 := Baseland_reset_fodder P c).
  destruct (Baseland_feed_herbivores_plenty A c0 s HF Hherd Hplenty)
    as (Hh1 & Hc1 & Hf1 & Hherd1 & _).
  destruct (Baseland_feed_herbivores exp P c0 s) as [c1 s1]. simpl in Hh1, Hc1, Hf1, Hherd1.
  destruct (Baseland_feed_carnivores_none c1 s1) as (Hh2 & Hc2 & Hf2 & Hs2);
    [by rewrite Hc1|].
  destruct (Baseland_feed_carnivores exp P c1 s1) as [c2 s2]. simpl in Hh2, Hc2, Hf2, Hs2.
  subst s2.
  destruct (Baseland_birth_barren (fed P A) c2 s1 Hgate) as (Hh3 & Hc3 & Hf3 & Ho3 & _);
    [|done|].
  { intros h Hh. apply Hherd1. rewrite Hh2, Hh1 in Hh. done. }
  destruct (Baseland_birth exp P c2 s1) as [c3 s3]. simpl in Hh3, Hc3, Hf3, Ho3.
  exists c3, s3. split; [done|]. split; [by rewrite Hh3, Hh2, Hh1|].
  split; [done|]. split; [by rewrite Hf3, Hf2, Hf1|].
  destruct Hherd1 as [Hnd Hall]. split; [done|]. intros h Hh. rewrite Ho3. by apply Hall.
Qed.

(** The second half of the cycle: whoever is left has aged by one year. *)
Lemma wither_ages c s :
  NoDup (chain c) →
  ∃ cell' s',
    (let s1 := Baseland_aging c s in
     let s2 := Baseland_lose_weight P c s1 in
     Baseland_die exp P c s2) = (cell', s') ∧
    fodder cell' = fodder c ∧
    ∀ h, h ∈ chain cell' → h ∈ chain c ∧ age (objs s' !!! h) = (age (objs s !!! h) + 1)%Z.
Proof.
  intros Hnd. cbv zeta. unfold Baseland_aging, Baseland_lose_weight.
  set (s1 := foldl (λ st animal, Animal_aging animal st) s (chain c)).
  set (s2 := foldl (λ st animal, Animal_lose_weight P animal st) s1 (chain c)).
  assert (∀ h, h ∈ chain c → age (objs s1 !!! h) = (age (objs s !!! h) + 1)%Z) as Hin1.
  { intros h Hh.
    pose proof (proj1 (update_all_uniform
                (λ a, {| species := species a; age := (age a + 1)%Z; weight := weight a;
                         is_dead := is_dead a |}) (chain c) Hnd s) h Hh) as Hin.
    unfold s1, Animal_aging. by rewrite Hin. }
  assert (∀ h, h ∈ chain c → age (objs s2 !!! h) = age (objs s1 !!! h)) as Hin2.
  { intros h Hh.
    pose proof (proj1 (update_all_uniform
                (λ a, {| species := species a; age := age a;
                         weight := (weight a - eta (params_of P a) * weight a)%Q;
                         is_dead := is_dead a |}) (chain c) Hnd s1) h Hh) as Hin.
    unfold s2, Animal_lose_weight. by rewrite Hin. }
  unfold Baseland_die.
  destruct (survivors_spec (herbivores c) s2) as [Hsub1 Ho1].
  destruct (select _ (herbivores c) s2) as [herbs s3]. simpl in Hsub1, Ho1.
  destruct (survivors_spec (carnivores c) s3) as [Hsub2 Ho2].
  destruct (select _ (carnivores c) s3) as [carns s4]. simpl in Hsub2, Ho2.
  eexists _, _. split; [done|]. split; [done|].
  intros h Hh. unfold chain in Hh. simpl in Hh.
  assert (h ∈ chain c) as Hc.
  { unfold chain. apply elem_of_app in Hh as [Hh|Hh]; apply elem_of_app.
    - left. by eapply elem_of_sublist.
    - right. by eapply elem_of_sublist. }
  split; [done|]. rewrite Ho2, Ho1, (Hin2 h Hc). by apply Hin1.
Qed.

(** One year on an island whose only habitable cell has no habitable
    neighbour and holds a herd with more fodder than it can eat, too light
    to give birth once it has eaten. *)
Lemma step_single_cell A isl s X c :
  habitable_map isl = [X] → island_map isl !! X = Some c →
  (∀ d, d ∈ move_direction_map →
        ∃ w, island_map isl !! coord_add X d = Some w ∧ is_habitable w = false) →
  (0 < F (params_of P A))%Q →
  carnivores c = [] → herd s (herbivores c) A →
  (inject_Z (Z.of_nat (length (herbivores c))) * F (params_of P A)
   < f_max P (landtype c))%Q →
  Qlt_bool (weight (fed P A)) (weight_check_prob (params_of P (fed P A))) = true →
  ∃ isl2 s2 cell,
    Island_step exp P isl s = Ok (isl2, s2) ∧
    island_map isl2 !! X = Some cell ∧
    (fodder cell == f_max P (landtype c)
                    - inject_Z (Z.of_nat (length (herbivores c))) * F (params_of P A))%Q ∧
    ∀ h, h ∈ herbivores cell → h ∈ herbivores c ∧ age (objs s2 !!! h) = (age A + 1)%Z.
Proof.
  intros Hhab HX Hwater HF Hc Hherd Hplenty Hgate.
  unfold Island_step. rewrite Hhab, grow_cells_single. cbv zeta.
  rewrite (habitable_cell_lookup _ _ _ HX).
  destruct (grow_herd A c s HF Hc Hherd Hplenty Hgate)
    as (c2 & s2 & Hgrow & Hh2 & Hc2 & Hf2 & Hherd2).
  destruct (Baseland_feed exp P (Baseland_reset_fodder P c) s) as [c1 s1].
  rewrite Hgrow. clear Hgrow.
  set (m1 := <[X := c2]> (island_map isl)).
  unfold Island_migrate. simpl habitable_map. simpl island_map. rewrite Hhab.
  rewrite migrate_cells_cons.
  assert (habitable_cell m1 X = c2) as Hcell.
  { apply habitable_cell_lookup. apply lookup_insert_eq. }
  rewrite Hcell.
  destruct (get_migrations_spec exp P c2 s2) as (_ & Ho3 & _).
  destruct (Baseland_get_migrations exp P c2 s2) as [animals s3]. simpl in Ho3.
  destruct (migrate_from_landlocked X animals m1 [] s3) as (s4 & Hrun & Ho4 & _).
  { intros d Hd. destruct (Hwater d Hd) as (w & Hw & Hwh). exists w. split; [|done].
    unfold m1. rewrite lookup_insert_ne; [done|].
    intros Heq. symmetry in Heq. by apply coord_add_direction in Heq. }
  rewrite Hrun. simpl. rewrite Hhab, wither_cells_single. rewrite Hcell.
  assert (NoDup (chain c2)) as Hnd.
  { unfold chain. rewrite Hc2, app_nil_r, Hh2. apply Hherd2. }
  destruct (wither_ages c2 s4 Hnd) as (cell' & s' & Hw & Hfod & Hages).
  cbv zeta in Hw. cbv zeta. rewrite Hw.
  exists (set_island_map (set_island_map (set_island_map isl m1) m1) (<[X := cell']> m1)),
         s', cell'.
  split; [done|]. split; [simpl; apply lookup_insert_eq|].
  split; [by rewrite Hfod|].
  intros h Hh.
  destruct (Hages h) as [Hin Hage]; [unfold chain; apply elem_of_app; by left|].
  unfold chain in Hin. rewrite Hc2, app_nil_r, Hh2 in Hin.
  split; [done|]. rewrite Hage, Ho4, Ho3. by rewrite (proj2 Hherd2 h Hin).
Qed.

End Phases.

(** C6.  On the island "WWW/WLW/WWW", after 50 herbivores of age 5 and
    weight 20 have been placed on the Lowland cell, one call of [step]
    returns, whatever the random source and the exponential; it leaves the
    cell's fodder below the maximum of Lowland, and every herbivore then in
    the cell is one of those placed and has age 6. *)
Theorem single_lowland_step (exp : Q → Q) (r : Random) :
  (populated r).1 = Ok tt ∧
  ∃ isl2 s2 cell,
    Island_step exp default_classes (populated r).2.1 (populated r).2.2 = Ok (isl2, s2) ∧
    island_map isl2 !! (2, 2)%Z = Some cell ∧
    (fodder cell < f_max default_classes Lowland)%Q ∧
    ∀ h, h ∈ herbivores cell → age (objs s2 !!! h) = 6%Z.
Proof.
  set (A := {| species := Herbivore; age := 5; weight := 20; is_dead := false |}).
  assert (∃ m0 o0,
            populated r =
              (Ok tt, ({| geography := geography single_lowland; island_map := m0;
                          habitable_map := [(2, 2)%Z] |},
                       {| objs := o0; next_ref := 50; rand := r; log := [] |})) ∧
            m0 !! (2, 2)%Z = Some {| landtype := Lowland; is_habitable := true; fodder := 800;
                                     herbivores := seq 0 50; carnivores := [] |} ∧
            Forall (λ d, ∃ w, m0 !! coord_add (2, 2)%Z d = Some w ∧ is_habitable w = false)
                   move_direction_map ∧
            Forall (λ h, o0 !!! h = A) (seq 0 50))
    as (m0 & o0 & Hpop & Hcell & Hwater & Hherd).
  { eexists _, _. split; [vm_compute; reflexivity|]. split; [vm_compute; reflexivity|].
    split.
    - repeat constructor; eexists; (split; [vm_compute; reflexivity|reflexivity]).
    - apply (bool_decide_unpack _). vm_compute. exact I. }
  rewrite Hpop. simpl. split; [done|].
  set (isl1 := {| geography := geography single_lowland; island_map := m0;
                  habitable_map := [(2, 2)%Z] |}).
  set (s1 := {| objs := o0; next_ref := 50; rand := r; log := [] |}).
  set (c0 := {| landtype := Lowland; is_habitable := true; fodder := 800;
                herbivores := seq 0 50; carnivores := [] |}) in Hcell.
  assert (∀ d, d ∈ move_direction_map →
            ∃ w, island_map isl1 !! coord_add (2, 2)%Z d = Some w ∧ is_habitable w = false)
    as Hwater' by (intros d Hd; by apply (proj1 (Forall_forall _ _) Hwater)).
  assert (herd s1 (herbivores c0) A) as Hherd'.
  { split; [apply NoDup_seq|]. intros h Hh. by apply (proj1 (Forall_forall _ _) Hherd). }
  assert (0 < F (params_of default_classes A))%Q as HF by (vm_compute; reflexivity).
  assert (inject_Z (Z.of_nat (length (herbivores c0))) * F (params_of default_classes A)
          < f_max default_classes (landtype c0))%Q as Hplenty by (vm_compute; reflexivity).
  assert (Qlt_bool (weight (fed default_classes A))
            (weight_check_prob (params_of default_classes (fed default_classes A))) = true)
    as Hgate by (vm_compute; reflexivity).
  destruct (step_single_cell exp default_classes A isl1 s1 (2, 2)%Z c0
              eq_refl Hcell Hwater' HF eq_refl Hherd' Hplenty Hgate)
    as (isl2 & s2 & cell & Hrun & Hc & Hf & Hages).
  exists isl2, s2, cell. split; [exact Hrun|]. split; [exact Hc|]. split.
  - rewrite Hf. vm_compute. reflexivity.
  - intros h Hh. by apply Hages.
Qed.


(** ** Layouts that [validate_map] accepts *)

Lemma split_lines_cover s c :
  c ∈ s → c ≠ newline → ∃ r, r ∈ split_lines s ∧ c ∈ r.
Proof.
  induction s as [|x s IH]; intros Hc Hnl; [by apply not_elem_of_nil in Hc|].
  simpl. destruct (Ascii.eqb x newline) eqn:Hx.
  - apply Ascii.eqb_eq in Hx as ->. apply elem_of_cons in Hc as [->|Hc]; [done|].
    destruct (IH Hc Hnl) as (r & Hr & Hcr). exists r. split; [by right|done].
  - pose proof (split_lines_nonempty s) as Hne.
    destruct (split_lines s) as [|r rs] eqn:Hs; [done|].
    apply elem_of_cons in Hc as [->|Hc].
    + exists (x :: r). split; left.
    + destruct (IH Hc Hnl) as (r' & Hr' & Hcr).
      apply elem_of_cons in Hr' as [->|Hr'].
      * exists (x :: r). split; [left|by right].
      * exists r'. split; [by right|done].
Qed.

Lemma result_bind_Ok {A B} (a : A) (k : A → result B) : (Ok a ≫= k) = k a.
Proof. done. Qed.

Lemma validate_map_accepts geography :
  valid_rows (rows_of geography) → validate_map geography = Ok tt.
Proof.
  intros [Hk (n & Hpos & Hn) Ht Hb Hl Hr]. unfold validate_map. cbv zeta.
  destruct (List.find _ _) as [c|] eqn:Hfind.
  { apply unknown_char_find in Hfind as (Hc & Hnl & Hnone).
    destruct (split_lines_cover _ _ Hc Hnl) as (r & Hr' & Hcr).
    destruct (Hk r c Hr' Hcr) as [? ?]. congruence. }
  fold (rows_of geography).
  pose proof (split_lines_nonempty (list_ascii_of_string geography)) as Hne.
  fold (rows_of geography) in Hne.
  remember (rows_of geography) as rows eqn:Erows. clear Erows Hfind.
  assert (remove_dups (length <$> rows) = [n]) as ->.
  { apply remove_dups_singleton. split.
    - destruct rows; done.
    - intros y (r & -> & Hr')%list_elem_of_fmap. by apply Hn. }
  cbn [length Nat.eqb negb].
  assert (∀ r, r ∈ rows → r ≠ []) as Hfull.
  { intros r Hr' ->. specialize (Hn [] Hr'). simpl in Hn. lia. }
  destruct (first_item rows) as [top|e] eqn:Hfirst.
  2:{ by destruct rows. }
  rewrite result_bind_Ok. apply first_item_Ok in Hfirst.
  assert (get_distinct top = [W]) as Htop.
  { apply remove_dups_singleton. split.
    - apply Hfull. by apply head_Some_elem_of.
    - intros y Hy. by apply (Ht top). }
  rewrite (bool_decide_eq_true_2 _ Htop). cbn [negb].
  destruct (last_item rows) as [bottom|e] eqn:Hlast.
  2:{ unfold last_item in Hlast. destruct (last rows) eqn:Hlt; [done|].
      by apply last_None in Hlt. }
  rewrite result_bind_Ok. apply last_item_Ok in Hlast.
  assert (get_distinct bottom = [W]) as Hbot.
  { apply remove_dups_singleton. split.
    - apply Hfull. by eapply last_Some_elem_of.
    - intros y Hy. by apply (Hb bottom). }
  rewrite (bool_decide_eq_true_2 _ Hbot). cbn [negb].
  destruct (comprehension_total first_item rows) as [left_col Hleft].
  { intros r Hr'. specialize (Hfull r Hr'). destruct r as [|y r]; [done|]. by exists y. }
  rewrite Hleft, result_bind_Ok.
  assert (get_distinct left_col = [W]) as Hlc.
  { apply remove_dups_singleton. apply comprehension_Ok in Hleft. split.
    - intros ->. apply Forall2_nil_inv_r in Hleft. done.
    - intros y Hy. apply list_elem_of_lookup in Hy as [i Hi].
      destruct (Forall2_lookup_r _ _ _ _ _ Hleft Hi) as (r & Hri & Hry).
      apply first_item_Ok in Hry. apply (Hl r); [|done]. by eapply list_elem_of_lookup_2. }
  rewrite (bool_decide_eq_true_2 _ Hlc). cbn [negb].
  destruct (comprehension_total last_item rows) as [right_col Hright].
  { intros r Hr'. specialize (Hfull r Hr'). unfold last_item.
    destruct (last r) as [y|] eqn:Hlr; [by exists y|]. by apply last_None in Hlr. }
  rewrite Hright, result_bind_Ok.
  assert (get_distinct right_col = [W]) as Hrc.
  { apply remove_dups_singleton. apply comprehension_Ok in Hright. split.
    - intros ->. apply Forall2_nil_inv_r in Hright. done.
    - intros y Hy. apply list_elem_of_lookup in Hy as [i Hi].
      destruct (Forall2_lookup_r _ _ _ _ _ Hright Hi) as (r & Hri & Hry).
      apply last_item_Ok in Hry. apply (Hr r); [|done]. by eapply list_elem_of_lookup_2. }
  by rewrite (bool_decide_eq_true_2 _ Hrc).
Qed.

Lemma Island_init_accepts f_max geography :
  valid_rows (rows_of geography) → ∃ isl, Island_init f_max geography = Ok isl.
Proof.
  intros Hvalid. unfold Island_init. rewrite (validate_map_accepts _ Hvalid). simpl.
  unfold _build_island. fold (rows_of geography).
  destruct (build_items_total f_max (rows_of geography)) as [items ->].
  { intros r c. apply (vr_known _ Hvalid). }
  simpl. eauto.
Qed.

Lemma Island_init_valid f_max geography isl :
  Island_init f_max geography = Ok isl → valid_rows (rows_of geography).
Proof.
  unfold Island_init. pose proof (validate_map_cases geography) as Hpost.
  destruct (validate_map geography) as [[]|e]; [|done]. by destruct Hpost.
Qed.

Lemma Island_init_geography f_max g isl :
  Island_init f_max g = Ok isl → geography isl = g.
Proof.
  unfold Island_init, _build_island. destruct (validate_map g) as [[]|e]; [|done]. simpl.
  destruct (build_items _ _) as [items|e]; [|done]. simpl. by intros [= <-].
Qed.

Lemma item_at_key f_max i j y : (item_at f_max i j y).1 = (Z.of_nat i + 1, Z.of_nat j + 1)%Z.
Proof. done. Qed.

Lemma Island_init_lookup f_max geography isl i j r y :
  Island_init f_max geography = Ok isl →
  rows_of geography !! i = Some r → r !! j = Some y →
  ∃ lt, cell_map y = Some lt ∧
        island_map isl !! (Z.of_nat i + 1, Z.of_nat j + 1)%Z = Some (new_cell f_max lt).
Proof.
  intros Hinit Hi Hj.
  pose proof (Island_init_valid _ _ _ Hinit) as Hvalid.
  destruct (vr_known _ Hvalid r y) as [lt Hlt]; [by eapply list_elem_of_lookup_2..|].
  exists lt. split; [done|].
  destruct (Island_init_items _ _ _ Hinit) as [-> _].
  apply elem_of_list_to_map_1.
  - apply row_major_NoDup, layout_items_sorted.
  - apply elem_of_layout_items. exists i, j, r, y. split; [done|]. split; [done|].
    unfold item_at. by rewrite Hlt.
Qed.

(** ** The shape of the island *)

Lemma tuple_gt_spec (a b : Coord) :
  tuple_gt a b = true ↔ (b.1 < a.1 ∨ (b.1 = a.1 ∧ b.2 < a.2))%Z.
Proof.
  unfold tuple_gt. rewrite orb_true_iff, andb_true_iff, !Z.ltb_lt, Z.eqb_eq. tauto.
Qed.

Lemma max_from_spec l :
  ∀ best,
  max_from best l ∈ best :: l ∧
  ∀ y, y ∈ best :: l → tuple_gt y (max_from best l) = false.
Proof.
  induction l as [|item l IH]; intros best; simpl.
  { split; [left|]. intros y ->%list_elem_of_singleton.
    apply not_true_is_false. rewrite tuple_gt_spec. lia. }
  destruct (IH (if tuple_gt item best then item else best)) as [Hin Hmax].
  split.
  - destruct (tuple_gt item best); apply elem_of_cons in Hin as [->|Hin];
      [right; left|by do 2 right|left|by do 2 right].
  - intros y Hy. apply not_true_is_false. intros Hgt%tuple_gt_spec.
    assert (∀ z, z ∈ (if tuple_gt item best then item else best) :: l →
                 ¬ (max_from (if tuple_gt item best then item else best) l).1 < z.1
                 ∧ ¬ ((max_from (if tuple_gt item best then item else best) l).1 = z.1
                      ∧ (max_from (if tuple_gt item best then item else best) l).2 < z.2))%Z
      as Hmax'.
    { intros z Hz. specialize (Hmax z Hz). apply not_true_iff_false in Hmax.
      rewrite tuple_gt_spec in Hmax. lia. }
    destruct (tuple_gt item best) eqn:Hib.
    + apply tuple_gt_spec in Hib. pose proof (Hmax' item ltac:(left)).
      apply elem_of_cons in Hy as [->|[->|Hy]%elem_of_cons]; [lia|lia|].
      pose proof (Hmax' y ltac:(by right)). lia.
    + apply not_true_iff_false in Hib. rewrite tuple_gt_spec in Hib.
      pose proof (Hmax' best ltac:(left)).
      apply elem_of_cons in Hy as [->|[->|Hy]%elem_of_cons]; [lia|lia|].
      pose proof (Hmax' y ltac:(by right)). lia.
Qed.

Lemma py_max_top (l : list Coord) (top : Coord) :
  top ∈ l → (∀ y, y ∈ l → (y.1 <= top.1 ∧ y.2 <= top.2)%Z) → py_max l = Some top.
Proof.
  intros Hin Hle. destruct l as [|item l]; [by apply not_elem_of_nil in Hin|]. simpl.
  destruct (max_from_spec l item) as [Hm Hmax]. f_equal.
  specialize (Hmax top Hin). apply not_true_iff_false in Hmax.
  rewrite tuple_gt_spec in Hmax. specialize (Hle _ Hm).
  destruct (max_from item l) as [x y], top as [tx ty]. simpl in *. f_equal; lia.
Qed.

Lemma Island_init_shape f_max geography isl top :
  Island_init f_max geography = Ok isl →
  head (rows_of geography) = Some top →
  Island_shape isl
  = Some (Z.of_nat (length (rows_of geography)), Z.of_nat (length top)).
Proof.
  intros Hinit Htop. pose proof (Island_init_valid _ _ _ Hinit) as Hvalid.
  destruct (vr_width _ Hvalid) as (n & Hpos & Hn).
  assert (length top = n) as Hlen by (by apply Hn, head_Some_elem_of).
  unfold Island_shape. apply py_max_top.
  - apply list_elem_of_fmap.
    destruct (last (rows_of geography)) as [bottom|] eqn:Hlast.
    2:{ apply last_None in Hlast. by rewrite Hlast in Htop. }
    assert (length bottom = n) as Hlenb by (by eapply Hn, last_Some_elem_of).
    destruct (last bottom) as [y|] eqn:Hy.
    2:{ apply last_None in Hy. subst bottom. simpl in Hlenb. lia. }
    rewrite last_lookup in Hlast. rewrite last_lookup in Hy.
    destruct (Island_init_lookup _ _ _ _ _ _ _ Hinit Hlast Hy) as (lt & _ & Hcell).
    exists ((Z.of_nat (Nat.pred (length (rows_of geography))) + 1,
             Z.of_nat (Nat.pred (length bottom)) + 1)%Z, new_cell f_max lt).
    split; [|by apply elem_of_map_to_list].
    simpl. pose proof (split_lines_nonempty (list_ascii_of_string geography)) as Hne.
    fold (rows_of geography) in Hne.
    assert (0 < length (rows_of geography)) by (destruct (rows_of geography); [done|simpl; lia]).
    f_equal; lia.
  - intros c ([c' cell] & -> & Hin%elem_of_map_to_list)%list_elem_of_fmap.
    destruct (island_map_lookup_inv _ _ _ _ _ Hinit Hin) as (_ & i & j & r & y & Hi & Hj & Heq).
    injection Heq as -> _. simpl.
    apply lookup_lt_Some in Hj. rewrite (Hn r) in Hj by (by eapply list_elem_of_lookup_2).
    apply lookup_lt_Some in Hi. lia.
Qed.


(** ** What the phases of a year leave alone *)

Section Frames.
Context (exp : Q → Q) (P : Classes).

Lemma feeding_frame r available s :
  let s' := (feeding P r available s).2 in
  next_ref s' = next_ref s ∧ log s' = log s ∧ rand s' = rand s ∧
  (∀ r', species (objs s' !!! r') = species (objs s !!! r') ∧
         age (objs s' !!! r') = age (objs s !!! r') ∧
         is_dead (objs s' !!! r') = is_dead (objs s !!! r')) ∧
  (∀ r', r' ≠ r → objs s' !!! r' = objs s !!! r').
Proof.
  unfold feeding. cbv zeta. cbn [snd].
  split; [done|]. split; [done|]. split; [done|]. split.
  - intros r'. rewrite update_lookup. by destruct (decide (r' = r)) as [->|].
  - intros r' Hne. rewrite update_lookup. by destruct (decide (r' = r)).
Qed.

Lemma set_dead_frame r s :
  next_ref (set_dead r s) = next_ref s ∧ log (set_dead r s) = log s ∧
  rand (set_dead r s) = rand s ∧
  (∀ r', species (objs (set_dead r s) !!! r') = species (objs s !!! r') ∧
         age (objs (set_dead r s) !!! r') = age (objs s !!! r') ∧
         weight (objs (set_dead r s) !!! r') = weight (objs s !!! r')) ∧
  is_dead (objs (set_dead r s) !!! r) = true ∧
  (∀ r', r' ≠ r → objs (set_dead r s) !!! r' = objs s !!! r').
Proof.
  unfold set_dead. split; [done|]. split; [done|]. split; [done|]. split; [|split].
  - intros r'. rewrite update_lookup. by destruct (decide (r' = r)) as [->|].
  - rewrite update_lookup. by destruct (decide (r = r)).
  - intros r' Hne. rewrite update_lookup. by destruct (decide (r' = r)).
Qed.

(** A hunt creates nothing, logs nothing, and changes neither species nor
    age; it changes the weight of the hunter only, and flags, never
    unflags, herbivores of its list only. *)
Lemma hunt_frame self herbs :
  ∀ appetite s,
  let s' := hunt exp P self herbs appetite s in
  next_ref s' = next_ref s ∧ log s' = log s ∧
  (∀ r, species (objs s' !!! r) = species (objs s !!! r) ∧
        age (objs s' !!! r) = age (objs s !!! r)) ∧
  (∀ r, r ≠ self → weight (objs s' !!! r) = weight (objs s !!! r)) ∧
  (∀ r, is_dead (objs s !!! r) = true → is_dead (objs s' !!! r) = true) ∧
  (∀ r, r ∉ herbs → is_dead (objs s' !!! r) = is_dead (objs s !!! r)).
Proof.
  induction herbs as [|herb rest IH]; intros appetite s; [done|].
  cbv zeta. rewrite hunt_cons.
  destruct (Qle_bool appetite 0); [done|]. cbv zeta.
  destruct (Qle_bool _ _); [done|].
  set (prob := if _ && _ then _ else _).
  assert (∀ s1 : State,
    objs s1 = objs s → next_ref s1 = next_ref s → log s1 = log s →
    ∀ kill : bool,
    let s' := if kill then
                let '(eaten, s2) :=
                  feeding P self (py_min appetite (weight (objs s1 !!! herb))) s1 in
                hunt exp P self rest (appetite - eaten)%Q (set_dead herb s2)
              else hunt exp P self rest appetite s1 in
    next_ref s' = next_ref s ∧ log s' = log s ∧
    (∀ r, species (objs s' !!! r) = species (objs s !!! r) ∧
          age (objs s' !!! r) = age (objs s !!! r)) ∧
    (∀ r, r ≠ self → weight (objs s' !!! r) = weight (objs s !!! r)) ∧
    (∀ r, is_dead (objs s !!! r) = true → is_dead (objs s' !!! r) = true) ∧
    (∀ r, r ∉ herb :: rest → is_dead (objs s' !!! r) = is_dead (objs s !!! r))) as Hstep.
  { intros s1 Ho Hn Hl kill. destruct kill; cbv zeta.
    - pose proof (feeding_frame self (py_min appetite (weight (objs s1 !!! herb))) s1)
        as (Hfn & Hfl & _ & Hfk & Hfo).
      destruct (feeding P self _ s1) as [eaten s2]. simpl in Hfn, Hfl, Hfk, Hfo.
      pose proof (set_dead_frame herb s2) as (Hdn & Hdl & _ & Hdk & Hdd & Hdo).
      pose proof (IH (appetite - eaten)%Q (set_dead herb s2))
        as (Hhn & Hhl & Hhk & Hhw & Hhd & Hhu). cbv zeta in *.
      split; [congruence|]. split; [congruence|]. split; [|split; [|split]].
      + intros r. destruct (Hhk r) as [-> ->]. destruct (Hdk r) as (-> & -> & _).
        destruct (Hfk r) as (-> & -> & _). by rewrite Ho.
      + intros r Hr. rewrite (Hhw r Hr). destruct (Hdk r) as (_ & _ & ->).
        by rewrite (Hfo r Hr), Ho.
      + intros r Hr. apply Hhd. destruct (decide (r = herb)) as [->|Hne]; [done|].
        rewrite (Hdo r Hne). destruct (Hfk r) as (_ & _ & ->). by rewrite Ho.
      + intros r Hr. apply not_elem_of_cons in Hr as [Hne Hr].
        rewrite (Hhu r Hr), (Hdo r Hne). destruct (Hfk r) as (_ & _ & ->). by rewrite Ho.
    - pose proof (IH appetite s1) as (Hhn & Hhl & Hhk & Hhw & Hhd & Hhu). cbv zeta in *.
      rewrite Ho in *.
      split; [congruence|]. split; [congruence|]. split; [done|]. split; [done|].
      split; [done|]. intros r Hr. apply not_elem_of_cons in Hr as [_ Hr]. by apply Hhu. }
  destruct (Qeq_bool prob 1).
  - exact (Hstep s eq_refl eq_refl eq_refl true).
  - destruct (random s) as [u s1] eqn:Hrand.
    pose proof (random_frame s) as (Ho & Hn & Hl). rewrite Hrand in Ho, Hn, Hl.
    exact (Hstep s1 Ho Hn Hl (Qlt_bool u prob)).
Qed.

(** [eat_herbivores] hands back the herbivores of its list that are not
    flagged at the end of the hunt. *)
Lemma eat_herbivores_result self herbs s :
  eat_herbivores exp P self herbs s =
    (filter (λ h, is_dead (objs (hunt exp P self herbs (F (params_of P (objs s !!! self))) s)
                           !!! h) = false) herbs,
     hunt exp P self herbs (F (params_of P (objs s !!! self))) s).
Proof. done. Qed.

(** The carnivores of a cell hunting one after the other. *)
Lemma hunts_frame carns :
  ∀ hs s,
  let out := foldl (λ '(hs, st) carn, eat_herbivores exp P carn hs st) (hs, s) carns in
  out.1 `sublist_of` hs ∧
  next_ref out.2 = next_ref s ∧ log out.2 = log s ∧
  (∀ r, species (objs out.2 !!! r) = species (objs s !!! r) ∧
        age (objs out.2 !!! r) = age (objs s !!! r)) ∧
  (∀ r, r ∉ carns → weight (objs out.2 !!! r) = weight (objs s !!! r)) ∧
  (∀ r, is_dead (objs s !!! r) = true → is_dead (objs out.2 !!! r) = true) ∧
  (∀ r, r ∉ hs → is_dead (objs out.2 !!! r) = is_dead (objs s !!! r)) ∧
  ((∀ h, h ∈ hs → is_dead (objs s !!! h) = false) →
   ∀ h, h ∈ hs → (h ∈ out.1 ↔ is_dead (objs out.2 !!! h) = false)).
Proof.
  induction carns as [|carn carns IH]; intros hs s.
  { cbv zeta. simpl. repeat (split; [done|]). intros Hlive h Hh. split; [auto|done]. }
  cbv zeta. simpl foldl. rewrite eat_herbivores_result.
  set (s1 := hunt exp P carn hs _ s).
  set (hs1 := filter _ hs).
  pose proof (hunt_frame carn hs (F (params_of P (objs s !!! carn))) s)
    as (Hn & Hl & Hk & Hw & Hd & Hu). cbv zeta in *. fold s1 in Hn, Hl, Hk, Hw, Hd, Hu.
  pose proof (IH hs1 s1) as (Isub & In & Il & Ik & Iw & Id & Iu & Ilive). cbv zeta in *.
  assert (hs1 `sublist_of` hs) as Hsub1 by apply sublist_filter.
  split; [by etrans|]. split; [congruence|]. split; [congruence|].
  split; [|split; [|split; [|split]]].
  - intros r. destruct (Ik r) as [-> ->]. apply Hk.
  - intros r Hr. apply not_elem_of_cons in Hr as [Hne Hr]. rewrite (Iw r Hr). by apply Hw.
  - intros r Hr. by apply Id, Hd.
  - intros r Hr. rewrite <- (Hu r Hr). apply Iu. intros Hin. apply Hr.
    by eapply elem_of_sublist.
  - intros Hlive h Hh.
    assert (∀ h', h' ∈ hs1 → is_dead (objs s1 !!! h') = false) as Hlive1.
    { intros h' Hh'. by apply list_elem_of_filter in Hh' as [? _]. }
    destruct (is_dead (objs s1 !!! h)) eqn:Hdead.
    + split.
      * intros Hin. eapply elem_of_sublist in Hin; [|exact Isub].
        apply Hlive1 in Hin. congruence.
      * intros Hnot. rewrite (Id h Hdead) in Hnot. done.
    + apply Ilive; [done|]. apply list_elem_of_filter. done.
Qed.

End Frames.

(** ** [random.shuffle] *)

Lemma swap_Permutation i j (x : list nat) :
  i < length x → j < length x → swap i j x ≡ₚ x.
Proof.
  intros Hi Hj. apply Permutation_inj. unfold swap. split.
  { by rewrite !length_insert. }
  exists (λ k, if decide (k = j) then i else if decide (k = i) then j else k). split.
  - intros k1 k2. repeat case_decide; intros; subst; congruence.
  - intros k. destruct (decide (k = j)) as [->|Hkj].
    + rewrite list_lookup_insert_eq; [|by rewrite length_insert].
      symmetry. by apply list_lookup_lookup_total_lt.
    + rewrite list_lookup_insert_ne; [|done].
      destruct (decide (k = i)) as [->|Hki].
      * rewrite list_lookup_insert_eq; [|done].
        symmetry. by apply list_lookup_lookup_total_lt.
      * by rewrite list_lookup_insert_ne.
Qed.

Lemma shuffle_from_S i x s :
  shuffle_from (S i) x s =
    let '(j, s') := randbelow (S (S i)) s in shuffle_from i (swap (S i) j x) s'.
Proof. done. Qed.

Lemma shuffle_from_spec i :
  ∀ x s, i < length x ∨ x = [] →
  (shuffle_from i x s).1 ≡ₚ x ∧
  objs (shuffle_from i x s).2 = objs s ∧ next_ref (shuffle_from i x s).2 = next_ref s ∧
  log (shuffle_from i x s).2 = log s.
Proof.
  induction i as [|i IH]; intros x s Hi; [done|].
  rewrite shuffle_from_S. pose proof (randbelow_spec (S (S i)) s) as Hr.
  destruct (randbelow (S (S i)) s) as [j s1]. simpl in Hr.
  destruct Hr as (Hj & Ho & Hl & Hn); [lia|].
  destruct Hi as [Hi| ->].
  - destruct (IH (swap (S i) j x) s1) as (Hp & Ho' & Hn' & Hl').
    { left. unfold swap. rewrite !length_insert. lia. }
    split; [|split; [|split]].
    + etrans; [exact Hp|]. apply swap_Permutation; lia.
    + etrans; [exact Ho'|exact Ho].
    + etrans; [exact Hn'|exact Hn].
    + etrans; [exact Hl'|exact Hl].
  - destruct (IH (swap (S i) j []) s1) as (Hp & Ho' & Hn' & Hl'); [by right|].
    split; [|split; [|split]].
    + exact Hp.
    + etrans; [exact Ho'|exact Ho].
    + etrans; [exact Hn'|exact Hn].
    + etrans; [exact Hl'|exact Hl].
Qed.

Lemma shuffle_spec x s :
  (shuffle x s).1 ≡ₚ x ∧
  objs (shuffle x s).2 = objs s ∧ next_ref (shuffle x s).2 = next_ref s ∧
  log (shuffle x s).2 = log s.
Proof.
  unfold shuffle. apply shuffle_from_spec. destruct x; [by right|]. left. simpl. lia.
Qed.

(** ** [sorted] *)

Lemma insert_by_sorted (before : Q → Q → bool) (R : Q → Q → Prop) x l :
  (∀ a b, before a b = true → R a b) →
  (∀ a b, before a b = false → R b a) →
  (∀ a b c, R a b → R b c → R a c) →
  StronglySorted (λ p q : Q * nat, R p.1 q.1) l →
  StronglySorted (λ p q : Q * nat, R p.1 q.1) (insert_by before x l).
Proof.
  intros Ht Hf Htrans. induction l as [|y l IH]; intros Hs; simpl.
  { repeat constructor. }
  apply StronglySorted_inv in Hs as [Hs Hy].
  destruct (before x.1 y.1) eqn:Hb.
  - constructor; [by constructor|]. constructor; [by apply Ht|].
    eapply Forall_impl; [exact Hy|]. intros z Hz. simpl in *.
    eapply Htrans; [|exact Hz]. by apply Ht.
  - constructor; [by apply IH|].
    rewrite insert_by_Permutation. constructor; [by apply Hf|done].
Qed.

Lemma sorted_by_key (key : nat → Q) (reverse : bool) (l : list nat) :
  StronglySorted (λ a b, if reverse then (key b <= key a)%Q else (key a <= key b)%Q)
                 (sorted key reverse l).
Proof.
  unfold sorted.
  set (before := if reverse then _ else _).
  set (R := λ x y : Q, if reverse then (y <= x)%Q else (x <= y)%Q).
  assert (∀ acc,
    StronglySorted (λ p q : Q * nat, R p.1 q.1) acc →
    Forall (λ p : Q * nat, p.1 = key p.2) acc →
    StronglySorted (λ p q : Q * nat, R p.1 q.1)
                   (foldl (λ acc r, insert_by before (key r, r) acc) acc l) ∧
    Forall (λ p : Q * nat, p.1 = key p.2)
           (foldl (λ acc r, insert_by before (key r, r) acc) acc l)) as Hfold.
  { induction l as [|r l IH]; intros acc Hs Hk; [done|]. simpl. apply IH.
    - apply insert_by_sorted; [| | |done].
      + intros a b. unfold before, R. destruct reverse; intros ?%Qlt_bool_true; lra.
      + intros a b. unfold before, R. destruct reverse; intros ?%Qlt_bool_false; lra.
      + intros a b c. unfold R. destruct reverse; lra.
    - rewrite insert_by_Permutation. by constructor. }
  destruct (Hfold []) as [Hs Hk]; [constructor|constructor|].
  revert Hs Hk. generalize (foldl (λ acc r, insert_by before (key r, r) acc) [] l).
  intros acc Hs Hk. induction Hs as [|p acc Hs IH Hp]; [constructor|].
  apply Forall_cons in Hk as [Hp1 Hk]. rewrite fmap_cons. constructor; [by apply IH|].
  apply Forall_fmap. rewrite Forall_forall in Hp, Hk. apply Forall_forall.
  intros q Hq. simpl. rewrite <- Hp1, <- (Hk q Hq). exact (Hp q Hq).
Qed.

Section Feeding.
Context (exp : Q → Q) (P : Classes).

Lemma fitness_ext a b :
  species a = species b → age a = age b → weight a = weight b →
  fitness exp P a = fitness exp P b.
Proof. intros Hs Ha Hw. unfold fitness, params_of. by rewrite Hs, Ha, Hw. Qed.

Lemma Baseland_feed_carnivores_spec c s :
  let out := Baseland_feed_carnivores exp P c s in
  landtype out.1 = landtype c ∧ is_habitable out.1 = is_habitable c ∧
  fodder out.1 = fodder c ∧
  carnivores out.1 ≡ₚ carnivores c ∧
  herbivores out.1 ⊆+ herbivores c ∧
  next_ref out.2 = next_ref s ∧ log out.2 = log s ∧
  (∀ r, species (objs out.2 !!! r) = species (objs s !!! r) ∧
        age (objs out.2 !!! r) = age (objs s !!! r)) ∧
  (∀ r, r ∉ carnivores c → weight (objs out.2 !!! r) = weight (objs s !!! r)) ∧
  (∀ r, r ∉ herbivores c → is_dead (objs out.2 !!! r) = is_dead (objs s !!! r)) ∧
  ((∀ h, h ∈ herbivores c → is_dead (objs s !!! h) = false) →
   ∀ h, h ∈ herbivores c → (h ∈ herbivores out.1 ↔ is_dead (objs out.2 !!! h) = false)) ∧
  ((∀ h, h ∈ herbivores c → h ∉ carnivores c) →
   StronglySorted (λ a b, (fitness exp P (objs out.2 !!! a)
                           <= fitness exp P (objs out.2 !!! b))%Q) (herbivores out.1)).
Proof.
  cbv zeta. unfold Baseland_feed_carnivores.
  pose proof (shuffle_spec (carnivores c) s) as (Hperm & Ho & Hn & Hl).
  destruct (shuffle (carnivores c) s) as [carns s1]. simpl in Hperm, Ho, Hn, Hl.
  pose proof (sorted_Permutation (λ h, fitness exp P (objs s1 !!! h)) false (herbivores c))
    as Hherbs.
  pose proof (sorted_by_key (λ h, fitness exp P (objs s1 !!! h)) false (herbivores c)) as Hs.
  simpl in Hs.
  remember (sorted (λ h, fitness exp P (objs s1 !!! h)) false (herbivores c)) as herbs
    eqn:Eherbs.
  clear Eherbs.
  pose proof (hunts_frame exp P carns herbs s1)
    as (Hsub & Hn' & Hl' & Hk & Hw & _ & Hu & Hlive). cbv zeta in *.
  destruct (foldl _ (herbs, s1) carns) as [herbs' s2]. simpl in *.
  rewrite Ho in *.
  split; [done|]. split; [done|]. split; [done|]. split; [done|].
  split; [by rewrite <- Hherbs; apply sublist_submseteq|].
  split; [congruence|]. split; [congruence|]. split; [done|].
  split; [|split; [|split]].
  - intros r Hr. apply Hw. by rewrite Hperm.
  - intros r Hr. apply Hu. by rewrite Hherbs.
  - intros Hall h Hh. apply Hlive; [|by rewrite Hherbs].
    intros h' Hh'. apply Hall. by rewrite <- Hherbs.
  - intros Hdisj. eapply StronglySorted_sublist; [exact Hsub|].
    assert (∀ h, h ∈ herbs →
              fitness exp P (objs s2 !!! h) = fitness exp P (objs s !!! h)) as Hfit.
    { intros h Hh. destruct (Hk h) as [Hsp Hage]. apply fitness_ext; [done..|].
      apply Hw. rewrite Hperm. apply Hdisj. by rewrite <- Hherbs. }
    clear -Hs Hfit. induction Hs as [|a l Hs IH Ha]; [constructor|].
    constructor.
    + apply IH. intros h Hh. apply Hfit. by right.
    + rewrite Forall_forall in Ha. apply Forall_forall. intros b Hb.
      rewrite (Hfit a), (Hfit b); [by apply Ha|by right|by left].
Qed.

Lemma params_of_species a b : species a = species b → params_of P a = params_of P b.
Proof. unfold params_of. by intros ->. Qed.


(** The loop of [feed_herbivores]. *)
Lemma feed_loop_frame animals :
  ∀ fodder s,
  let out := feed_loop P animals fodder s in
  next_ref out.2 = next_ref s ∧ log out.2 = log s ∧ rand out.2 = rand s ∧
  (∀ r, species (objs out.2 !!! r) = species (objs s !!! r) ∧
        age (objs out.2 !!! r) = age (objs s !!! r) ∧
        is_dead (objs out.2 !!! r) = is_dead (objs s !!! r)) ∧
  (∀ r, r ∉ animals → objs out.2 !!! r = objs s !!! r).
Proof.
  induction animals as [|animal rest IH]; intros fodder s; [done|].
  cbv zeta. rewrite feed_loop_cons. destruct (Qlt_bool 0 fodder); [|done].
  pose proof (feeding_frame P animal fodder s) as (Hn & Hl & Hr & Hk & Ho).
  destruct (feeding P animal fodder s) as [eaten s1]. simpl in Hn, Hl, Hr, Hk, Ho.
  pose proof (IH (fodder - eaten)%Q s1) as (In & Il & Ir & Ik & Io). cbv zeta in *.
  split; [congruence|]. split; [congruence|]. split; [congruence|]. split.
  - intros r. destruct (Ik r) as (-> & -> & ->). apply Hk.
  - intros r Hr'. apply not_elem_of_cons in Hr' as [Hne Hr']. rewrite (Io r Hr'). by apply Ho.
Qed.

Lemma feed_loop_fodder animals :
  NoDup animals →
  ∀ fodder s,
  (0 <= fodder)%Q →
  (∀ h, h ∈ animals → (0 <= F (params_of P (objs s !!! h)))%Q) →
  let out := feed_loop P animals fodder s in
  (0 <= out.1)%Q ∧ (out.1 <= fodder)%Q ∧
  ((0 < out.1)%Q →
   ∀ h, h ∈ animals →
        weight (objs out.2 !!! h)
        = (weight (objs s !!! h)
           + beta (params_of P (objs s !!! h)) * F (params_of P (objs s !!! h)))%Q).
Proof.
  induction animals as [|animal rest IH]; intros Hnd fodder s H0 HF.
  { cbv zeta. simpl. split; [done|]. split; [lra|]. intros _ h Hh.
    by apply not_elem_of_nil in Hh. }
  apply NoDup_cons in Hnd as [Hnot Hnd].
  cbv zeta. rewrite feed_loop_cons. destruct (Qlt_bool 0 fodder) eqn:Hpos.
  2:{ apply Qlt_bool_false in Hpos. simpl. split; [done|]. split; [lra|]. intros Hc. exfalso. lra. }
  apply Qlt_bool_true in Hpos.
  pose proof (feeding_frame P animal fodder s) as (_ & _ & _ & Hk & Ho).
  assert ((feeding P animal fodder s).1 = py_min fodder (F (params_of P (objs s !!! animal))))
    as Heaten by done.
  assert (weight (objs (feeding P animal fodder s).2 !!! animal)
          = (weight (objs s !!! animal)
             + beta (params_of P (objs s !!! animal)) * (feeding P animal fodder s).1)%Q)
    as Hgain.
  { unfold feeding. cbv zeta. cbn [fst snd]. rewrite update_lookup.
    by destruct (decide (animal = animal)). }
  destruct (feeding P animal fodder s) as [eaten s1]. simpl in Hk, Ho, Heaten, Hgain.
  assert (0 <= eaten)%Q as He0.
  { rewrite Heaten. apply py_min_nonneg; [lra|]. apply HF. left. }
  assert (eaten <= fodder)%Q as Hef by (rewrite Heaten; apply py_min_le_l).
  pose proof (IH Hnd (fodder - eaten)%Q s1) as IH'. cbv zeta in IH'.
  destruct IH' as (I0 & Ile & Ifull); [lra| |].
  { intros h Hh. destruct (Hk h) as (Hsp & _). rewrite (params_of_species _ _ Hsp).
    apply HF. by right. }
  pose proof (feed_loop_frame rest (fodder - eaten)%Q s1) as (_ & _ & _ & _ & Io).
  cbv zeta in Io.
  split; [done|]. split; [lra|]. intros Hleft h Hh.
  assert (eaten = F (params_of P (objs s !!! animal))) as HeF.
  { rewrite Heaten. unfold py_min.
    destruct (Qlt_bool (F (params_of P (objs s !!! animal))) fodder) eqn:Hlt; [done|].
    exfalso. assert (eaten = fodder) as Hall.
    { rewrite Heaten. unfold py_min. by rewrite Hlt. }
    rewrite Hall in Ile, Hleft. lra. }
  apply elem_of_cons in Hh as [->|Hh].
  - rewrite (Io animal Hnot), Hgain. by rewrite HeF.
  - rewrite (Ifull Hleft h Hh).
    assert (h ≠ animal) as Hne by (by intros ->).
    rewrite (Ho h Hne). done.
Qed.

Lemma Baseland_feed_herbivores_spec c s :
  let out := Baseland_feed_herbivores exp P c s in
  landtype out.1 = landtype c ∧ is_habitable out.1 = is_habitable c ∧
  herbivores out.1 = herbivores c ∧ carnivores out.1 = carnivores c ∧
  next_ref out.2 = next_ref s ∧ log out.2 = log s ∧ rand out.2 = rand s ∧
  (∀ r, species (objs out.2 !!! r) = species (objs s !!! r) ∧
        age (objs out.2 !!! r) = age (objs s !!! r) ∧
        is_dead (objs out.2 !!! r) = is_dead (objs s !!! r)) ∧
  (∀ r, r ∉ herbivores c → objs out.2 !!! r = objs s !!! r).
Proof.
  cbv zeta. unfold Baseland_feed_herbivores.
  pose proof (sorted_Permutation (λ h, fitness exp P (objs s !!! h)) true (herbivores c))
    as Hperm.
  pose proof (feed_loop_frame (sorted (λ h, fitness exp P (objs s !!! h)) true (herbivores c))
                (fodder c) s) as (Hn & Hl & Hr & Hk & Ho). cbv zeta in *.
  destruct (feed_loop P _ (fodder c) s) as [fodder' s']. simpl in *.
  repeat (split; [done|]). intros r Hr'. apply Ho. by rewrite Hperm.
Qed.

End Feeding.


(** ** Newborns *)

Section Newborns.
Context (exp : Q → Q) (P : Classes).

Lemma alloc_spec a s :
  (alloc a s).1 = next_ref s ∧ next_ref (alloc a s).2 = S (next_ref s) ∧
  log (alloc a s).2 = log s ∧
  objs (alloc a s).2 !!! next_ref s = a ∧
  (∀ r, r ≠ next_ref s → objs (alloc a s).2 !!! r = objs s !!! r).
Proof.
  unfold alloc. cbn [fst snd objs next_ref log].
  split; [done|]. split; [done|]. split; [done|]. split.
  - by rewrite lookup_total_insert_eq.
  - intros r Hr. by rewrite lookup_total_insert_ne.
Qed.

Lemma Animal_give_birth_frame r n s :
  let out := Animal_give_birth exp P r n s in
  log out.2 = log s ∧
  (∀ r', r' < next_ref s → species (objs out.2 !!! r') = species (objs s !!! r') ∧
                            age (objs out.2 !!! r') = age (objs s !!! r')) ∧
  match out.1 with
  | Some child =>
      child = next_ref s ∧ next_ref out.2 = S (next_ref s) ∧
      species (objs out.2 !!! child) = species (objs s !!! r) ∧
      age (objs out.2 !!! child) = 0%Z
  | None => next_ref out.2 = next_ref s
  end.
Proof.
  cbv zeta. unfold Animal_give_birth.
  destruct (n <=? 1)%nat; [done|]. cbv zeta.
  pose proof (random_frame s) as (Ho1 & Hn1 & Hl1).
  destruct (random s) as [u s1]. cbn [fst snd] in *.
  destruct (Qlt_bool u _).
  2:{ cbn [fst snd]. split; [congruence|]. split; [|congruence]. intros r' _. by rewrite Ho1. }
  pose proof (draw_weight_state (params_of P (objs s !!! r)) s1) as (Ho2 & Hn2 & Hl2).
  destruct (draw_weight (params_of P (objs s !!! r)) s1) as [w s2]. cbn [fst snd] in *.
  destruct (Qlt_bool _ 0).
  { cbn [fst snd]. split; [congruence|]. split; [|congruence].
    intros r' _. by rewrite Ho2, Ho1. }
  set (newborn := {| species := species (objs s !!! r); age := 0; weight := w;
                     is_dead := false |}).
  pose proof (alloc_spec newborn s2) as (Hc & Hn3 & Hl3 & Hnew & Hold).
  destruct (alloc newborn s2) as [child s3]. cbn [fst snd] in *.
  subst child.
  cbn [fst snd].
  match goal with |- context [update r ?f s3] =>
    pose proof (update_state r f s3) as (Hn4 & Hl4 & _);
    pose proof (update_lookup r f s3) as Hlook;
    generalize dependent (update r f s3) end.
  intros s4 Hn4 Hl4 Hlook.
  assert (∀ x, x < next_ref s → objs s3 !!! x = objs s !!! x) as Hsame.
  { intros x Hx. rewrite Hold; [|lia]. by rewrite Ho2, Ho1. }
  split; [congruence|]. split; [|split; [congruence|split; [congruence|]]].
  - intros r' Hr'. rewrite Hlook.
    destruct (decide (r' = r)) as [->|Hne]; cbn [species age]; by rewrite Hsame.
  - rewrite !Hlook.
    destruct (decide (next_ref s2 = r)) as [<-|Hne]; cbn [species age]; by rewrite Hnew.
Qed.

(** The newborns of one comprehension of [Baseland.birth]: at most one per
    parent, created in the order of the parents, each of the species of its
    parent; nothing that existed before changes species. *)
Lemma give_birth_newborns animals it :
  ∀ s,
  let out := give_birth exp P animals it s in
  next_ref s ≤ next_ref out.2 ∧
  (∀ r, r < next_ref s → species (objs out.2 !!! r) = species (objs s !!! r) ∧
                          age (objs out.2 !!! r) = age (objs s !!! r)) ∧
  StronglySorted lt out.1 ∧
  (∀ c, c ∈ out.1 → next_ref s ≤ c < next_ref out.2) ∧
  length out.1 ≤ length it ∧
  (∀ sp, (∀ a, a ∈ it → a < next_ref s ∧ species (objs s !!! a) = sp) →
         ∀ c, c ∈ out.1 → species (objs out.2 !!! c) = sp ∧ age (objs out.2 !!! c) = 0%Z).
Proof.
  induction it as [|animal it IH]; intros s.
  { cbv zeta. rewrite give_birth_nil. simpl.
    split; [done|]. split; [done|]. split; [constructor|].
    split; [by intros c ?%not_elem_of_nil|]. split; [done|].
    by intros sp _ c ?%not_elem_of_nil. }
  cbv zeta. rewrite give_birth_cons. cbv zeta.
  pose proof (Animal_give_birth_frame animal (length animals) s) as (_ & Hk & Hchild).
  cbv zeta in Hk, Hchild.
  destruct (Animal_give_birth exp P animal (length animals) s) as [child s1].
  cbn [fst snd] in *.
  pose proof (IH s1) as (In & Ik & Is & Ir & Il & Isp). cbv zeta in *.
  destruct (give_birth exp P animals it s1) as [children s2]. cbn [fst snd] in *.
  assert (next_ref s ≤ next_ref s1) as Hle.
  { destruct child as [c|]; [destruct Hchild as (_ & -> & _)|rewrite Hchild]; lia. }
  assert (∀ r, r < next_ref s → species (objs s2 !!! r) = species (objs s !!! r) ∧
                                  age (objs s2 !!! r) = age (objs s !!! r)) as Hk2.
  { intros r Hr. destruct (Ik r) as [-> ->]; [lia|]. by apply Hk. }
  split; [lia|]. split; [done|].
  destruct child as [c|].
  - destruct Hchild as (-> & Hn1 & Hsp & Hage).
    split; [|split; [|split]].
    + constructor; [done|]. apply Forall_forall. intros c Hc. apply Ir in Hc. lia.
    + intros c [->|Hc]%elem_of_cons; [lia|]. apply Ir in Hc. lia.
    + simpl. lia.
    + intros sp Hall c [->|Hc]%elem_of_cons.
      * destruct (Ik (next_ref s)) as [-> ->]; [lia|]. rewrite Hsp, Hage.
        split; [|done]. apply Hall. left.
      * apply (Isp sp); [|done]. intros a Ha. destruct (Hall a) as [Hlt Hs]; [by right|].
        split; [lia|]. by destruct (Hk a Hlt) as [-> _].
  - split; [done|]. split; [|split].
    + intros c Hc. apply Ir in Hc. lia.
    + simpl. lia.
    + intros sp Hall c Hc. apply (Isp sp); [|done].
      intros a Ha. destruct (Hall a) as [Hlt Hs]; [by right|].
      split; [lia|]. by destruct (Hk a Hlt) as [-> _].
Qed.

End Newborns.

(** ** The part of a year that one cell goes through *)

Lemma submseteq_NoDup {A} (l k : list A) : l ⊆+ k → NoDup k → NoDup l.
Proof.
  intros Hsub Hk. apply submseteq_Permutation in Hsub as [k' Hperm].
  rewrite Hperm in Hk. by apply NoDup_app in Hk as [? _].
Qed.

Lemma NoDup_chain_sub (c c' : Cell) :
  herbivores c' ⊆+ herbivores c → carnivores c' ⊆+ carnivores c →
  NoDup (chain c) → NoDup (chain c').
Proof.
  unfold chain. intros Hh Hc Hnd. apply NoDup_app in Hnd as (Hndh & Hdisj & Hndc).
  apply NoDup_app. split; [by eapply submseteq_NoDup|]. split; [|by eapply submseteq_NoDup].
  intros x Hx Hx'.
  apply (Hdisj x); [exact (elem_of_submseteq _ _ _ Hx Hh)|exact (elem_of_submseteq _ _ _ Hx' Hc)].
Qed.

Lemma cell_step_ok_ready s c s' c' :
  cell_ready s c → cell_step_ok s c s' c' → cell_ready s' c'.
Proof.
  intros [Honce Halloc Hherb Hcarn] [_ _ Hn Hsp Hh Hc Honce'].
  split; [done| | |].
  - intros a [Ha|Ha]%elem_of_app.
    + destruct (Hh a Ha) as [Hold|[Hnew _]]; [|lia].
      assert (a < next_ref s); [|lia]. apply Halloc, elem_of_app. by left.
    + destruct (Hc a Ha) as [Hold|[Hnew _]]; [|lia].
      assert (a < next_ref s); [|lia]. apply Halloc, elem_of_app. by right.
  - intros a Ha. destruct (Hh a Ha) as [Hold|[_ Hnew]]; [|done].
    rewrite Hsp; [by apply Hherb|]. apply Halloc, elem_of_app. by left.
  - intros a Ha. destruct (Hc a Ha) as [Hold|[_ Hnew]]; [|done].
    rewrite Hsp; [by apply Hcarn|]. apply Halloc, elem_of_app. by right.
Qed.

Lemma cell_step_ok_trans s c s1 c1 s2 c2 :
  cell_step_ok s c s1 c1 → cell_step_ok s1 c1 s2 c2 → cell_step_ok s c s2 c2.
Proof.
  intros [Hl Hb Hn Hsp Hh Hc _] [Hl' Hb' Hn' Hsp' Hh' Hc' Honce].
  split; [congruence|congruence|lia| | | |done].
  - intros r Hr. rewrite Hsp'; [by apply Hsp|lia].
  - intros a Ha. destruct (Hh' a Ha) as [Hold|[Hnew Hs]].
    + destruct (Hh a Hold) as [?|[Hnew Hs]]; [by left|]. right. split; [lia|].
      rewrite Hsp'; [done|lia].
    + right. split; [lia|done].
  - intros a Ha. destruct (Hc' a Ha) as [Hold|[Hnew Hs]].
    + destruct (Hc a Hold) as [?|[Hnew Hs]]; [by left|]. right. split; [lia|].
      rewrite Hsp'; [done|lia].
    + right. split; [lia|done].
Qed.

(** A phase that creates nothing, keeps every species, and leaves the cell
    with some of its animals. *)
Lemma cell_step_ok_shrink s c s' c' :
  NoDup (chain c) →
  landtype c' = landtype c → is_habitable c' = is_habitable c →
  next_ref s' = next_ref s →
  (∀ r, species (objs s' !!! r) = species (objs s !!! r)) →
  herbivores c' ⊆+ herbivores c → carnivores c' ⊆+ carnivores c →
  cell_step_ok s c s' c'.
Proof.
  intros Hnd Hl Hb Hn Hsp Hh Hc. split; [done|done|lia|by intros r _| | |].
  - intros a Ha. left. exact (elem_of_submseteq _ _ _ Ha Hh).
  - intros a Ha. left. exact (elem_of_submseteq _ _ _ Ha Hc).
  - by eapply NoDup_chain_sub.
Qed.

Section CellYear.
Context (exp : Q → Q) (P : Classes).

Lemma Baseland_feed_ok c s :
  NoDup (chain c) →
  let out := Baseland_feed exp P c s in
  cell_step_ok s c out.2 out.1 ∧
  herbivores out.1 ⊆+ herbivores c ∧ carnivores out.1 ≡ₚ carnivores c ∧
  next_ref out.2 = next_ref s.
Proof.
  intros Hnd. cbv zeta. unfold Baseland_feed.
  pose proof (Baseland_feed_herbivores_spec exp P c s)
    as (Hl & Hb & Hh & Hc & Hn & _ & _ & Hk & _). cbv zeta in *.
  destruct (Baseland_feed_herbivores exp P c s) as [c1 s1]. cbn [fst snd] in *.
  pose proof (Baseland_feed_carnivores_spec exp P c1 s1)
    as (Hl' & Hb' & _ & Hc' & Hh' & Hn' & _ & Hk' & _). cbv zeta in *.
  destruct (Baseland_feed_carnivores exp P c1 s1) as [c2 s2]. cbn [fst snd] in *.
  rewrite Hh in Hh'. rewrite Hc in Hc'.
  split; [|split; [done|split; [done|congruence]]].
  apply cell_step_ok_shrink; [done|congruence|congruence|congruence| |done|].
  - intros r. destruct (Hk' r) as [-> _]. by destruct (Hk r) as [-> _].
  - by rewrite Hc'.
Qed.

Lemma Baseland_birth_ok c s :
  cell_ready s c →
  let out := Baseland_birth exp P c s in
  cell_step_ok s c out.2 out.1 ∧
  length (chain out.1) ≤ 2 * length (chain c) ∧ fodder out.1 = fodder c.
Proof.
  intros [Honce Halloc Hherb Hcarn]. cbv zeta. rewrite Baseland_birth_phases. cbv zeta.
  set (phase := λ l s0, if (1 <? length l)%nat then give_birth exp P l l s0 else ([], s0)).
  assert (∀ l s0,
    let out := phase l s0 in
    next_ref s0 ≤ next_ref out.2 ∧
    (∀ r, r < next_ref s0 → species (objs out.2 !!! r) = species (objs s0 !!! r)) ∧
    NoDup out.1 ∧ (∀ c, c ∈ out.1 → next_ref s0 ≤ c < next_ref out.2) ∧
    length out.1 ≤ length l ∧
    (∀ sp, (∀ a, a ∈ l → a < next_ref s0 ∧ species (objs s0 !!! a) = sp) →
           ∀ c, c ∈ out.1 → species (objs out.2 !!! c) = sp)) as Hphase.
  { intros l s0. unfold phase. destruct (1 <? length l)%nat.
    - pose proof (give_birth_newborns exp P l l s0) as (Hn & Hk & Hs & Hr & Hlen & Hsp).
      cbv zeta in *. split; [done|]. split; [intros r Hr'; by apply Hk|].
      split; [|split; [done|split; [done|]]].
      + clear -Hs. induction Hs as [|x l' Hs IH Hx]; [constructor|].
        constructor; [|done]. intros Hin. rewrite Forall_forall in Hx.
        apply Hx in Hin. lia.
      + intros sp Hall x Hx. by apply (Hsp sp Hall x Hx).
    - cbv zeta. simpl. split; [done|]. split; [done|]. split; [constructor|].
      split; [by intros x ?%not_elem_of_nil|]. split; [lia|].
      by intros sp _ x ?%not_elem_of_nil. }
  pose proof (Hphase (herbivores c) s) as (Hn1 & Hk1 & Hnd1 & Hr1 & Hlen1 & Hsp1).
  cbv zeta in *.
  destruct (phase (herbivores c) s) as [born_h s1]. cbn [fst snd] in *.
  pose proof (Hphase (carnivores c) s1) as (Hn2 & Hk2 & Hnd2 & Hr2 & Hlen2 & Hsp2).
  cbv zeta in *.
  destruct (phase (carnivores c) s1) as [born_c s2]. cbn [fst snd] in *.
  assert (∀ a, a ∈ herbivores c → a < next_ref s) as Hah.
  { intros a Ha. apply Halloc, elem_of_app. by left. }
  assert (∀ a, a ∈ carnivores c → a < next_ref s) as Hac.
  { intros a Ha. apply Halloc, elem_of_app. by right. }
  split; [|split; [|done]].
  - split; [done|done|lia| | | |].
    + intros r Hr. rewrite Hk2; [by apply Hk1|lia].
    + intros a [Ha|Ha]%elem_of_app; [by left|]. right.
      pose proof (Hr1 a Ha). split; [lia|]. rewrite Hk2; [|lia].
      apply (Hsp1 Herbivore); [|done]. intros b Hb. split; [by apply Hah|by apply Hherb].
    + intros a [Ha|Ha]%elem_of_app; [by left|]. right.
      pose proof (Hr2 a Ha). split; [lia|].
      apply (Hsp2 Carnivore); [|done]. intros b Hb. split.
      * assert (b < next_ref s); [by apply Hac|lia].
      * rewrite Hk1; [by apply Hcarn|by apply Hac].
    + unfold chain in *. cbn [herbivores carnivores set_herbivores set_carnivores].
      apply NoDup_app in Honce as (Hndh & Hdisj & Hndc).
      rewrite <- app_assoc. apply NoDup_app. split; [done|]. split.
      * intros x Hx [Hin|[Hin|Hin]%elem_of_app]%elem_of_app.
        -- apply Hr1 in Hin. apply Hah in Hx. lia.
        -- by apply (Hdisj x).
        -- apply Hr2 in Hin. apply Hah in Hx. lia.
      * apply NoDup_app. split; [done|]. split.
        -- intros x Hx [Hin|Hin]%elem_of_app.
           ++ apply Hr1 in Hx. apply Hac in Hin. lia.
           ++ apply Hr1 in Hx. apply Hr2 in Hin. lia.
        -- apply NoDup_app. split; [done|]. split; [|done].
           intros x Hx Hin. apply Hr2 in Hin. apply Hac in Hx. lia.
  - unfold chain. cbn [herbivores carnivores set_herbivores set_carnivores].
    rewrite !length_app. lia.
Qed.

Lemma grow_cell_ok c s :
  cell_ready s c →
  let out := grow_cell exp P c s in
  cell_step_ok s c out.2 out.1 ∧ length (chain out.1) ≤ 2 * length (chain c).
Proof.
  intros Hready. cbv zeta. unfold grow_cell.
  assert (cell_ready s (Baseland_reset_fodder P c)) as Hready0.
  { destruct Hready as [? ? ? ?]. by split. }
  pose proof (Baseland_feed_ok (Baseland_reset_fodder P c) s (cr_once _ _ Hready0))
    as (Hfeed & Hh & Hc & _). cbv zeta in *.
  destruct (Baseland_feed exp P (Baseland_reset_fodder P c) s) as [c1 s1].
  cbn [fst snd] in *.
  pose proof (cell_step_ok_ready _ _ _ _ Hready0 Hfeed) as Hready1.
  pose proof (Baseland_birth_ok c1 s1 Hready1) as (Hbirth & Hlen & _). cbv zeta in *.
  destruct (Baseland_birth exp P c1 s1) as [c2 s2]. cbn [fst snd] in *.
  split.
  - pose proof (cell_step_ok_trans _ _ _ _ _ _ Hfeed Hbirth) as [? ? ? ? ? ? ?].
    by split.
  - apply submseteq_length in Hh. apply Permutation_length in Hc.
    unfold chain in *. rewrite !length_app in *.
    cbn [herbivores carnivores Baseland_reset_fodder set_fodder] in *. lia.
Qed.

Lemma update_species r (f : Animal → Animal) s :
  (∀ a, species (f a) = species a) →
  next_ref (update r f s) = next_ref s ∧
  ∀ x, species (objs (update r f s) !!! x) = species (objs s !!! x).
Proof.
  intros Hf. split; [done|]. intros x. rewrite update_lookup.
  by destruct (decide (x = r)) as [->|].
Qed.

Lemma foldl_update_frame (g : State → nat → State) l :
  (∀ st r, next_ref (g st r) = next_ref st ∧
           ∀ x, species (objs (g st r) !!! x) = species (objs st !!! x)) →
  ∀ s, next_ref (foldl g s l) = next_ref s ∧
       ∀ x, species (objs (foldl g s l) !!! x) = species (objs s !!! x).
Proof.
  intros Hg. induction l as [|r l IH]; intros s; [done|]. simpl.
  destruct (IH (g s r)) as [-> Hk]. destruct (Hg s r) as [-> Hk'].
  split; [done|]. intros x. by rewrite Hk, Hk'.
Qed.

Lemma select_next_ref (test : nat → State → bool * State) l :
  (∀ a s, next_ref (test a s).2 = next_ref s) →
  ∀ s, next_ref (select test l s).2 = next_ref s.
Proof.
  intros Ht. induction l as [|a l IH]; intros s; [done|]. simpl.
  pose proof (Ht a s) as H1. destruct (test a s) as [b s1]. simpl in H1.
  pose proof (IH s1) as H2. destruct (select test l s1) as [l' s2]. simpl in *. congruence.
Qed.

Lemma Baseland_die_spec c s :
  let out := Baseland_die exp P c s in
  landtype out.1 = landtype c ∧ is_habitable out.1 = is_habitable c ∧
  fodder out.1 = fodder c ∧
  herbivores out.1 `sublist_of` herbivores c ∧
  carnivores out.1 `sublist_of` carnivores c ∧
  objs out.2 = objs s ∧ next_ref out.2 = next_ref s.
Proof.
  cbv zeta. unfold Baseland_die.
  set (survives := λ a st, let '(d, st') := Animal_death exp P a st in (negb d, st')).
  assert (∀ a st, next_ref (survives a st).2 = next_ref st) as Hnext.
  { intros a st. unfold survives, Animal_death.
    destruct (Qle_bool _ 0); [done|]. cbv zeta.
    pose proof (random_frame st) as (_ & Hn & _). by destruct (random st). }
  pose proof (survivors_spec exp P (herbivores c) s) as [Hh Ho1].
  pose proof (select_next_ref survives (herbivores c) Hnext s) as Hn1.
  cbv zeta in Hh, Ho1. fold survives in Hh, Ho1.
  destruct (select survives (herbivores c) s) as [herbs s1]. cbn [fst snd] in *.
  pose proof (survivors_spec exp P (carnivores c) s1) as [Hc Ho2].
  pose proof (select_next_ref survives (carnivores c) Hnext s1) as Hn2.
  cbv zeta in Hc, Ho2. fold survives in Hc, Ho2.
  destruct (select survives (carnivores c) s1) as [carns s2]. cbn [fst snd] in *.
  repeat (split; [done|]). split; congruence.
Qed.

Lemma Animal_aging_frame st r :
  next_ref (Animal_aging r st) = next_ref st ∧
  ∀ x, species (objs (Animal_aging r st) !!! x) = species (objs st !!! x).
Proof. unfold Animal_aging. by apply update_species. Qed.

Lemma Animal_lose_weight_frame st r :
  next_ref (Animal_lose_weight P r st) = next_ref st ∧
  ∀ x, species (objs (Animal_lose_weight P r st) !!! x) = species (objs st !!! x).
Proof. unfold Animal_lose_weight. by apply update_species. Qed.

Lemma wither_cell_ok c s :
  cell_ready s c →
  let out := wither_cell exp P c s in
  cell_step_ok s c out.2 out.1 ∧ length (chain out.1) ≤ length (chain c).
Proof.
  intros Hready. cbv zeta. unfold wither_cell. cbv zeta.
  destruct (foldl_update_frame (λ st animal, Animal_aging animal st) (chain c)
              Animal_aging_frame s) as [Hn1 Hk1].
  fold (Baseland_aging c s) in Hn1, Hk1.
  destruct (foldl_update_frame (λ st animal, Animal_lose_weight P animal st) (chain c)
              Animal_lose_weight_frame (Baseland_aging c s))
    as [Hn2 Hk2].
  fold (Baseland_lose_weight P c (Baseland_aging c s)) in Hn2, Hk2.
  pose proof (Baseland_die_spec c (Baseland_lose_weight P c (Baseland_aging c s)))
    as (Hl & Hb & _ & Hh & Hc & Ho & Hn3). cbv zeta in *.
  destruct (Baseland_die exp P c _) as [c' s']. cbn [fst snd] in *.
  split.
  - apply cell_step_ok_shrink;
      [by destruct Hready|done|done|congruence| |by apply sublist_submseteq
      |by apply sublist_submseteq].
    intros r. by rewrite Ho, Hk2, Hk1.
  - apply sublist_length in Hh, Hc. unfold chain. rewrite !length_app. lia.
Qed.

End CellYear.

(** ** The island through the phases of a year *)

Lemma habitable_cell_eq m m' c : m' !! c = m !! c → habitable_cell m' c = habitable_cell m c.
Proof. unfold habitable_cell. rewrite !lookup_total_alt. by intros ->. Qed.

Lemma island_inv_ready (isl : Island) m s c :
  island_inv (set_island_map isl m) s → c ∈ habitable_map isl →
  ∃ cell, m !! c = Some cell ∧ is_habitable cell = true ∧ habitable_cell m c = cell ∧
          cell_ready s cell.
Proof.
  intros [Hwf Halloc _ _] Hc. simpl in *.
  destruct (proj1 (wf_habitable _ _ _ Hwf c) Hc) as (cell & Hcell & Hhab). simpl in *.
  exists cell. pose proof (habitable_cell_lookup _ _ _ Hcell) as Heq.
  split; [done|]. split; [done|]. split; [done|]. split.
  - rewrite <- Heq. by apply (wf_once _ _ _ Hwf).
  - intros a Ha. by apply (Halloc c cell).
  - intros a Ha. rewrite <- Heq in Ha. by apply (wf_herbivores _ _ _ Hwf c).
  - intros a Ha. rewrite <- Heq in Ha. by apply (wf_carnivores _ _ _ Hwf c).
Qed.

Lemma cell_update_inv (isl : Island) m s c s' cell' :
  island_inv (set_island_map isl m) s → c ∈ habitable_map isl →
  cell_step_ok s (habitable_cell m c) s' cell' →
  island_inv (set_island_map isl (<[c := cell']> m)) s'.
Proof.
  intros Hinv Hc Hstep.
  destruct (island_inv_ready _ _ _ _ Hinv Hc) as (cell & Hcell & Hhab & Heq & Hready).
  rewrite Heq in Hstep.
  destruct Hstep as [Hl Hb Hn Hsp Hh Hcn Honce].
  destruct Hinv as [Hwf Halloc Hwater Hclass]. simpl in *.
  destruct Hwf as [Hkeys Hhabit Hwonce Hapart Hherb Hcarn Hneigh]. simpl in *.
  assert (∀ x, x ≠ c → habitable_cell (<[c := cell']> m) x = habitable_cell m x) as Hother.
  { intros x Hx. apply habitable_cell_eq. by rewrite lookup_insert_ne. }
  assert (habitable_cell (<[c := cell']> m) c = cell') as Hself.
  { apply habitable_cell_lookup. by rewrite lookup_insert_eq. }
  assert (∀ x a, x ∈ habitable_map isl → a ∈ chain (habitable_cell m x) → a < next_ref s)
    as Halloc'.
  { intros x a Hx Ha.
    destruct (proj1 (Hhabit x) Hx) as (cx & Hcx & _).
    rewrite (habitable_cell_lookup _ _ _ Hcx) in Ha. by apply (Halloc x cx). }
  assert (∀ a, a ∈ chain cell' → a ∈ chain cell ∨ next_ref s ≤ a) as Hin.
  { intros a [Ha|Ha]%elem_of_app.
    - destruct (Hh a Ha) as [?|[? _]]; [left|right; lia]. apply elem_of_app. by left.
    - destruct (Hcn a Ha) as [?|[? _]]; [left|right; lia]. apply elem_of_app. by right. }
  split; [split| | |]; simpl.
  - done.
  - intros x. rewrite Hhabit. destruct (decide (x = c)) as [->|Hne].
    + rewrite lookup_insert_eq. split; [|by eauto].
      intros _. exists cell'. split; [done|congruence].
    + by rewrite lookup_insert_ne.
  - intros x Hx. destruct (decide (x = c)) as [->|Hne]; [by rewrite Hself|].
    rewrite Hother; [by apply Hwonce|done].
  - intros x x' a Hx Hx' Ha Ha'.
    destruct (decide (x = c)) as [->|Hne]; destruct (decide (x' = c)) as [->|Hne']; [done| | |].
    + rewrite Hself in Ha. rewrite Hother in Ha'; [|done].
      destruct (Hin a Ha) as [Hold|Hnew].
      * apply (Hapart c x' a); [done|done| |done]. by rewrite Heq.
      * pose proof (Halloc' x' a Hx' Ha'). lia.
    + rewrite Hself in Ha'. rewrite Hother in Ha; [|done].
      destruct (Hin a Ha') as [Hold|Hnew].
      * apply (Hapart x c a); [done|done|done|]. by rewrite Heq.
      * pose proof (Halloc' x a Hx Ha). lia.
    + rewrite Hother in Ha, Ha'; [|done..]. by apply (Hapart x x' a).
  - intros x a Hx Ha. destruct (decide (x = c)) as [->|Hne].
    + rewrite Hself in Ha. destruct (Hh a Ha) as [Hold|[_ Hnew]]; [|done].
      rewrite Hsp.
      * apply (Hherb c); [done|]. by rewrite Heq.
      * apply (Halloc' c); [done|]. rewrite Heq. apply elem_of_app. by left.
    + rewrite Hother in Ha; [|done]. rewrite Hsp; [by apply (Hherb x)|].
      apply (Halloc' x); [done|]. apply elem_of_app. by left.
  - intros x a Hx Ha. destruct (decide (x = c)) as [->|Hne].
    + rewrite Hself in Ha. destruct (Hcn a Ha) as [Hold|[_ Hnew]]; [|done].
      rewrite Hsp.
      * apply (Hcarn c); [done|]. by rewrite Heq.
      * apply (Halloc' c); [done|]. rewrite Heq. apply elem_of_app. by right.
    + rewrite Hother in Ha; [|done]. rewrite Hsp; [by apply (Hcarn x)|].
      apply (Halloc' x); [done|]. apply elem_of_app. by right.
  - intros x d Hx Hd. destruct (decide (coord_add x d = c)) as [->|Hne].
    + by rewrite lookup_insert_eq.
    + rewrite lookup_insert_ne; [|done]. by apply Hneigh.
  - intros x cx a. destruct (decide (x = c)) as [->|Hne].
    + rewrite lookup_insert_eq. intros [= <-] Ha.
      apply elem_of_app in Ha as [Ha|Ha].
      * destruct (Hh a Ha) as [?|[? _]]; [|lia].
        assert (a < next_ref s); [|lia]. apply (Halloc c cell); [done|].
        apply elem_of_app. by left.
      * destruct (Hcn a Ha) as [?|[? _]]; [|lia].
        assert (a < next_ref s); [|lia]. apply (Halloc c cell); [done|].
        apply elem_of_app. by right.
    + rewrite lookup_insert_ne; [|done]. intros Hcx Ha.
      assert (a < next_ref s); [|lia]. by apply (Halloc x cx).
  - intros x cx. destruct (decide (x = c)) as [->|Hne].
    + rewrite lookup_insert_eq. intros [= <-]. congruence.
    + rewrite lookup_insert_ne; [|done]. apply Hwater.
  - intros x cx. destruct (decide (x = c)) as [->|Hne].
    + rewrite lookup_insert_eq. intros [= <-]. rewrite Hl, Hb. by apply (Hclass c).
    + rewrite lookup_insert_ne; [|done]. apply Hclass.
Qed.

Lemma cells_loop_inv (isl : Island) (run : list Coord → gmap Coord Cell → State → gmap Coord Cell * State)
    (f : Cell → State → Cell * State) (k : nat) :
  (∀ m s, run [] m s = (m, s)) →
  (∀ c coords m s,
     run (c :: coords) m s =
       let '(cell', s') := f (habitable_cell m c) s in run coords (<[c := cell']> m) s') →
  (∀ c s, cell_ready s c →
          cell_step_ok s c (f c s).2 (f c s).1 ∧
          length (chain (f c s).1) ≤ k * length (chain c)) →
  1 ≤ k →
  ∀ todo m s,
  NoDup todo → (∀ c, c ∈ todo → c ∈ habitable_map isl) →
  island_inv (set_island_map isl m) s →
  let out := run todo m s in
  island_inv (set_island_map isl out.1) out.2 ∧
  next_ref s ≤ next_ref out.2 ∧
  (∀ c, c ∉ todo → out.1 !! c = m !! c) ∧
  (∀ c, length (chain (habitable_cell out.1 c)) ≤ k * length (chain (habitable_cell m c))).
Proof.
  intros Hnil Hcons Hf Hk. induction todo as [|c todo IH]; intros m s Hnd Hsub Hinv.
  { cbv zeta. rewrite Hnil. simpl. split; [done|]. split; [done|]. split; [done|].
    intros c. nia. }
  apply NoDup_cons in Hnd as [Hnot Hnd].
  cbv zeta. rewrite Hcons.
  assert (c ∈ habitable_map isl) as Hc by (apply Hsub; left).
  destruct (island_inv_ready _ _ _ _ Hinv Hc) as (cell & Hcell & Hhab & Heq & Hready).
  destruct (Hf (habitable_cell m c) s) as [Hstep Hlen]; [by rewrite Heq|].
  destruct (f (habitable_cell m c) s) as [cell' s'] eqn:Hrun. cbn [fst snd] in *.
  pose proof (cell_update_inv isl m s c s' cell' Hinv Hc Hstep) as Hinv'.
  destruct (IH (<[c := cell']> m) s' Hnd) as (Iinv & In & Iframe & Ilen); [|done|].
  { intros x Hx. apply Hsub. by right. }
  cbv zeta in *.
  split; [done|]. split; [pose proof (cs_next_ref _ _ _ _ Hstep); lia|]. split.
  - intros x [Hne Hx]%not_elem_of_cons. rewrite Iframe; [|done]. by rewrite lookup_insert_ne.
  - intros x. destruct (decide (x = c)) as [->|Hne].
    + rewrite (habitable_cell_eq _ _ _ (Iframe c Hnot)).
      rewrite (habitable_cell_lookup _ c cell'); [done|]. by rewrite lookup_insert_eq.
    + etrans; [apply Ilen|]. rewrite (habitable_cell_eq (<[c:=cell']> m) m x); [done|].
      by rewrite lookup_insert_ne.
Qed.

(** ** What migration keeps *)

Lemma cells_kept_refl m : cells_kept m m.
Proof. split; [intros c cell ?; by exists cell|intros c cell a ? ?; by exists c, cell]. Qed.

Lemma cells_kept_trans m1 m2 m3 : cells_kept m1 m2 → cells_kept m2 m3 → cells_kept m1 m3.
Proof.
  intros [Hc1 Ha1] [Hc2 Ha2]. split.
  - intros c cell3 H3. destruct (Hc2 c cell3 H3) as (cell2 & H2 & Hl2 & Hb2 & Hf2).
    destruct (Hc1 c cell2 H2) as (cell1 & H1 & Hl1 & Hb1 & Hf1).
    exists cell1. split; [done|]. split; [congruence|]. split; congruence.
  - intros c cell3 a H3 Ha. destruct (Ha2 c cell3 a H3 Ha) as (c2 & cell2 & H2 & Ha').
    by apply (Ha1 c2 cell2 a).
Qed.

Lemma list_remove_inv x l l' :
  list_remove x l = Ok l' → x ∈ l ∧ ∀ y, y ∈ l' → y ∈ l.
Proof.
  revert l'. induction l as [|z l IH]; intros l'; simpl; [done|].
  destruct (decide (z = x)) as [->|Hne].
  - intros [= <-]. split; [left|]. intros y Hy. by right.
  - destruct (list_remove x l) as [l''|e]; [|done]. simpl. intros [= <-].
    destruct (IH l'' eq_refl) as [Hx Hsub]. split; [by right|].
    intros y [->|Hy]%elem_of_cons; [left|right; by apply Hsub].
Qed.

Lemma list_remove_after_append x l l' :
  list_remove x (l ++ [x]) = Ok l' → ∀ y, y ∈ l' → y ∈ l.
Proof.
  revert l'. induction l as [|z l IH]; intros l'; simpl.
  - destruct (decide (x = x)); [|done]. by intros [= <-].
  - destruct (decide (z = x)) as [->|Hne].
    + intros [= <-] y [Hy|Hy]%elem_of_app; [by right|].
      apply list_elem_of_singleton in Hy as ->. left.
    + destruct (list_remove x (l ++ [x])) as [l''|e]; [|done]. simpl. intros [= <-].
      intros y [->|Hy]%elem_of_cons; [left|right; by apply (IH l'')].
Qed.

Lemma remove_animal_inv cell a s cell' :
  Baseland_remove_animal cell a s = Ok cell' →
  landtype cell' = landtype cell ∧ is_habitable cell' = is_habitable cell ∧
  fodder cell' = fodder cell ∧
  a ∈ chain cell ∧ (∀ b, b ∈ chain cell' → b ∈ chain cell).
Proof.
  unfold Baseland_remove_animal, chain. destruct (species (objs s !!! a)).
  - destruct (list_remove a (herbivores cell)) as [l|e] eqn:Hrm; [|done].
    simpl. intros [= <-]. simpl. apply list_remove_inv in Hrm as [Ha Hsub].
    repeat (split; [done|]). split; [apply elem_of_app; by left|].
    intros b [Hb|Hb]%elem_of_app; apply elem_of_app; [left; by apply Hsub|by right].
  - destruct (list_remove a (carnivores cell)) as [l|e] eqn:Hrm; [|done].
    simpl. intros [= <-]. simpl. apply list_remove_inv in Hrm as [Ha Hsub].
    repeat (split; [done|]). split; [apply elem_of_app; by right|].
    intros b [Hb|Hb]%elem_of_app; apply elem_of_app; [by left|right; by apply Hsub].
Qed.

Lemma remove_after_place cell a s cell' :
  Baseland_remove_animal (Baseland_place_animal cell a s) a s = Ok cell' →
  ∀ b, b ∈ chain cell' → b ∈ chain cell.
Proof.
  unfold Baseland_remove_animal, Baseland_place_animal, chain.
  destruct (species (objs s !!! a)); simpl.
  - destruct (list_remove a (herbivores cell ++ [a])) as [l|e] eqn:Hrm; [|done].
    simpl. intros [= <-]. simpl. intros b [Hb|Hb]%elem_of_app; apply elem_of_app.
    + left. by apply (list_remove_after_append a _ l).
    + by right.
  - destruct (list_remove a (carnivores cell ++ [a])) as [l|e] eqn:Hrm; [|done].
    simpl. intros [= <-]. simpl. intros b [Hb|Hb]%elem_of_app; apply elem_of_app.
    + by left.
    + right. by apply (list_remove_after_append a _ l).
Qed.

Lemma place_animal_class cell a s :
  landtype (Baseland_place_animal cell a s) = landtype cell ∧
  is_habitable (Baseland_place_animal cell a s) = is_habitable cell ∧
  fodder (Baseland_place_animal cell a s) = fodder cell.
Proof. unfold Baseland_place_animal. by destruct (species (objs s !!! a)). Qed.

Lemma relocate_kept a from to m s :
  match relocate a from to m s with
  | Ok (m', s') =>
      cells_kept m m' ∧ objs s' = objs s ∧ next_ref s' = next_ref s ∧ rand s' = rand s
  | Raise _ => True
  end.
Proof.
  unfold relocate. destruct (m !! to) as [dest|] eqn:Hto; [|done].
  destruct (<[to := Baseland_place_animal dest a s]> m !! from) as [origin|] eqn:Hfrom;
    [|done].
  destruct (Baseland_remove_animal origin a s) as [origin'|e] eqn:Hrm; [|done]. simpl.
  split; [|done].
  pose proof (place_animal_class dest a s) as (Hpl & Hpb & Hpf).
  pose proof (remove_animal_inv _ _ _ _ Hrm) as (Hrl & Hrb & Hrf & Hain & Hrsub).
  destruct (decide (from = to)) as [->|Hne].
  - rewrite lookup_insert_eq in Hfrom. injection Hfrom as <-.
    split.
    + intros c cell'. destruct (decide (c = to)) as [->|Hc].
      * rewrite lookup_insert_eq. intros [= <-]. exists dest.
        split; [done|]. split; [congruence|]. split; congruence.
      * rewrite !lookup_insert_ne; [|done..]. intros Hc'. by exists cell'.
    + intros c cell' b. destruct (decide (c = to)) as [->|Hc].
      * rewrite lookup_insert_eq. intros [= <-] Hb. exists to, dest. split; [done|].
        by apply (remove_after_place dest a s origin').
      * rewrite !lookup_insert_ne; [|done..]. intros Hc' Hb. by exists c, cell'.
  - rewrite lookup_insert_ne in Hfrom; [|done].
    split.
    + intros c cell'. destruct (decide (c = from)) as [->|Hc].
      * rewrite lookup_insert_eq. intros [= <-]. exists origin. done.
      * rewrite lookup_insert_ne; [|done]. destruct (decide (c = to)) as [->|Hc'].
        -- rewrite lookup_insert_eq. intros [= <-]. by exists dest.
        -- rewrite lookup_insert_ne; [|done]. intros Hc''. by exists cell'.
    + intros c cell' b. destruct (decide (c = from)) as [->|Hc].
      * rewrite lookup_insert_eq. intros [= <-] Hb. exists from, origin.
        split; [done|]. by apply Hrsub.
      * rewrite lookup_insert_ne; [|done]. destruct (decide (c = to)) as [->|Hc'].
        -- rewrite lookup_insert_eq. intros [= <-] Hb.
           rewrite place_animal_chain in Hb. apply elem_of_cons in Hb as [->|Hb].
           ++ by exists from, origin.
           ++ by exists to, dest.
        -- rewrite lookup_insert_ne; [|done]. intros Hc'' Hb. by exists c, cell'.
Qed.

Lemma migrate_from_kept coord animals :
  ∀ m q s,
  match migrate_from coord animals m q s with
  | Ok (m', _, s') => cells_kept m m' ∧ objs s' = objs s ∧ next_ref s' = next_ref s
  | Raise _ => True
  end.
Proof.
  induction animals as [|animal rest IH]; intros m q s.
  { simpl. split; [apply cells_kept_refl|done]. }
  rewrite migrate_from_cons.
  pose proof (randbelow_spec (length move_direction_map) s) as Hr.
  destruct (randbelow (length move_direction_map) s) as [k s1]. simpl in Hr.
  destruct Hr as (_ & Ho & _ & Hn); [lia|]. cbv zeta.
  destruct (m !! coord_add coord (move_direction_map !!! k)) as [dest|]; [|done].
  destruct (is_habitable dest).
  - destruct (bool_decide _).
    + pose proof (relocate_kept animal coord (coord_add coord (move_direction_map !!! k)) m s1)
        as Hrel.
      destruct (relocate animal coord _ m s1) as [[m1 s2]|e]; [|done]. simpl.
      destruct Hrel as (Hk & Ho2 & Hn2 & _).
      pose proof (IH m1 q s2) as IH'.
      destruct (migrate_from coord rest m1 q s2) as [[[m' q'] s']|e]; [|done].
      destruct IH' as (Hk' & Ho' & Hn').
      split; [by eapply cells_kept_trans|]. split; congruence.
    + pose proof (IH m (q ++ [{| p_from := coord;
                                  p_to := coord_add coord (move_direction_map !!! k);
                                  p_animal := animal |}]) s1) as IH'.
      destruct (migrate_from coord rest m _ s1) as [[[m' q'] s']|e]; [|done].
      destruct IH' as (Hk' & Ho' & Hn'). split; [done|]. split; congruence.
  - pose proof (IH m q s1) as IH'.
    destruct (migrate_from coord rest m q s1) as [[[m' q'] s']|e]; [|done].
    destruct IH' as (Hk' & Ho' & Hn'). split; [done|]. split; congruence.
Qed.

Lemma migrate_held_kept q :
  ∀ m s,
  match migrate_held q m s with
  | Ok (m', s') => cells_kept m m' ∧ objs s' = objs s ∧ next_ref s' = next_ref s
  | Raise _ => True
  end.
Proof.
  induction q as [|x q IH]; intros m s.
  { simpl. split; [apply cells_kept_refl|done]. }
  simpl. pose proof (relocate_kept (p_animal x) (p_from x) (p_to x) m s) as Hrel.
  destruct (relocate (p_animal x) (p_from x) (p_to x) m s) as [[m1 s1]|e]; [|done]. simpl.
  destruct Hrel as (Hk & Ho & Hn & _).
  pose proof (IH m1 s1) as IH'. destruct (migrate_held q m1 s1) as [[m' s']|e]; [|done].
  destruct IH' as (Hk' & Ho' & Hn'). split; [by eapply cells_kept_trans|]. split; congruence.
Qed.

Section YearOfTheIsland.
Context (exp : Q → Q) (P : Classes).

Lemma migrate_cells_kept coords :
  ∀ m q s,
  match migrate_cells exp P coords m q s with
  | Ok (m', _, s') => cells_kept m m' ∧ objs s' = objs s ∧ next_ref s' = next_ref s
  | Raise _ => True
  end.
Proof.
  induction coords as [|coord rest IH]; intros m q s.
  { simpl. split; [apply cells_kept_refl|done]. }
  rewrite migrate_cells_cons.
  pose proof (get_migrations_spec exp P (habitable_cell m coord) s) as (_ & Ho & _).
  assert (next_ref (Baseland_get_migrations exp P (habitable_cell m coord) s).2 = next_ref s)
    as Hn.
  { unfold Baseland_get_migrations. apply select_next_ref. intros a st.
    unfold Animal_migrate. cbv zeta. pose proof (random_frame st) as (_ & ? & _).
    by destruct (random st). }
  destruct (Baseland_get_migrations exp P (habitable_cell m coord) s) as [animals s1].
  cbn [fst snd] in *.
  pose proof (migrate_from_kept coord animals m q s1) as Hfrom.
  destruct (migrate_from coord animals m q s1) as [[[m1 q1] s2]|e]; [|done]. simpl.
  destruct Hfrom as (Hk & Ho2 & Hn2).
  pose proof (IH m1 q1 s2) as IH'.
  destruct (migrate_cells exp P rest m1 q1 s2) as [[[m' q'] s']|e]; [|done].
  destruct IH' as (Hk' & Ho' & Hn'). split; [by eapply cells_kept_trans|]. split; congruence.
Qed.

Lemma Island_migrate_kept isl s isl' s' :
  Island_migrate exp P isl s = Ok (isl', s') →
  cells_kept (island_map isl) (island_map isl') ∧
  geography isl' = geography isl ∧ habitable_map isl' = habitable_map isl ∧
  objs s' = objs s ∧ next_ref s' = next_ref s.
Proof.
  unfold Island_migrate.
  pose proof (migrate_cells_kept (habitable_map isl) (island_map isl) [] s) as Hcells.
  destruct (migrate_cells exp P (habitable_map isl) (island_map isl) [] s)
    as [[[m q] s1]|e]; [|done]. simpl.
  destruct Hcells as (Hk & Ho & Hn).
  pose proof (migrate_held_kept q m s1) as Hheld.
  destruct (migrate_held q m s1) as [[m' s2]|e]; [|done]. simpl.
  destruct Hheld as (Hk' & Ho' & Hn'). intros [= <- <-]. simpl.
  split; [by eapply cells_kept_trans|]. split; [done|]. split; [done|]. split; congruence.
Qed.

Lemma island_inv_ext isl1 isl2 s :
  island_map isl1 = island_map isl2 → habitable_map isl1 = habitable_map isl2 →
  island_inv isl1 s → island_inv isl2 s.
Proof.
  intros Hm Hh [Hwf Halloc Hwater Hclass]. unfold island_wf in Hwf.
  split; unfold island_wf; rewrite <- ?Hm, <- ?Hh; done.
Qed.

(** [Island.migrate] on a consistent island. *)
Lemma Island_migrate_inv isl s :
  island_inv isl s →
  ∃ isl' s',
    Island_migrate exp P isl s = Ok (isl', s') ∧ island_inv isl' s' ∧
    geography isl' = geography isl ∧ habitable_map isl' = habitable_map isl ∧
    Island_num_animals isl' = Island_num_animals isl ∧
    (∀ c, c ∉ habitable_map isl → island_map isl' !! c = island_map isl !! c) ∧
    next_ref s' = next_ref s.
Proof.
  intros [Hwf Halloc Hwater Hclass].
  destruct (Island_migrate_ok exp P isl s Hwf)
    as (isl' & s' & moves & Hrun & Hwf' & Hhab & Hcount & Hout & _).
  destruct (Island_migrate_kept _ _ _ _ Hrun) as ([Hcells Hanimals] & Hgeo & _ & Ho & Hn).
  exists isl', s'. split; [done|]. split; [|done].
  split; [done| | |].
  - intros c cell' a Hc Ha. destruct (Hanimals c cell' a Hc Ha) as (c0 & cell0 & Hc0 & Ha0).
    rewrite Hn. by apply (Halloc c0 cell0).
  - intros c cell' Hc Hnot. destruct (Hcells c cell' Hc) as (cell & Hcell & _ & Hb & _).
    assert (c ∉ habitable_map isl) as Hout'.
    { intros Hin. apply (wf_habitable _ _ _ Hwf) in Hin as (cell0 & Hcell0 & Hb0).
      congruence. }
    rewrite (Hout c Hout') in Hc. assert (cell' = cell) as -> by congruence.
    apply (Hwater c); [done|congruence].
  - intros c cell' Hc. destruct (Hcells c cell' Hc) as (cell & Hcell & -> & -> & _).
    by apply (Hclass c).
Qed.

Lemma grow_cells_cons c coords m s :
  grow_cells exp P (c :: coords) m s =
    let '(cell', s') := grow_cell exp P (habitable_cell m c) s in
    grow_cells exp P coords (<[c := cell']> m) s'.
Proof.
  unfold grow_cells, grow_cell. cbn [foldl].
  destruct (Baseland_feed exp P _ s) as [c1 s1].
  by destruct (Baseland_birth exp P c1 s1) as [c2 s2].
Qed.

Lemma wither_cells_cons c coords m s :
  wither_cells exp P (c :: coords) m s =
    let '(cell', s') := wither_cell exp P (habitable_cell m c) s in
    wither_cells exp P coords (<[c := cell']> m) s'.
Proof.
  unfold wither_cells, wither_cell. cbn [foldl].
  by destruct (Baseland_die exp P _ _) as [c1 s1].
Qed.

Lemma head_count_le m m' k hab :
  (∀ c, length (chain (habitable_cell m' c)) ≤ k * length (chain (habitable_cell m c))) →
  head_count m' hab ≤ k * head_count m hab.
Proof.
  intros Hlen. induction hab as [|c hab IH]; [unfold head_count; simpl; nia|].
  rewrite !head_count_cons, !Cell_num_animals_chain. pose proof (Hlen c). nia.
Qed.

(** [Island.step] on a consistent island. *)
Lemma Island_step_inv isl s :
  island_inv isl s →
  ∃ isl' s',
    Island_step exp P isl s = Ok (isl', s') ∧ island_inv isl' s' ∧
    geography isl' = geography isl ∧ habitable_map isl' = habitable_map isl ∧
    (∀ c, c ∉ habitable_map isl → island_map isl' !! c = island_map isl !! c) ∧
    Island_num_animals isl' ≤ 2 * Island_num_animals isl ∧
    next_ref s ≤ next_ref s'.
Proof.
  intros Hinv. unfold Island_step.
  assert (NoDup (habitable_map isl)) as Hnd by apply (wf_keys _ _ _ (inv_wf _ _ Hinv)).
  pose proof (cells_loop_inv isl (grow_cells exp P) (grow_cell exp P) 2
                (λ m s, eq_refl) grow_cells_cons (grow_cell_ok exp P) ltac:(lia)
                (habitable_map isl) (island_map isl) s Hnd (λ c H, H)) as Hgrow.
  destruct Hgrow as (Hinv1 & Hn1 & Hout1 & Hlen1).
  { by apply (island_inv_ext isl). }
  destruct (grow_cells exp P (habitable_map isl) (island_map isl) s) as [m1 s1].
  cbn [fst snd] in *.
  destruct (Island_migrate_inv _ _ Hinv1)
    as (isl2 & s2 & Hrun & Hinv2 & Hgeo2 & Hhab2 & Hcount2 & Hout2 & Hn2).
  rewrite Hrun. simpl. simpl in Hhab2, Hgeo2, Hout2.
  pose proof (cells_loop_inv isl2 (wither_cells exp P) (wither_cell exp P) 1
                (λ m s, eq_refl) wither_cells_cons) as Hwither.
  assert (∀ c0 s0, cell_ready s0 c0 →
            cell_step_ok s0 c0 (wither_cell exp P c0 s0).2 (wither_cell exp P c0 s0).1 ∧
            length (chain (wither_cell exp P c0 s0).1) ≤ 1 * length (chain c0)) as Hw1.
  { intros c0 s0 Hr. destruct (wither_cell_ok exp P c0 s0 Hr) as [? ?]. split; [done|lia]. }
  destruct (Hwither Hw1 ltac:(lia) (habitable_map isl2) (island_map isl2) s2)
    as (Hinv3 & Hn3 & Hout3 & Hlen3).
  { by rewrite Hhab2. } { done. } { by apply (island_inv_ext isl2). }
  destruct (wither_cells exp P (habitable_map isl2) (island_map isl2) s2) as [m3 s3].
  cbn [fst snd] in *.
  eexists _, _. split; [done|]. split; [done|]. simpl.
  split; [done|]. split; [done|]. split; [|split; [|lia]].
  - intros c Hc. rewrite Hout3; [|by rewrite Hhab2]. rewrite Hout2; [|done]. simpl.
    by apply Hout1.
  - pose proof (head_count_le (island_map isl) m1 2 (habitable_map isl) Hlen1) as Hc1.
    pose proof (head_count_le (island_map isl2) m3 1 (habitable_map isl) Hlen3) as Hc3.
    rewrite !Island_num_animals_head_count in *. cbn [island_map habitable_map set_island_map] in *.
    rewrite Hhab2 in *. lia.
Qed.

End YearOfTheIsland.

(** ** Construction and placement *)

Lemma Island_init_inv f_max geography isl s :
  Island_init f_max geography = Ok isl → island_inv isl s.
Proof.
  intros Hinit. destruct (Island_init_wf f_max geography isl (objs s) Hinit)
    as (Hwf & _ & Hempty).
  split; [done| | |].
  - intros c cell a Hc Ha. rewrite (Hempty c cell Hc) in Ha. by apply not_elem_of_nil in Ha.
  - intros c cell Hc _. by apply (Hempty c).
  - intros c cell Hc.
    destruct (island_map_lookup_inv _ _ _ _ _ Hinit Hc) as (_ & i & j & r & y & _ & _ & Heq).
    injection Heq as _ ->. unfold new_cell. simpl.
    by destruct (default Water (cell_map y)).
Qed.

Section Placing.
Context (P : Classes).

Lemma Animal_init_spec sp age0 w s a s' :
  Animal_init P sp age0 w s = Ok (a, s') →
  a = next_ref s ∧ next_ref s' = S (next_ref s) ∧ log s' = log s ∧
  species (objs s' !!! a) = sp ∧ age (objs s' !!! a) = age0 ∧ (0 <= age0)%Z ∧
  (0 <= weight (objs s' !!! a))%Q ∧
  (∀ r, r ≠ a → objs s' !!! r = objs s !!! r).
Proof.
  unfold Animal_init. destruct (age0 <? 0)%Z eqn:Hage; [done|].
  apply Z.ltb_ge in Hage. destruct w as [w|].
  - destruct (Qlt_bool w 0) eqn:Hw; [done|]. apply Qlt_bool_false in Hw.
    pose proof (alloc_spec {| species := sp; age := age0; weight := w; is_dead := false |} s)
      as (Ha & Hn & Hl & Hnew & Hold).
    destruct (alloc _ s) as [a0 s0]. cbn [fst snd] in *. intros [= <- <-]. subst a0.
    rewrite Hnew. by repeat (split; [done|]).
  - pose proof (draw_weight_nonneg (animal_params P sp) s) as Hw.
    pose proof (draw_weight_state (animal_params P sp) s) as (Ho1 & Hn1 & Hl1).
    destruct (draw_weight (animal_params P sp) s) as [w s1]. cbn [fst snd] in *.
    pose proof (alloc_spec {| species := sp; age := age0; weight := w; is_dead := false |} s1)
      as (Ha & Hn & Hl & Hnew & Hold).
    destruct (alloc _ s1) as [a0 s0]. cbn [fst snd] in *. intros [= <- <-]. subst a0.
    rewrite Hn1 in *. rewrite Hnew. repeat (split; [done || congruence|]).
    intros r Hr. rewrite Hold; [|done]. by rewrite Ho1.
Qed.

Lemma Cell_add_animal_ok c animal s c' s' :
  cell_ready s c →
  Cell_add_animal P c animal s = Ok (c', s') →
  landtype c ≠ Water ∧ cell_step_ok s c s' c' ∧
  length (chain c') = S (length (chain c)) ∧ fodder c' = fodder c.
Proof.
  intros [Honce Halloc Hherb Hcarn]. unfold Cell_add_animal.
  destruct (decide (landtype c = Water)) as [Hw|Hw].
  { by rewrite Hw. }
  assert (Baseland_add_animal P c animal s = Ok (c', s') →
          landtype c ≠ Water ∧ cell_step_ok s c s' c' ∧
          length (chain c') = S (length (chain c)) ∧ fodder c' = fodder c) as Hadd.
  2:{ by destruct (landtype c). }
  unfold Baseland_add_animal. destruct (animal_map (d_species animal)) as [sp|]; [|done].
  destruct (Animal_init P sp _ (d_weight animal) s) as [[a s1]|e] eqn:Hinit; [|done].
  simpl. intros [= <- <-].
  apply Animal_init_spec in Hinit as (-> & Hn & _ & Hsp & _ & _ & _ & Hold).
  assert (next_ref s ∉ chain c) as Hfresh.
  { intros Hin. apply Halloc in Hin. lia. }
  split; [done|]. unfold Baseland_place_animal. rewrite Hsp.
  split; [|destruct sp; (unfold chain; simpl; rewrite !length_app; simpl; split; [lia|done])].
  split.
  - by destruct sp.
  - by destruct sp.
  - lia.
  - intros r Hr. rewrite Hold; [done|lia].
  - intros a Ha. destruct sp; simpl in Ha; [|by left].
    apply elem_of_app in Ha as [Ha|Ha]; [by left|]. apply list_elem_of_singleton in Ha as ->.
    right. split; [lia|done].
  - intros a Ha. destruct sp; simpl in Ha; [by left|].
    apply elem_of_app in Ha as [Ha|Ha]; [by left|]. apply list_elem_of_singleton in Ha as ->.
    right. split; [lia|done].
  - unfold chain in *. apply NoDup_app in Honce as (Hndh & Hdisj & Hndc).
    assert (next_ref s ∉ herbivores c) as Hfh.
    { intros Hin. apply Hfresh, elem_of_app. by left. }
    assert (next_ref s ∉ carnivores c) as Hfc.
    { intros Hin. apply Hfresh, elem_of_app. by right. }
    destruct sp; simpl.
    + apply NoDup_app. split; [|split; [|done]].
      * apply NoDup_app. split; [done|]. split; [|apply NoDup_singleton].
        intros x Hx Hx'. apply list_elem_of_singleton in Hx' as ->. done.
      * intros x Hx. apply elem_of_app in Hx as [Hx|Hx]; [by apply Hdisj|].
        apply list_elem_of_singleton in Hx as ->. done.
    + apply NoDup_app. split; [done|]. split.
      * intros x Hx Hin. apply elem_of_app in Hin as [Hin|Hin]; [by apply (Hdisj x)|].
        apply list_elem_of_singleton in Hin as ->. done.
      * apply NoDup_app. split; [done|]. split; [|apply NoDup_singleton].
        intros x Hx Hx'. apply list_elem_of_singleton in Hx' as ->. done.
Qed.

Lemma place_at_inv loc animals :
  ∀ isl s,
  island_inv isl s →
  let out := place_at P loc animals isl s in
  island_inv out.2.1 out.2.2 ∧
  geography out.2.1 = geography isl ∧ habitable_map out.2.1 = habitable_map isl ∧
  (∀ c, c ≠ loc → island_map out.2.1 !! c = island_map isl !! c) ∧
  next_ref s ≤ next_ref out.2.2 ∧
  Island_num_animals isl ≤ Island_num_animals out.2.1 ∧
  Island_num_animals out.2.1 ≤ Island_num_animals isl + length animals ∧
  (out.1 = Ok tt →
   Island_num_animals out.2.1 = Island_num_animals isl + length animals).
Proof.
  induction animals as [|animal rest IH]; intros isl s Hinv.
  { cbv zeta. simpl. repeat (split; [done || lia|]). intros _. lia. }
  cbv zeta. rewrite place_at_cons.
  destruct (island_map isl !! loc) as [c|] eqn:Hc.
  2:{ simpl. repeat (split; [done || lia|]). done. }
  destruct (Cell_add_animal P c animal s) as [[c' s']|e] eqn:Hadd.
  2:{ simpl. repeat (split; [done || lia|]). done. }
  assert (landtype c ≠ Water → loc ∈ habitable_map isl) as Hloc.
  { intros Hw. apply (wf_habitable _ _ _ (inv_wf _ _ Hinv)). exists c. split; [done|].
    destruct (is_habitable c) eqn:Hb; [done|]. destruct Hw.
    by apply (inv_class _ _ Hinv loc c). }
  assert (landtype c ≠ Water) as Hw.
  { intros Hw. unfold Cell_add_animal in Hadd. by rewrite Hw in Hadd. }
  specialize (Hloc Hw).
  assert (island_inv (set_island_map isl (island_map isl)) s) as Hinv0
    by (by apply (island_inv_ext isl)).
  destruct (island_inv_ready _ _ _ _ Hinv0 Hloc) as (c0 & Hc0 & _ & Heq & Hready).
  assert (c0 = c) as -> by congruence.
  destruct (Cell_add_animal_ok _ _ _ _ _ Hready Hadd) as (_ & Hstep & Hlen & _).
  rewrite <- Heq in Hstep.
  pose proof (cell_update_inv isl (island_map isl) s loc s' c' Hinv0 Hloc Hstep) as Hinv1.
  destruct (IH _ _ Hinv1) as (Iinv & Igeo & Ihab & Iout & In & Ige & Ile & Iok).
  cbv zeta in *. simpl in Igeo, Ihab, Iout.
  assert (Island_num_animals (set_island_map isl (<[loc := c']> (island_map isl)))
          = S (Island_num_animals isl)) as Hcount.
  { rewrite !Island_num_animals_head_count. simpl.
    pose proof (head_count_insert (island_map isl) (habitable_map isl) loc c'
                  (wf_keys _ _ _ (inv_wf _ _ Hinv)) Hloc) as Hins.
    rewrite !Cell_num_animals_chain, Heq in Hins. lia. }
  split; [done|]. split; [done|]. split; [done|]. split.
  { intros x Hx. rewrite Iout; [|done]. by rewrite lookup_insert_ne. }
  pose proof (cs_next_ref _ _ _ _ Hstep). simpl length.
  split; [lia|]. split; [lia|]. split; [lia|]. intros Hok. rewrite Iok; [lia|done].
Qed.

Lemma Island_place_animals_inv population :
  ∀ isl s,
  island_inv isl s →
  let out := Island_place_animals P population isl s in
  island_inv out.2.1 out.2.2 ∧
  geography out.2.1 = geography isl ∧ habitable_map out.2.1 = habitable_map isl ∧
  next_ref s ≤ next_ref out.2.2 ∧
  Island_num_animals isl ≤ Island_num_animals out.2.1 ∧
  Island_num_animals out.2.1
    ≤ Island_num_animals isl + sum_list ((λ p, length (pop p)) <$> population) ∧
  (out.1 = Ok tt →
   Island_num_animals out.2.1
     = Island_num_animals isl + sum_list ((λ p, length (pop p)) <$> population)).
Proof.
  induction population as [|p rest IH]; intros isl s Hinv.
  { cbv zeta. simpl. repeat (split; [done || lia|]). intros _. lia. }
  cbv zeta. simpl Island_place_animals.
  pose proof (place_at_inv (loc p) (pop p) isl s Hinv)
    as (Hinv1 & Hgeo & Hhab & _ & Hn & Hge & Hle & Hok). cbv zeta in *.
  destruct (place_at P (loc p) (pop p) isl s) as [[[]|e] [isl1 s1]]; cbn [fst snd] in *.
  - specialize (Hok eq_refl).
    destruct (IH isl1 s1 Hinv1) as (Iinv & Igeo & Ihab & In & Ige & Ile & Iok).
    cbv zeta in *. rewrite fmap_cons. simpl sum_list.
    split; [done|]. split; [congruence|]. split; [congruence|]. split; [lia|].
    split; [lia|]. split; [lia|]. intros Hall. rewrite Iok; [lia|done].
  - rewrite fmap_cons. simpl sum_list.
    repeat (split; [done || lia|]). done.
Qed.

End Placing.


(** ** Counting and simulating *)

Lemma per_species_fold (m : gmap Coord Cell) coords :
  ∀ num_c num_h,
  foldl (λ '(num_c, num_h) c,
           let cell := habitable_cell m c in
           (num_c + Cell_num_herbivores cell, num_h + Cell_num_carnivores cell))
        (num_c, num_h) coords
  = (num_c + sum_list ((λ c, Cell_num_herbivores (habitable_cell m c)) <$> coords),
     num_h + sum_list ((λ c, Cell_num_carnivores (habitable_cell m c)) <$> coords)).
Proof.
  induction coords as [|c coords IH]; intros num_c num_h.
  { simpl. f_equal; lia. }
  cbn [foldl]. rewrite IH, !fmap_cons. cbn [sum_list sum_list_with]. unfold id. f_equal; lia.
Qed.

Lemma per_species_lookup isl :
  getitem (Island_num_animals_per_species isl) "Herbivore"
    = Ok (sum_list ((λ c, Cell_num_herbivores (habitable_cell (island_map isl) c))
                     <$> habitable_map isl)) ∧
  getitem (Island_num_animals_per_species isl) "Carnivore"
    = Ok (sum_list ((λ c, Cell_num_carnivores (habitable_cell (island_map isl) c))
                     <$> habitable_map isl)).
Proof.
  unfold Island_num_animals_per_species, getitem. rewrite per_species_fold. simpl.
  split.
  - by rewrite lookup_insert_eq.
  - rewrite lookup_insert_ne; [|done]. by rewrite lookup_singleton_eq.
Qed.

Lemma head_count_per_species m coords :
  head_count m coords
  = sum_list ((λ c, Cell_num_herbivores (habitable_cell m c)) <$> coords)
    + sum_list ((λ c, Cell_num_carnivores (habitable_cell m c)) <$> coords).
Proof.
  induction coords as [|c coords IH]; [done|].
  rewrite head_count_cons, IH. rewrite !fmap_cons. cbn [sum_list sum_list_with].
  unfold id, Cell_num_animals, Cell_num_herbivores, Cell_num_carnivores. lia.
Qed.

Lemma update_plot_ready sim : plot_ready sim → update_plot sim = Returned sim.
Proof.
  unfold update_plot. intros [->|[-> _]]; [by destruct (_ && _)|done].
Qed.

Lemma save_plot_ready sim :
  plot_ready sim →
  ∃ sim', save_plot sim = Returned sim' ∧
    island sim' = island sim ∧
    num_years_simulated sim' = num_years_simulated sim ∧
    history sim' = history sim ∧
    vis_years sim' = vis_years sim ∧ img_years sim' = img_years sim ∧
    img_target sim' = img_target sim ∧ has_plotter sim' = has_plotter sim ∧
    figure_number sim ≤ figure_number sim' ≤ figure_number sim + 1.
Proof.
  unfold save_plot. intros Hready.
  destruct (negb (img_years sim =? 0) && img_target sim
            && (num_years_simulated sim mod img_years sim =? 0)) eqn:Hdue.
  - destruct (has_plotter sim) eqn:Hp.
    + eexists. split; [done|]. simpl. repeat split; lia.
    + destruct Hready as [?|[_ [Hz|Ht]]]; [congruence| |].
      * rewrite Hz in Hdue. simpl in Hdue. done.
      * rewrite Ht in Hdue. by rewrite andb_false_r in Hdue.
  - exists sim. repeat split; lia.
Qed.

Section Simulating.
Context (exp : Q → Q) (P : Classes).

Lemma simulate_inv n :
  ∀ sim s,
  island_inv (island sim) s → plot_ready sim →
  ∃ sim' s' new,
    simulate exp P n sim s = Returned (sim', s') ∧
    island_inv (island sim') s' ∧
    geography (island sim') = geography (island sim) ∧
    habitable_map (island sim') = habitable_map (island sim) ∧
    num_years_simulated sim' = num_years_simulated sim + n ∧
    history sim' = history sim ++ new ∧ length new = n ∧
    (∀ e, head new = Some e → h_population e = Island_num_animals (island sim)) ∧
    (∀ k e, new !! k = Some e →
       h_year e = num_years_simulated sim + k ∧
       h_population e = h_herbivores e + h_carnivores e) ∧
    (∀ k e e', new !! k = Some e → new !! S k = Some e' →
       h_population e' ≤ 2 * h_population e) ∧
    figure_number sim ≤ figure_number sim' ≤ figure_number sim + n.
Proof.
  induction n as [|n IH]; intros sim s Hinv Hready.
  { exists sim, s, []. rewrite app_nil_r. simpl.
    split; [done|]. split; [done|]. split; [done|]. split; [done|]. split; [lia|].
    split; [done|]. split; [done|]. split; [done|].
    split; [intros k e He; by rewrite lookup_nil in He|].
    split; [intros k e e' He; by rewrite lookup_nil in He|]. lia. }
  simpl simulate.
  destruct (per_species_lookup (island sim)) as [-> ->].
  set (e0 := {| h_year := num_years_simulated sim;
                h_population := Island_num_animals (island sim);
                h_herbivores := _; h_carnivores := _ |}).
  set (sim1 := {| island := island sim; history := history sim ++ [e0] |}).
  assert (plot_ready sim1) as Hready1 by done.
  rewrite (update_plot_ready sim1 Hready1).
  destruct (save_plot_ready sim1 Hready1)
    as (sim2 & -> & Hi & Hy & Hh & Hv & Hiy & Hit & Hp & Hfig).
  rewrite Hi. simpl island.
  destruct (Island_step_inv exp P (island sim) s Hinv)
    as (isl' & s1 & Hrun & Hinv' & Hgeo & Hhab & _ & Hcount & _).
  rewrite Hrun.
  set (sim3 := {| island := isl' |}).
  assert (plot_ready sim3) as Hready3.
  { unfold plot_ready, sim3. simpl. rewrite Hp, Hv, Hiy, Hit. exact Hready. }
  destruct (IH sim3 s1 Hinv' Hready3)
    as (sim' & s' & new & Hsim & Iinv & Igeo & Ihab & Iyears & Ihist & Ilen & Ihead & Ientries
        & Idouble & Ifig).
  simpl in Igeo, Ihab, Iyears, Ihist, Ihead, Ientries, Ifig.
  rewrite Hy in Iyears, Ientries. rewrite Hh in Ihist. simpl in Iyears, Ientries, Ihist, Hfig.
  exists sim', s', (e0 :: new). split; [exact Hsim|]. split; [done|].
  split; [congruence|]. split; [congruence|]. split; [lia|].
  split; [by rewrite Ihist, <- app_assoc|]. split; [simpl; lia|].
  split; [by intros e [= <-]|]. split; [|split].
  - intros [|k] e; simpl.
    + intros [= <-]. simpl. split; [lia|].
      rewrite Island_num_animals_head_count. apply head_count_per_species.
    + intros He. destruct (Ientries k e He) as [-> ->]. split; [lia|done].
  - intros [|k] e e'; simpl.
    + intros [= <-] He'. simpl. rewrite (Ihead e'); [done|].
      by destruct new; simplify_eq/=.
    + apply Idouble.
  - lia.
Qed.

Lemma simulate_without_plotter n sim s :
  has_plotter sim = false → img_years sim ≠ 0 → img_target sim = true →
  num_years_simulated sim mod img_years sim = 0 →
  simulate exp P (S n) sim s = Raised AttributeError.
Proof.
  intros Hp Hy Ht Hdue. simpl simulate.
  destruct (per_species_lookup (island sim)) as [-> ->].
  set (sim1 := {| island := island sim; history := history sim ++ _ |}).
  assert (has_plotter sim1 = false) as Hp1 by done.
  assert (save_plot sim1 = Raised AttributeError) as Hsave.
  { unfold save_plot. rewrite Hp1. change (img_years sim1) with (img_years sim).
    change (img_target sim1) with (img_target sim).
    change (num_years_simulated sim1) with (num_years_simulated sim).
    rewrite Ht, Hdue. apply Nat.eqb_neq in Hy. by rewrite Hy. }
  unfold update_plot. rewrite Hp1.
  destruct (negb (vis_years sim1 =? 0) && _); [done|]. by rewrite Hsave.
Qed.

Lemma BioSim_init_inv layout ini_pop r vis img target sim s :
  BioSim_init P layout ini_pop r vis img target = Ok (sim, s) →
  island_inv (island sim) s ∧ geography (island sim) = layout ∧
  num_years_simulated sim = 0 ∧ history sim = [] ∧ figure_number sim = 0 ∧
  vis_years sim = vis ∧ img_years sim = (if img =? 0 then vis else img) ∧
  img_target sim = target ∧ has_plotter sim = negb (vis =? 0) ∧
  Island_num_animals (island sim) = sum_list ((λ p, length (pop p)) <$> ini_pop).
Proof.
  unfold BioSim_init.
  destruct (Island_init (f_max P) layout) as [isl|e] eqn:Hinit; [|done]. simpl.
  pose proof (Island_place_animals_inv P ini_pop isl (initial_state r)
                (Island_init_inv _ _ _ _ Hinit)) as (Hinv & Hgeo & _ & _ & _ & _ & Hcount).
  cbv zeta in *.
  destruct (Island_place_animals P ini_pop isl (initial_state r)) as [[[]|e] [isl' s0]];
    [|done].
  cbn [fst snd] in *. intros [= <- <-]. simpl.
  split; [done|]. split; [by rewrite Hgeo, (Island_init_geography _ _ _ Hinit)|].
  repeat (split; [done|]). rewrite Hcount; [|done].
  destruct (Island_init_wf _ _ _ (objs (initial_state r)) Hinit) as (_ & _ & Hempty).
  assert (Island_num_animals isl = 0) as ->; [|done].
  rewrite Island_num_animals_head_count.
  assert (∀ c, Cell_num_animals (habitable_cell (island_map isl) c) = 0) as Hzero.
  { intros c. unfold habitable_cell. rewrite lookup_total_alt.
    destruct (island_map isl !! c) as [cell|] eqn:Hc; simpl.
    - by rewrite Cell_num_animals_chain, (Hempty c cell Hc).
    - done. }
  induction (habitable_map isl) as [|c hab IHh]; [done|].
  by rewrite head_count_cons, Hzero, IHh.
Qed.

End Simulating.


(** ** Cells: lists, parameters, a year on its own *)

Lemma list_remove_appended x l : x ∉ l → list_remove x (l ++ [x]) = Ok l.
Proof.
  induction l as [|y l IH]; intros Hx; simpl.
  - by destruct (decide (x = x)).
  - apply not_elem_of_cons in Hx as [Hne Hx].
    destruct (decide (y = x)) as [->|_]; [done|]. by rewrite (IH Hx).
Qed.

Lemma list_remove_absent x l : x ∉ l → list_remove x l = Raise (ValueError NotInList).
Proof.
  induction l as [|y l IH]; intros Hx; simpl; [done|].
  apply not_elem_of_cons in Hx as [Hne Hx].
  destruct (decide (y = x)) as [->|_]; [done|]. by rewrite (IH Hx).
Qed.

Lemma reset_params_lookup cls key :
  attributes (reset_params cls) !! key =
    match list_find (λ kv, kv.1 = key) (reverse (default_params cls)) with
    | Some (_, kv) => Some kv.2
    | None => attributes cls !! key
    end.
Proof. unfold reset_params. apply setattr_all_lookup. Qed.

Section CellOnItsOwn.
Context (exp : Q → Q) (P : Classes).

Lemma place_at_app loc good more :
  ∀ isl s isl1 s1,
  place_at P loc good isl s = (Ok tt, (isl1, s1)) →
  place_at P loc (good ++ more) isl s = place_at P loc more isl1 s1.
Proof.
  induction good as [|animal good IH]; intros isl s isl1 s1.
  { simpl. by intros [= <- <-]. }
  rewrite <- app_comm_cons, !place_at_cons.
  destruct (island_map isl !! loc) as [c|]; [|done].
  destruct (Cell_add_animal P c animal s) as [[c' s']|e]; [|done]. apply IH.
Qed.

Lemma survivors_have_weight l :
  ∀ s a,
  let survives a st := let '(d, st') := Animal_death exp P a st in (negb d, st') in
  a ∈ (select survives l s).1 → (0 < weight (objs s !!! a))%Q.
Proof.
  induction l as [|b l IH]; intros s a; cbv zeta; simpl.
  { by intros ?%not_elem_of_nil. }
  assert (objs (Animal_death exp P b s).2 = objs s ∧
          ((Animal_death exp P b s).1 = false → (0 < weight (objs s !!! b))%Q)) as [Ho Hw].
  { unfold Animal_death. destruct (Qle_bool (weight (objs s !!! b)) 0) eqn:Hle.
    - done.
    - apply Qle_bool_false in Hle. cbv zeta.
      pose proof (random_frame s) as (Ho & _). by destruct (random s). }
  destruct (Animal_death exp P b s) as [d s1]. cbn [fst snd] in *.
  pose proof (IH s1 a) as IH'. cbv zeta in IH'.
  destruct (select _ l s1) as [l' s2]. cbn [fst snd] in *.
  destruct d; simpl.
  - intros Ha. rewrite <- Ho. by apply IH'.
  - intros [->|Ha]%elem_of_cons; [by apply Hw|]. rewrite <- Ho. by apply IH'.
Qed.

Lemma Baseland_step_phases c s :
  Baseland_step exp P c s =
    let '(c2, s2) := grow_cell exp P c s in wither_cell exp P c2 s2.
Proof.
  unfold Baseland_step, grow_cell, wither_cell. cbv zeta.
  destruct (Baseland_feed exp P _ s) as [c1 s1].
  by destruct (Baseland_birth exp P c1 s1) as [c2 s2].
Qed.

Lemma Baseland_birth_fodder c s : fodder (Baseland_birth exp P c s).1 = fodder c.
Proof.
  unfold Baseland_birth.
  destruct (1 <? length (herbivores c))%nat.
  - destruct (give_birth exp P (herbivores c) (herbivores c) s) as [bh s1].
    cbn [carnivores set_herbivores].
    destruct (1 <? length (carnivores c))%nat; [|done].
    by destruct (give_birth exp P (carnivores c) (carnivores c) s1) as [bc s2].
  - destruct (1 <? length (carnivores c))%nat; [|done].
    by destruct (give_birth exp P (carnivores c) (carnivores c) s) as [bc s2].
Qed.

Lemma grow_cell_fodder c s :
  NoDup (herbivores c) →
  (0 <= f_max P (landtype c))%Q →
  (∀ h, h ∈ herbivores c → (0 <= F (params_of P (objs s !!! h)))%Q) →
  (0 <= fodder (grow_cell exp P c s).1)%Q ∧
  (fodder (grow_cell exp P c s).1 <= f_max P (landtype c))%Q.
Proof.
  intros Hnd Hmax HF. unfold grow_cell, Baseland_feed, Baseland_feed_herbivores.
  cbn [Baseland_reset_fodder set_fodder herbivores fodder].
  pose proof (sorted_Permutation (λ h, fitness exp P (objs s !!! h)) true (herbivores c))
    as Hperm.
  pose proof (feed_loop_fodder P (sorted (λ h, fitness exp P (objs s !!! h)) true (herbivores c)))
    as Hloop.
  destruct (Hloop ltac:(by rewrite Hperm) (f_max P (landtype c)) s Hmax) as (H0 & Hle & _).
  { intros h Hh. apply HF. by rewrite <- Hperm. }
  cbv zeta in *.
  destruct (feed_loop P _ (f_max P (landtype c)) s) as [fodder' s1]. cbn [fst snd] in *.
  pose proof (Baseland_feed_carnivores_spec exp P
                (set_fodder (set_fodder c (f_max P (landtype c))) fodder') s1)
    as (_ & _ & Hf & _). cbv zeta in Hf.
  destruct (Baseland_feed_carnivores exp P _ s1) as [c1 s2]. cbn [fst snd] in *.
  rewrite Baseland_birth_fodder, Hf. simpl. done.
Qed.

End CellOnItsOwn.


(** ** Concrete islands and cells *)

Lemma single_lowland_init :
  Island_init default_f_max "WWW
WLW
WWW" = Ok single_lowland.
Proof. vm_compute. reflexivity. Qed.

Lemma populated_inv r : island_inv (populated r).2.1 (populated r).2.2.
Proof.
  pose proof (Island_init_inv default_f_max _ single_lowland (initial_state r)
                single_lowland_init) as Hinv.
  pose proof (Island_place_animals_inv default_classes
                [{| loc := (2, 2)%Z; pop := replicate 50 herbivore_5_20 |}]
                single_lowland (initial_state r) Hinv) as Hplaced.
  cbv zeta in Hplaced. exact (proj1 Hplaced).
Qed.

Lemma nursery_ready : cell_ready maternity nursery.
Proof.
  split.
  - unfold chain. simpl. apply NoDup_cons. split; [|apply NoDup_singleton].
    by intros ?%list_elem_of_singleton.
  - intros a Ha. unfold chain in Ha. simpl in Ha.
    repeat (apply elem_of_cons in Ha as [->|Ha]); [simpl; lia..|by apply not_elem_of_nil in Ha].
  - intros a Ha. simpl in Ha.
    repeat (apply elem_of_cons in Ha as [->|Ha]); [done..|by apply not_elem_of_nil in Ha].
  - intros a Ha. by apply not_elem_of_nil in Ha.
Qed.

(** ** The island that the constructor builds *)

(** X1.  [Island.__init__] returns an island for exactly the layouts whose
    characters are all known, whose rows have one and the same positive
    length, and whose first and last row and column hold only Water. *)
Theorem Island_init_accepts_exactly_valid_layouts f_max geography :
  (∃ isl, Island_init f_max geography = Ok isl) ↔ valid_rows (rows_of geography).
Proof.
  split.
  - intros [isl Hinit]. by eapply Island_init_valid.
  - apply Island_init_accepts.
Qed.

(** X2.  The island that [Island.__init__] returns keeps the layout text,
    has under the key [(i + 1, j + 1)] a new cell of the class of the
    character in row [i] and column [j], and has no other key;
    [habitable_map] lists, in row-major order, the keys of the cells that
    are not Water. *)
Theorem Island_init_builds_the_layout f_max layout isl :
  Island_init f_max layout = Ok isl →
  geography isl = layout ∧
  (∀ i j r y, rows_of layout !! i = Some r → r !! j = Some y →
     ∃ lt, cell_map y = Some lt ∧
           island_map isl !! (Z.of_nat i + 1, Z.of_nat j + 1)%Z
           = Some (new_cell f_max lt)) ∧
  (∀ c cell, island_map isl !! c = Some cell →
     ∃ i j r y, rows_of layout !! i = Some r ∧ r !! j = Some y ∧
                c = (Z.of_nat i + 1, Z.of_nat j + 1)%Z) ∧
  row_major (habitable_map isl) ∧
  (∀ c, c ∈ habitable_map isl ↔
        ∃ cell, island_map isl !! c = Some cell ∧ landtype cell ≠ Water).
Proof.
  intros Hinit. split; [by eapply Island_init_geography|]. split; [|split; [|split]].
  - intros i j r y. by apply Island_init_lookup.
  - intros c cell Hc.
    destruct (island_map_lookup_inv _ _ _ _ _ Hinit Hc) as (_ & i & j & r & y & Hi & Hj & Heq).
    exists i, j, r, y. split; [done|]. split; [done|]. by injection Heq as -> _.
  - by destruct (Island_init_wf f_max layout isl ∅ Hinit) as (_ & ? & _).
  - intros c. pose proof (Island_init_inv f_max layout isl (initial_state (replay [] [])) Hinit)
      as [Hwf _ _ Hclass].
    rewrite (wf_habitable _ _ _ Hwf c). split.
    + intros (cell & Hc & Hb). exists cell. split; [done|].
      intros Hw%(Hclass c cell Hc). congruence.
    + intros (cell & Hc & Hw). exists cell. split; [done|].
      destruct (is_habitable cell) eqn:Hb; [done|]. destruct Hw. by apply (Hclass c).
Qed.

Lemma Island_init_builds_the_layout_witness :
  Island_init default_f_max "WWW
WLW
WWW" = Ok single_lowland ∧
  row_major (habitable_map single_lowland).
Proof.
  split; [exact single_lowland_init|].
  by destruct (Island_init_builds_the_layout _ _ _ single_lowland_init) as (_ & _ & _ & ? & _).
Defined.

(** X3.  [Island.shape] of an island that [Island.__init__] has built is
    the number of rows and the number of columns of the layout. *)
Theorem Island_shape_is_layout_size f_max layout isl top :
  Island_init f_max layout = Ok isl →
  head (rows_of layout) = Some top →
  Island_shape isl = Some (Z.of_nat (length (rows_of layout)), Z.of_nat (length top)).
Proof. apply Island_init_shape. Qed.

Lemma Island_shape_is_layout_size_witness :
  Island_init default_f_max "WWW
WLW
WWW" = Ok single_lowland ∧
  Island_shape single_lowland = Some (3, 3)%Z.
Proof.
  split; [exact single_lowland_init|].
  pose proof (Island_shape_is_layout_size default_f_max _ single_lowland ["W"; "W"; "W"]%char
                single_lowland_init eq_refl) as Hshape.
  rewrite Hshape. vm_compute. reflexivity.
Defined.

(** X4.  [Island.num_animals_per_species] has, under ["Herbivore"], the
    number of herbivores of the habitable cells and, under ["Carnivore"],
    the number of their carnivores, and the two add up to
    [Island.num_animals]. *)
Theorem num_animals_per_species_adds_up isl :
  ∃ h c,
    getitem (Island_num_animals_per_species isl) "Herbivore" = Ok h ∧
    getitem (Island_num_animals_per_species isl) "Carnivore" = Ok c ∧
    h = sum_list ((λ x, length (herbivores (habitable_cell (island_map isl) x)))
                    <$> habitable_map isl) ∧
    c = sum_list ((λ x, length (carnivores (habitable_cell (island_map isl) x)))
                    <$> habitable_map isl) ∧
    Island_num_animals isl = h + c.
Proof.
  destruct (per_species_lookup isl) as [Hh Hc]. eexists _, _.
  split; [exact Hh|]. split; [exact Hc|]. split; [done|]. split; [done|].
  rewrite Island_num_animals_head_count. apply head_count_per_species.
Qed.

(** ** Placing animals *)

Section PlacingAnimals.
Context (P : Classes).

(** X5.  [Island.place_animals] leaves a consistent island consistent,
    whether it returns or raises: no animal is in two cells, none in a
    Water cell, every animal is in the list of its species.  The number of
    animals grows by at most the number of animals given, and by exactly
    that number when the call returns. *)
Theorem place_animals_keeps_island_consistent population isl s :
  island_inv isl s →
  let out := Island_place_animals P population isl s in
  island_inv out.2.1 out.2.2 ∧
  geography out.2.1 = geography isl ∧ habitable_map out.2.1 = habitable_map isl ∧
  Island_num_animals isl ≤ Island_num_animals out.2.1 ∧
  Island_num_animals out.2.1
    ≤ Island_num_animals isl + sum_list ((λ p, length (pop p)) <$> population) ∧
  (out.1 = Ok tt →
   Island_num_animals out.2.1
     = Island_num_animals isl + sum_list ((λ p, length (pop p)) <$> population)).
Proof.
  intros Hinv.
  destruct (Island_place_animals_inv P population isl s Hinv)
    as (? & ? & ? & _ & ? & ? & ?).
  cbv zeta. done.
Qed.

(** X6.  [Island.place_animals] stops at the first animal whose species is
    not known: the call raises a [ValueError] that names the species, and
    the animals placed before it stay on the island. *)
Theorem place_animals_stops_at_unknown_species
    before at_c good bad rest after isl s isl1 s1 isl2 s2 cell :
  Island_place_animals P before isl s = (Ok tt, (isl1, s1)) →
  place_at P at_c good isl1 s1 = (Ok tt, (isl2, s2)) →
  island_map isl2 !! at_c = Some cell → landtype cell ≠ Water →
  animal_map (d_species bad) = None →
  Island_place_animals P
    (before ++ {| loc := at_c; pop := good ++ bad :: rest |} :: after) isl s
  = (Raise (ValueError (InvalidAnimalType (d_species bad))), (isl2, s2)).
Proof.
  intros Hbefore Hgood Hcell Hland Hbad.
  rewrite (place_animals_app P _ _ _ _ _ _ Hbefore). simpl.
  rewrite (place_at_app P _ _ _ _ _ _ _ Hgood), place_at_cons, Hcell.
  assert (Cell_add_animal P cell bad s2
          = Raise (ValueError (InvalidAnimalType (d_species bad)))) as ->; [|done].
  unfold Cell_add_animal, Baseland_add_animal. rewrite Hbad. by destruct (landtype cell).
Qed.

End PlacingAnimals.

Lemma place_animals_keeps_island_consistent_witness :
  island_inv single_lowland (initial_state (replay [] [])) ∧
  island_inv
    (Island_place_animals default_classes [{| loc := (1, 1)%Z; pop := [herbivore_5_20] |}]
       single_lowland (initial_state (replay [] []))).2.1
    (Island_place_animals default_classes [{| loc := (1, 1)%Z; pop := [herbivore_5_20] |}]
       single_lowland (initial_state (replay [] []))).2.2.
Proof.
  pose proof (Island_init_inv default_f_max _ single_lowland (initial_state (replay [] []))
                single_lowland_init) as Hinv.
  split; [exact Hinv|].
  pose proof (place_animals_keeps_island_consistent default_classes
                [{| loc := (1, 1)%Z; pop := [herbivore_5_20] |}]
                single_lowland (initial_state (replay [] [])) Hinv) as Hplaced.
  cbv zeta in Hplaced. exact (proj1 Hplaced).
Defined.

Lemma place_animals_stops_at_unknown_species_witness :
  animal_map (d_species sheep) = None ∧
  (Island_place_animals default_classes
     ([] ++ {| loc := (2, 2)%Z; pop := [] ++ sheep :: [herbivore_5_20] |} :: [])
     single_lowland (initial_state (replay [] []))).1
  = Raise (ValueError (InvalidAnimalType "Sheep")).
Proof.
  split; [reflexivity|].
  rewrite (place_animals_stops_at_unknown_species default_classes [] (2, 2)%Z [] sheep
             [herbivore_5_20] [] single_lowland (initial_state (replay [] []))
             single_lowland (initial_state (replay [] []))
             single_lowland (initial_state (replay [] []))
             (new_cell default_f_max Lowland) eq_refl eq_refl);
    [done|vm_compute; reflexivity|done|reflexivity].
Defined.

(** ** The lists of a cell and the parameters of a class *)

(** X7.  For an animal that a cell does not hold, [remove_animal] after
    [place_animal] gives the cell back as it was, and [remove_animal] alone
    raises the [ValueError] of [list.remove]. *)
Theorem remove_after_place_restores_cell cell a s :
  a ∉ chain cell →
  Baseland_remove_animal (Baseland_place_animal cell a s) a s = Ok cell ∧
  Baseland_remove_animal cell a s = Raise (ValueError NotInList).
Proof.
  intros Ha. unfold chain in Ha. apply not_elem_of_app in Ha as [Hh Hc].
  unfold Baseland_remove_animal, Baseland_place_animal.
  destruct (species (objs s !!! a)); simpl.
  - rewrite (list_remove_appended _ _ Hh), (list_remove_absent _ _ Hh). simpl.
    split; [|done]. by destruct cell.
  - rewrite (list_remove_appended _ _ Hc), (list_remove_absent _ _ Hc). simpl.
    split; [|done]. by destruct cell.
Qed.

Lemma remove_after_place_restores_cell_witness :
  (2 ∉ chain nursery) ∧
  Baseland_remove_animal (Baseland_place_animal nursery 2 maternity) 2 maternity
  = Ok nursery.
Proof.
  assert (2 ∉ chain nursery) as Hout.
  { unfold chain. simpl. intros Hin.
    repeat (apply elem_of_cons in Hin as [Hin|Hin]; [done|]). by apply not_elem_of_nil in Hin. }
  split; [exact Hout|]. exact (proj1 (remove_after_place_restores_cell _ _ _ Hout)).
Defined.

(** X8.  On a class whose attributes have their default values,
    [reset_params] after [set_params] gives every attribute the value it
    had before, whether [set_params] returned or raised. *)
Theorem reset_params_undoes_set_params cls params :
  (∀ key value, (key, value) ∈ default_params cls → attributes cls !! key = Some value) →
  attributes (reset_params (set_params cls params).2) = attributes cls ∧
  default_params (reset_params (set_params cls params).2) = default_params cls.
Proof.
  intros Hdefault.
  assert (∀ cls', default_params cls' = default_params cls →
            (∀ key, key ∉ (default_params cls).*1 →
                    attributes cls' !! key = attributes cls !! key) →
            attributes (reset_params cls') = attributes cls ∧
            default_params (reset_params cls') = default_params cls) as Hreset.
  { intros cls' Hd Hother. split; [|by unfold reset_params; rewrite setattr_all_defaults].
    apply map_eq. intros key. rewrite reset_params_lookup, Hd.
    destruct (list_find _ (reverse (default_params cls))) as [[i [k v]]|] eqn:Hf.
    - apply list_find_Some in Hf as (Hi & Hk & _). simpl in *. subst k.
      apply list_elem_of_lookup_2 in Hi. rewrite elem_of_reverse in Hi.
      symmetry. by apply Hdefault.
    - apply Hother. apply list_find_None in Hf. rewrite Forall_forall in Hf.
      intros ([k v] & -> & Hin)%list_elem_of_fmap.
      apply (Hf (k, v)); [by rewrite elem_of_reverse|done]. }
  unfold set_params. destruct (check_params cls params) as [[]|e] eqn:Hcheck; simpl.
  - apply Hreset; [apply setattr_all_defaults|].
    intros key Hkey. rewrite setattr_all_lookup.
    destruct (list_find _ (reverse params)) as [[i [k v]]|] eqn:Hf; [|done].
    apply list_find_Some in Hf as (Hi & Hk & _). simpl in *. subst k.
    apply list_elem_of_lookup_2 in Hi. rewrite elem_of_reverse in Hi.
    apply check_params_Ok in Hcheck. rewrite Forall_forall in Hcheck.
    destruct (Hcheck _ Hi). by left.
  - by apply Hreset.
Qed.

Lemma reset_params_undoes_set_params_witness :
  (∀ key value, (key, value) ∈ default_params Lowland_class →
                attributes Lowland_class !! key = Some value) ∧
  attributes (reset_params (set_params Lowland_class [("f_max"%string, PyFloat 10)]).2)
  = attributes Lowland_class.
Proof.
  assert (∀ key value, (key, value) ∈ default_params Lowland_class →
                       attributes Lowland_class !! key = Some value) as Hdefault.
  { intros key value Hin. apply list_elem_of_singleton in Hin. by injection Hin as -> ->. }
  split; [exact Hdefault|].
  exact (proj1 (reset_params_undoes_set_params _ _ Hdefault)).
Defined.

(** ** Feeding *)

Lemma savanna_apart :
  (∀ h, h ∈ herbivores savanna → is_dead (objs hunting_ground !!! h) = false) ∧
  (∀ h, h ∈ herbivores savanna → h ∉ carnivores savanna) ∧
  (∀ h, h ∈ herbivores savanna → (0 <= weight (objs hunting_ground !!! h))%Q) ∧
  (∀ h, h ∈ herbivores savanna →
        (0 <= F (params_of default_classes (objs hunting_ground !!! h)))%Q) ∧
  NoDup (herbivores savanna) ∧ 0 ∉ herbivores savanna.
Proof.
  assert (∀ h, h ∈ herbivores savanna → h = 1 ∨ h = 2) as Hin.
  { intros h Hh. simpl in Hh. apply elem_of_cons in Hh as [->|Hh]; [by left|].
    apply list_elem_of_singleton in Hh as ->. by right. }
  split; [by intros h [->| ->]%Hin|]. split.
  { intros h [->| ->]%Hin; simpl; by intros ?%list_elem_of_singleton. }
  split; [intros h [->| ->]%Hin; vm_compute; discriminate|].
  split; [intros h [->| ->]%Hin; vm_compute; discriminate|]. split.
  - simpl. apply NoDup_cons. split; [|apply NoDup_singleton].
    by intros ?%list_elem_of_singleton.
  - by intros [?| ?]%Hin.
Qed.

Section FeedingPhases.
Context (exp : Q → Q) (P : Classes).

(** X9.  [Baseland.feed_herbivores] leaves both lists of the cell as they
    are and touches no animal but the herbivores, of which it changes the
    weight only.  With appetites that are not negative, the fodder stays
    between zero and what it was, and if any fodder is left then every
    herbivore of the cell has eaten its full appetite [F]. *)
Theorem feed_herbivores_shares_fodder c s :
  NoDup (herbivores c) → (0 <= fodder c)%Q →
  (∀ h, h ∈ herbivores c → (0 <= F (params_of P (objs s !!! h)))%Q) →
  let out := Baseland_feed_herbivores exp P c s in
  herbivores out.1 = herbivores c ∧ carnivores out.1 = carnivores c ∧
  (0 <= fodder out.1)%Q ∧ (fodder out.1 <= fodder c)%Q ∧
  ((0 < fodder out.1)%Q →
   ∀ h, h ∈ herbivores c →
        weight (objs out.2 !!! h)
        = (weight (objs s !!! h)
           + beta (params_of P (objs s !!! h)) * F (params_of P (objs s !!! h)))%Q) ∧
  (∀ r, species (objs out.2 !!! r) = species (objs s !!! r) ∧
        age (objs out.2 !!! r) = age (objs s !!! r) ∧
        is_dead (objs out.2 !!! r) = is_dead (objs s !!! r)) ∧
  (∀ r, r ∉ herbivores c → objs out.2 !!! r = objs s !!! r).
Proof.
  intros Hnd H0 HF.
  pose proof (Baseland_feed_herbivores_spec exp P c s)
    as (_ & _ & Hh & Hc & _ & _ & _ & Hk & Ho).
  cbv zeta in *. split; [done|]. split; [done|].
  assert ((0 <= fodder (Baseland_feed_herbivores exp P c s).1)%Q ∧
          (fodder (Baseland_feed_herbivores exp P c s).1 <= fodder c)%Q ∧
          ((0 < fodder (Baseland_feed_herbivores exp P c s).1)%Q →
           ∀ h, h ∈ herbivores c →
                weight (objs (Baseland_feed_herbivores exp P c s).2 !!! h)
                = (weight (objs s !!! h)
                   + beta (params_of P (objs s !!! h)) * F (params_of P (objs s !!! h)))%Q))
    as (? & ? & ?); [|done].
  unfold Baseland_feed_herbivores.
  pose proof (sorted_Permutation (λ h, fitness exp P (objs s !!! h)) true (herbivores c))
    as Hperm.
  pose proof (feed_loop_fodder P (sorted (λ h, fitness exp P (objs s !!! h)) true (herbivores c)))
    as Hloop.
  destruct (Hloop ltac:(by rewrite Hperm) (fodder c) s H0) as (Hge & Hle & Hfull).
  { intros h Hh'. apply HF. by rewrite <- Hperm. }
  cbv zeta in *.
  destruct (feed_loop P _ (fodder c) s) as [fodder' s']. cbn [fst snd fodder set_fodder] in *.
  split; [done|]. split; [done|]. intros Hleft h Hh'. apply Hfull; [done|]. by rewrite Hperm.
Qed.

(** X10.  [Baseland.feed_carnivores] keeps the carnivores of the cell, in
    another order, and keeps of the herbivores, none of them flagged dead
    before, exactly those that are not flagged dead afterwards.  It changes
    neither species nor age, the weight of no animal but the carnivores, and
    the flag of no animal but the herbivores. *)
Theorem feed_carnivores_keeps_the_living c s :
  (∀ h, h ∈ herbivores c → is_dead (objs s !!! h) = false) →
  let out := Baseland_feed_carnivores exp P c s in
  carnivores out.1 ≡ₚ carnivores c ∧
  herbivores out.1 ⊆+ herbivores c ∧
  fodder out.1 = fodder c ∧
  (∀ h, h ∈ herbivores c → (h ∈ herbivores out.1 ↔ is_dead (objs out.2 !!! h) = false)) ∧
  (∀ r, species (objs out.2 !!! r) = species (objs s !!! r) ∧
        age (objs out.2 !!! r) = age (objs s !!! r)) ∧
  (∀ r, r ∉ carnivores c → weight (objs out.2 !!! r) = weight (objs s !!! r)) ∧
  (∀ r, r ∉ herbivores c → is_dead (objs out.2 !!! r) = is_dead (objs s !!! r)).
Proof.
  intros Hlive.
  destruct (Baseland_feed_carnivores_spec exp P c s)
    as (_ & _ & Hf & Hc & Hh & _ & _ & Hk & Hw & Hd & Hiff & _).
  cbv zeta. repeat (split; [done|]). split; [by apply Hiff|]. done.
Qed.

(** X11.  When no herbivore of the cell is also among its carnivores,
    [Baseland.feed_carnivores] leaves the herbivores of the cell in
    ascending order of fitness. *)
Theorem feed_carnivores_sorts_the_herbivores c s :
  (∀ h, h ∈ herbivores c → h ∉ carnivores c) →
  let out := Baseland_feed_carnivores exp P c s in
  StronglySorted (λ a b, (fitness exp P (objs out.2 !!! a)
                          <= fitness exp P (objs out.2 !!! b))%Q) (herbivores out.1).
Proof.
  intros Hdisj.
  destruct (Baseland_feed_carnivores_spec exp P c s)
    as (_ & _ & _ & _ & _ & _ & _ & _ & _ & _ & _ & Hsorted).
  by apply Hsorted.
Qed.


(** X13.  [Carnivore.eat_herbivores] returns, in their order, the
    herbivores of its list that are not flagged dead when it ends.  It
    creates no animal, changes neither species nor age, changes the weight
    of the hunter only, and changes the flag of herbivores of the list only,
    and only from alive to dead. *)
Theorem eat_herbivores_only_flags self herbs s :
  let out := eat_herbivores exp P self herbs s in
  out.1 = filter (λ h, is_dead (objs out.2 !!! h) = false) herbs ∧
  out.1 `sublist_of` herbs ∧
  next_ref out.2 = next_ref s ∧
  (∀ r, species (objs out.2 !!! r) = species (objs s !!! r) ∧
        age (objs out.2 !!! r) = age (objs s !!! r)) ∧
  (∀ r, r ≠ self → weight (objs out.2 !!! r) = weight (objs s !!! r)) ∧
  (∀ r, is_dead (objs s !!! r) = true → is_dead (objs out.2 !!! r) = true) ∧
  (∀ r, r ∉ herbs → is_dead (objs out.2 !!! r) = is_dead (objs s !!! r)).
Proof.
  cbv zeta. rewrite eat_herbivores_result. cbn [fst snd].
  destruct (hunt_frame exp P self herbs (F (params_of P (objs s !!! self))) s)
    as (Hn & _ & Hk & Hw & Hd & Hu).
  split; [done|]. split; [apply sublist_filter|]. done.
Qed.

End FeedingPhases.

Lemma feed_herbivores_shares_fodder_witness :
  NoDup (herbivores savanna) ∧ (0 <= fodder savanna)%Q ∧
  herbivores (Baseland_feed_herbivores exp_series default_classes savanna hunting_ground).1
  = herbivores savanna.
Proof.
  destruct savanna_apart as (_ & _ & _ & HF & Hnd & _).
  assert (0 <= fodder savanna)%Q as H0 by (vm_compute; discriminate).
  split; [exact Hnd|]. split; [exact H0|].
  pose proof (feed_herbivores_shares_fodder exp_series default_classes savanna hunting_ground
                Hnd H0 HF) as Hfed.
  cbv zeta in Hfed. exact (proj1 Hfed).
Defined.

Lemma feed_carnivores_keeps_the_living_witness :
  (∀ h, h ∈ herbivores savanna → is_dead (objs hunting_ground !!! h) = false) ∧
  fodder (Baseland_feed_carnivores exp_series default_classes savanna hunting_ground).1
  = fodder savanna.
Proof.
  destruct savanna_apart as (Hlive & _).
  split; [exact Hlive|].
  pose proof (feed_carnivores_keeps_the_living exp_series default_classes savanna
                hunting_ground Hlive) as Hfed.
  cbv zeta in Hfed. exact (proj1 (proj2 (proj2 Hfed))).
Defined.

Lemma feed_carnivores_sorts_the_herbivores_witness :
  (∀ h, h ∈ herbivores savanna → h ∉ carnivores savanna) ∧
  StronglySorted
    (λ a b, (fitness exp_series default_classes
               (objs (Baseland_feed_carnivores exp_series default_classes savanna
                        hunting_ground).2 !!! a)
             <= fitness exp_series default_classes
                  (objs (Baseland_feed_carnivores exp_series default_classes savanna
                           hunting_ground).2 !!! b))%Q)
    (herbivores (Baseland_feed_carnivores exp_series default_classes savanna
                   hunting_ground).1).
Proof.
  destruct savanna_apart as (_ & Hdisj & _).
  split; [exact Hdisj|].
  exact (feed_carnivores_sorts_the_herbivores exp_series default_classes savanna
           hunting_ground Hdisj).
Defined.


(** ** The year of a cell, of the island, and the simulation *)

Section Years.
Context (exp : Q → Q) (P : Classes).

(** X14.  [Baseland.die] keeps, in their order, some of the animals of
    each list and no others, every one of them of positive weight; it
    changes no animal and not the fodder. *)
Theorem die_keeps_only_the_living c s :
  let out := Baseland_die exp P c s in
  herbivores out.1 `sublist_of` herbivores c ∧
  carnivores out.1 `sublist_of` carnivores c ∧
  fodder out.1 = fodder c ∧ objs out.2 = objs s ∧ next_ref out.2 = next_ref s ∧
  ∀ a, a ∈ chain out.1 → (0 < weight (objs s !!! a))%Q.
Proof.
  destruct (Baseland_die_spec exp P c s) as (_ & _ & Hf & Hh & Hc & Ho & Hn).
  cbv zeta in *. repeat (split; [done|]).
  unfold Baseland_die, chain.
  pose proof (survivors_have_weight exp P (herbivores c) s) as Hwh.
  pose proof (survivors_spec exp P (herbivores c) s) as [_ Ho1].
  cbv zeta in Hwh, Ho1.
  destruct (select _ (herbivores c) s) as [herbs s1]. cbn [fst snd] in *.
  pose proof (survivors_have_weight exp P (carnivores c) s1) as Hwc. cbv zeta in Hwc.
  destruct (select _ (carnivores c) s1) as [carns s2]. cbn [fst snd] in *.
  intros a [Ha|Ha]%elem_of_app; [by apply Hwh|]. rewrite <- Ho1. by apply Hwc.
Qed.

(** X15.  [Baseland.step], a year of a cell on its own: a cell that holds
    every animal once, in the list of its species, is such a cell
    afterwards.  Its animals are animals it had or animals born in the
    year, so at most twice as many as before, and its fodder is between
    zero and [f_max]. *)
Theorem Baseland_step_keeps_cell_consistent c s :
  cell_ready s c →
  (0 <= f_max P (landtype c))%Q →
  (∀ h, h ∈ herbivores c → (0 <= F (params_of P (objs s !!! h)))%Q) →
  let out := Baseland_step exp P c s in
  cell_ready out.2 out.1 ∧ landtype out.1 = landtype c ∧
  length (chain out.1) ≤ 2 * length (chain c) ∧
  (∀ a, a ∈ chain out.1 → a ∈ chain c ∨ next_ref s ≤ a < next_ref out.2) ∧
  (0 <= fodder out.1)%Q ∧ (fodder out.1 <= f_max P (landtype c))%Q.
Proof.
  intros Hready Hmax HF. cbv zeta. rewrite Baseland_step_phases.
  destruct (grow_cell_ok exp P c s Hready) as [Hgrow Hlen].
  pose proof (grow_cell_fodder exp P c s) as Hfod.
  destruct Hfod as [Hf0 Hf1]; [|done|done|].
  { destruct Hready as [Honce _ _ _]. unfold chain in Honce.
    by apply NoDup_app in Honce as [? _]. }
  destruct (grow_cell exp P c s) as [c2 s2]. cbn [fst snd] in *.
  pose proof (cell_step_ok_ready _ _ _ _ Hready Hgrow) as Hready2.
  destruct (wither_cell_ok exp P c2 s2 Hready2) as [Hwither Hlen'].
  assert (fodder (wither_cell exp P c2 s2).1 = fodder c2) as Hfod.
  { unfold wither_cell. cbv zeta.
    by destruct (Baseland_die_spec exp P c2
                   (Baseland_lose_weight P c2 (Baseland_aging c2 s2))) as (_ & _ & ? & _). }
  destruct (wither_cell exp P c2 s2) as [c3 s3]. cbn [fst snd] in *.
  pose proof (cell_step_ok_trans _ _ _ _ _ _ Hgrow Hwither) as Hstep.
  split; [by eapply cell_step_ok_ready|]. split; [apply (cs_landtype _ _ _ _ Hstep)|].
  split; [lia|]. split; [|by rewrite Hfod].
  intros a [Ha|Ha]%elem_of_app.
  - destruct (cs_herbivores _ _ _ _ Hstep a Ha) as [?|[? _]]; [left|by right].
    apply elem_of_app. by left.
  - destruct (cs_carnivores _ _ _ _ Hstep a Ha) as [?|[? _]]; [left|by right].
    apply elem_of_app. by right.
Qed.

(** X16.  [Island.step] on a consistent island returns, and the island is
    consistent afterwards: every animal is in one habitable cell, once, in
    the list of its species.  The layout, the habitable keys and the cells
    that are not habitable are as before, and the island holds at most
    twice as many animals as before. *)
Theorem Island_step_keeps_island_consistent isl s :
  island_inv isl s →
  ∃ isl' s',
    Island_step exp P isl s = Ok (isl', s') ∧ island_inv isl' s' ∧
    geography isl' = geography isl ∧ habitable_map isl' = habitable_map isl ∧
    (∀ c, c ∉ habitable_map isl → island_map isl' !! c = island_map isl !! c) ∧
    Island_num_animals isl' ≤ 2 * Island_num_animals isl.
Proof.
  intros Hinv.
  destruct (Island_step_inv exp P isl s Hinv) as (isl' & s' & ? & ? & ? & ? & ? & ? & _).
  by exists isl', s'.
Qed.

(** X17.  A call of [Island.migrate] that returns has changed nothing but
    the places of animals: the layout, the habitable keys, every animal and
    the class, habitability and fodder of every cell are as before, and
    every animal of a cell was an animal of some cell before. *)
Theorem migrate_only_moves_animals isl s isl' s' :
  Island_migrate exp P isl s = Ok (isl', s') →
  geography isl' = geography isl ∧ habitable_map isl' = habitable_map isl ∧
  objs s' = objs s ∧ next_ref s' = next_ref s ∧
  (∀ c cell', island_map isl' !! c = Some cell' →
     ∃ cell, island_map isl !! c = Some cell ∧ landtype cell' = landtype cell ∧
             is_habitable cell' = is_habitable cell ∧ fodder cell' = fodder cell) ∧
  (∀ c cell' a, island_map isl' !! c = Some cell' → a ∈ chain cell' →
     ∃ c0 cell0, island_map isl !! c0 = Some cell0 ∧ a ∈ chain cell0).
Proof.
  intros Hrun.
  destruct (Island_migrate_kept exp P _ _ _ _ Hrun) as ([Hcells Hanimals] & ? & ? & ? & ?).
  done.
Qed.

(** X18.  [BioSim.simulate] for [n] years, on a consistent island and with
    a plotter wherever one is called, returns.  It has then added [n]
    years and [n] entries to the history; the entries have consecutive
    years, each has the population as the sum of its two species, the
    first has the population that the island had before the call, and no
    entry has more than twice the population of the entry before it.  At
    most [n] figures were saved. *)
Theorem simulate_records_history n sim s :
  island_inv (island sim) s → plot_ready sim →
  ∃ sim' s' new,
    simulate exp P n sim s = Returned (sim', s') ∧
    island_inv (island sim') s' ∧
    num_years_simulated sim' = num_years_simulated sim + n ∧
    history sim' = history sim ++ new ∧ length new = n ∧
    (∀ e, head new = Some e → h_population e = Island_num_animals (island sim)) ∧
    (∀ k e, new !! k = Some e →
       h_year e = num_years_simulated sim + k ∧
       h_population e = h_herbivores e + h_carnivores e) ∧
    (∀ k e e', new !! k = Some e → new !! S k = Some e' →
       h_population e' ≤ 2 * h_population e) ∧
    figure_number sim ≤ figure_number sim' ≤ figure_number sim + n.
Proof.
  intros Hinv Hready.
  destruct (simulate_inv exp P n sim s Hinv Hready)
    as (sim' & s' & new & ? & ? & _ & _ & ? & ? & ? & ? & ? & ? & ?).
  by exists sim', s', new.
Qed.

(** X19.  A [BioSim] constructed without graphics ([vis_years] not set)
    but with figures to save ([img_years], [img_dir] and [img_base] set)
    has no plotter, and [simulate] for one year or more raises an
    [AttributeError] when the first figure is due, in the first year. *)
Theorem simulate_fails_saving_without_plotter layout ini_pop r img sim s n :
  BioSim_init P layout ini_pop r 0 img true = Ok (sim, s) →
  img ≠ 0 →
  has_plotter sim = false ∧ simulate exp P (S n) sim s = Raised AttributeError.
Proof.
  intros Hinit Himg.
  destruct (BioSim_init_inv P _ _ _ _ _ _ _ _ Hinit)
    as (_ & _ & Hy & _ & _ & _ & Hiy & Ht & Hp & _).
  apply Nat.eqb_neq in Himg. rewrite Himg in Hiy. apply Nat.eqb_neq in Himg.
  split; [done|]. apply simulate_without_plotter; [done|congruence|done|].
  rewrite Hy. by apply Nat.Div0.mod_0_l.
Qed.

(** X20.  A [BioSim] that could be constructed, with graphics or with no
    figure to save, simulates any number of years without raising,
    whatever the random draws.  Afterwards it has simulated [n] years, its
    history has [n] entries, the first of them with the number of animals
    that were placed, and its island is consistent, with the layout it was
    constructed with. *)
Theorem constructed_simulation_runs layout ini_pop r vis img target sim s n :
  BioSim_init P layout ini_pop r vis img target = Ok (sim, s) →
  vis ≠ 0 ∨ img = 0 ∨ target = false →
  ∃ sim' s',
    simulate exp P n sim s = Returned (sim', s') ∧
    num_years_simulated sim' = n ∧ length (history sim') = n ∧
    island_inv (island sim') s' ∧ geography (island sim') = layout ∧
    (∀ e, head (history sim') = Some e →
          h_population e = sum_list ((λ p, length (pop p)) <$> ini_pop)).
Proof.
  intros Hinit Hcfg.
  destruct (BioSim_init_inv P _ _ _ _ _ _ _ _ Hinit)
    as (Hinv & Hgeo & Hy & Hh & _ & Hv & Hiy & Ht & Hp & Hcount).
  assert (plot_ready sim) as Hready.
  { unfold plot_ready. rewrite Hp, Hv, Hiy, Ht.
    destruct (vis =? 0) eqn:Hvis; [|by left]. apply Nat.eqb_eq in Hvis as ->. right.
    split; [done|]. destruct Hcfg as [?|[-> | ->]]; [done|by left|by right]. }
  destruct (simulate_inv exp P n sim s Hinv Hready)
    as (sim' & s' & new & Hrun & Hinv' & Hgeo' & _ & Hyears & Hhist & Hlen & Hhead & _).
  exists sim', s'. split; [done|]. rewrite Hh in Hhist. simpl in Hhist.
  split; [lia|]. split; [congruence|]. split; [done|]. split; [congruence|].
  intros e He. rewrite Hhist in He. by rewrite (Hhead e He).
Qed.

End Years.

Lemma Baseland_step_keeps_cell_consistent_witness :
  cell_ready maternity nursery ∧
  landtype (Baseland_step exp_series default_classes nursery maternity).1 = Lowland.
Proof.
  split; [exact nursery_ready|].
  assert (0 <= f_max default_classes (landtype nursery))%Q as Hmax
    by (vm_compute; discriminate).
  assert (∀ h, h ∈ herbivores nursery →
               (0 <= F (params_of default_classes (objs maternity !!! h)))%Q) as HF.
  { intros h Hh. simpl in Hh.
    repeat (apply elem_of_cons in Hh as [->|Hh]); [vm_compute; discriminate..|].
    by apply not_elem_of_nil in Hh. }
  pose proof (Baseland_step_keeps_cell_consistent exp_series default_classes nursery maternity
                nursery_ready Hmax HF) as Hstep.
  cbv zeta in Hstep. exact (proj1 (proj2 Hstep)).
Defined.

Lemma Island_step_keeps_island_consistent_witness :
  island_inv (populated (replay [] [])).2.1 (populated (replay [] [])).2.2 ∧
  ∃ isl' s',
    Island_step exp_series default_classes
      (populated (replay [] [])).2.1 (populated (replay [] [])).2.2 = Ok (isl', s') ∧
    island_inv isl' s'.
Proof.
  split; [exact (populated_inv (replay [] []))|].
  destruct (Island_step_keeps_island_consistent exp_series default_classes _ _
              (populated_inv (replay [] []))) as (isl' & s' & Hrun & Hinv & _).
  exists isl', s'. split; [exact Hrun|exact Hinv].
Defined.

Lemma migrate_only_moves_animals_witness :
  ∃ isl' s',
    Island_migrate exp_series default_classes
      (populated (replay [] [])).2.1 (populated (replay [] [])).2.2 = Ok (isl', s') ∧
    objs s' = objs (populated (replay [] [])).2.2.
Proof.
  destruct (Island_migrate_inv exp_series default_classes _ _ (populated_inv (replay [] [])))
    as (isl' & s' & Hrun & _).
  exists isl', s'. split; [exact Hrun|].
  exact (proj1 (proj2 (proj2 (migrate_only_moves_animals _ _ _ _ _ _ Hrun)))).
Defined.

Lemma sighted_sim_built r : ∃ sim s, sighted_sim r = Ok (sim, s).
Proof.
  unfold sighted_sim, BioSim_init.
  change (Island_init (f_max default_classes) _) with (Island_init default_f_max "WWW
WLW
WWW").
  rewrite single_lowland_init, result_bind_Ok.
  pose proof (Island_place_animals_inv default_classes
                [{| loc := (2, 2)%Z; pop := replicate 50 herbivore_5_20 |}]
                single_lowland (initial_state r)
                (Island_init_inv default_f_max _ single_lowland (initial_state r)
                   single_lowland_init)) as Hplaced.
  cbv zeta in Hplaced. destruct Hplaced as (_ & _ & _ & _ & _ & _ & _).
  destruct (Island_place_animals _ _ single_lowland (initial_state r)) as [[[]|e] [isl s]] eqn:Hp.
  - by eexists _, _.
  - exfalso. revert Hp. unfold Island_place_animals. vm_compute. discriminate.
Qed.

Lemma blind_sim_built r : ∃ sim s, blind_sim r = Ok (sim, s).
Proof.
  destruct (sighted_sim_built r) as (sim & s & Hbuilt). revert Hbuilt.
  unfold sighted_sim, blind_sim, BioSim_init.
  destruct (Island_init _ _) as [isl|e]; [|done]. rewrite !result_bind_Ok.
  destruct (Island_place_animals _ _ _ _) as [[[]|e] [isl' s0]]; [|done].
  intros _. by eexists _, _.
Qed.

Lemma sighted_sim_init r sim s :
  sighted_sim r = Ok (sim, s) →
  BioSim_init default_classes "WWW
WLW
WWW"
    [{| loc := (2, 2)%Z; pop := replicate 50 herbivore_5_20 |}] r 1 0 true = Ok (sim, s).
Proof. unfold sighted_sim. intros Hbuilt. exact Hbuilt. Qed.

Lemma blind_sim_init r sim s :
  blind_sim r = Ok (sim, s) →
  BioSim_init default_classes "WWW
WLW
WWW"
    [{| loc := (2, 2)%Z; pop := replicate 50 herbivore_5_20 |}] r 0 1 true = Ok (sim, s).
Proof. unfold blind_sim. intros Hbuilt. exact Hbuilt. Qed.

Lemma sighted_sim_ready r sim s :
  sighted_sim r = Ok (sim, s) →
  island_inv (island sim) s ∧ plot_ready sim ∧ history sim = [].
Proof.
  unfold sighted_sim. intros Hbuilt.
  destruct (BioSim_init_inv default_classes _ _ _ _ _ _ _ _ Hbuilt)
    as (Hinv & _ & _ & Hh & _ & _ & _ & _ & Hp & _).
  split; [exact Hinv|]. split; [left; exact Hp|exact Hh].
Qed.

Lemma simulate_records_history_witness :
  ∃ sim s, sighted_sim (replay [] []) = Ok (sim, s) ∧
    island_inv (island sim) s ∧ plot_ready sim ∧
    ∃ sim' s', simulate exp_series default_classes 2 sim s = Returned (sim', s') ∧
               length (history sim') = 2.
Proof.
  destruct (sighted_sim_built (replay [] [])) as (sim & s & Hbuilt).
  exists sim, s. split; [exact Hbuilt|].
  destruct (sighted_sim_ready _ _ _ Hbuilt) as (Hinv & Hready & Hh).
  split; [exact Hinv|]. split; [exact Hready|].
  destruct (simulate_records_history exp_series default_classes 2 sim s Hinv Hready)
    as (sim' & s' & new & Hrun & _ & _ & Hhist & Hlen & _).
  exists sim', s'. split; [exact Hrun|]. rewrite Hhist, Hh. exact Hlen.
Defined.

Lemma constructed_simulation_runs_witness :
  ∃ sim s, sighted_sim (replay [] []) = Ok (sim, s) ∧
    ∃ sim' s', simulate exp_series default_classes 3 sim s = Returned (sim', s') ∧
               num_years_simulated sim' = 3.
Proof.
  destruct (sighted_sim_built (replay [] [])) as (sim & s & Hbuilt).
  exists sim, s. split; [exact Hbuilt|].
  pose proof (sighted_sim_init _ _ _ Hbuilt) as Hinit.
  destruct (constructed_simulation_runs exp_series default_classes _ _ _ _ _ _ sim s 3 Hinit)
    as (sim' & s' & Hrun & Hyears & _); [left; discriminate|].
  exists sim', s'. split; [exact Hrun|exact Hyears].
Defined.

Lemma simulate_fails_saving_without_plotter_witness :
  ∃ sim s, blind_sim (replay [] []) = Ok (sim, s) ∧
    simulate exp_series default_classes 1 sim s = Raised AttributeError.
Proof.
  destruct (blind_sim_built (replay [] [])) as (sim & s & Hbuilt).
  exists sim, s. split; [exact Hbuilt|].
  pose proof (blind_sim_init _ _ _ Hbuilt) as Hinit.
  refine (proj2 (simulate_fails_saving_without_plotter exp_series default_classes
                   _ _ _ _ sim s 0 Hinit _)).
  discriminate.
Defined.
